(** * The TrenchBroom expression language: tokenizer and parser

    A shallow embedding of [ELTokenizer] and [ELParser] (ELParser.cpp,
    namespace [TrenchBroom::IO]) together with the properties of the
    token stream and of the expression trees that the parser builds. *)

From Stdlib Require Import String Ascii List Bool Arith ZArith Lia.
From Stdlib Require Import Sorted OrdersEx RelationClasses.
Import ListNotations.

Local Open Scope list_scope.
Local Open Scope string_scope.
Local Open Scope char_scope.

(* ================================================================== *)
(** ** Source locations and token kinds *)

(** Modelled from the spec: [FileLocation] (FileLocation.h is not among the
    sources), the pair of line and column that every error and every node
    carries; the source builds it as [FileLocation{line, column}]. *)
Record FileLocation : Set := mkLocation { loc_line : nat; loc_column : nat }.

Module ELToken.

(** Modelled from the spec: the declaration of [ELToken::Type] (ELParser.h)
    is not among the sources.  The kinds are those that [emitToken] builds
    and [tokenNames] lists; the source declares them as one-bit flags of a
    64-bit word so that kinds can be joined into masks with [|]. *)
Inductive TokenType : Set :=
| Name | String | Number | Boolean
| OBracket | CBracket | OBrace | CBrace | OParen | CParen
| Addition | Subtraction | Multiplication | Division | Modulus
| Colon | Comma | Range
| LogicalNegation | LogicalAnd | LogicalOr
| Less | LessOrEqual | Equal | NotEqual | GreaterOrEqual | Greater
| Case
| BitwiseNegation | BitwiseAnd | BitwiseXOr | BitwiseOr
| BitwiseShiftLeft | BitwiseShiftRight
| DoubleOBrace | DoubleCBrace
| Null | Eof.

Definition eq_dec (a b : TokenType) : {a = b} + {a <> b}.
Proof. decide equality. Defined.

Definition eqb (a b : TokenType) : bool :=
  if eq_dec a b then true else false.

(** Modelled from the spec: a type mask, the union of kinds that the source
    writes [a | b] and tests with [hasType]; on masks [|] is list append. *)
Definition Mask : Set := list TokenType.

Definition member (t : TokenType) (mask : Mask) : bool :=
  existsb (eqb t) mask.

(** Modelled from the spec: [ELToken::Literal] (ELParser.h), the tokens of
    [literal := string | number | boolean | null]; arrays and maps are
    named apart where [parseLiteral] expects them. *)
Definition Literal : Mask := [String; Number; Boolean; Null].

(** Modelled from the spec: [ELToken::UnaryOperator], the tokens of
    [unaryOp] (the keys of the table in [parseUnaryOperator]). *)
Definition UnaryOperator : Mask :=
  [Addition; Subtraction; LogicalNegation; BitwiseNegation].

(** Modelled from the spec: [ELToken::SimpleTerm], the first tokens of
    [simpleTerm := unaryOp ... | '(' term ')' | Name | literal]. *)
Definition SimpleTerm : Mask :=
  ([Name] ++ Literal ++ [OParen; OBracket; OBrace] ++ UnaryOperator)%list.

(** Modelled from the spec: [ELToken::CompoundTerm], the tokens of
    [binaryOp] in [compoundTail]; the range token is left for
    [parseExpressionOrBoundedRange] and [parseExpressionOrAnyRange]. *)
Definition CompoundTerm : Mask :=
  [Addition; Subtraction; Multiplication; Division; Modulus;
   LogicalAnd; LogicalOr;
   Less; LessOrEqual; Equal; NotEqual; GreaterOrEqual; Greater;
   Case;
   BitwiseAnd; BitwiseXOr; BitwiseOr; BitwiseShiftLeft; BitwiseShiftRight].

End ELToken.

(** A position inside the input ([const char*]): the offset from the start
    of the input and the text from there to the end. *)
Definition Pos : Set := (nat * string)%type.

Definition offset (p : Pos) : nat := fst p.

(** [p + n] *)
Fixpoint dropChars (n : nat) (s : string) : string :=
  match n, s with
  | S n', String _ s' => dropChars n' s'
  | _, _ => s
  end.

Definition plusChars (p : Pos) (n : nat) : Pos := (fst p + n, dropChars n (snd p)).

Fixpoint takeChars (n : nat) (s : string) : string :=
  match n, s with
  | S n', String c s' => String c (takeChars n' s')
  | _, _ => EmptyString
  end.

(** [std::string{begin, end}]: the characters from [b] up to [e]. *)
Definition between (b e : Pos) : string :=
  takeChars (fst e - fst b) (snd b).

Module Token.

(** Modelled from the spec: the token of the tokenizer (Token.h is not
    among the sources), built as
    [Token{type, begin, end, position, line, column}]: a kind, the matched
    text [data] from [begin] to [end], the offset and the location. *)
Record t : Set := mk {
  type : ELToken.TokenType;
  data : string;
  position : nat;
  line : nat;
  column : nat
}.

Definition make (ty : ELToken.TokenType) (b e : Pos)
           (position line column : nat) : t :=
  mk ty (between b e) position line column.

Definition hasType (tok : t) (mask : ELToken.Mask) : bool :=
  ELToken.member (type tok) mask.

Definition location (tok : t) : FileLocation :=
  mkLocation (line tok) (column tok).

End Token.

(* ================================================================== *)
(** ** Errors and the parser monad *)

(** Modelled from the spec: [ParserException] (not among the sources), the
    one exception type of tokenizer and parser, with one constructor for
    each message that is thrown: the end of the input inside a token, an
    unexpected character (lexical errors), a token of a kind that was not
    expected (parse error), and the two unhandled operators. *)
Inductive ParserException : Set :=
| UnexpectedEndOfFile
| UnexpectedCharacter (loc : FileLocation) (c : ascii)
| ExpectedToken (loc : FileLocation) (expected : ELToken.Mask)
                (actual : Token.t)
| UnhandledUnaryOperator (loc : FileLocation) (ty : ELToken.TokenType)
| UnhandledBinaryOperator (loc : FileLocation) (ty : ELToken.TokenType).

(** Modelled from the spec: [TokenizerState] (Tokenizer.h is not among the
    sources), the restorable scan position with its line and column, and
    the escape flag.  [cur] is the input that is still to be read and
    [consumed] the offset of [cur] from the start of the input. *)
Record TokenizerState : Set := mkState {
  cur : string;
  consumed : nat;
  line : nat;
  column : nat;
  escaped : bool
}.

Inductive result (A : Type) : Type :=
| Ok (a : A)
| Throw (e : ParserException)
| OutOfFuel.
Arguments Ok {A} a.
Arguments Throw {A} e.
Arguments OutOfFuel {A}.

(** A computation over the tokenizer state that returns or throws. *)
Definition M (A : Type) : Type := TokenizerState -> result (A * TokenizerState).

Definition ret {A} (a : A) : M A := fun st => Ok (a, st).

Definition bind {A B} (m : M A) (k : A -> M B) : M B :=
  fun st =>
    match m st with
    | Ok (a, st') => k a st'
    | Throw e => Throw e
    | OutOfFuel => OutOfFuel
    end.

Definition throw {A} (e : ParserException) : M A := fun _ => Throw e.

Definition outOfFuel {A} : M A := fun _ => OutOfFuel.

Definition get : M TokenizerState := fun st => Ok (st, st).

Definition put (st : TokenizerState) : M unit := fun _ => Ok (tt, st).

Declare Scope el_scope.
Delimit Scope el_scope with el.
Notation "x <- m ;; k" := (bind m (fun x => k))
  (at level 61, m at next level, right associativity) : el_scope.
Notation "m ;;; k" := (bind m (fun _ => k))
  (at level 61, right associativity) : el_scope.
Local Open Scope el_scope.

(* ================================================================== *)
(** ** The tokenizer base class *)

(** The scanning primitives of the [Tokenizer] base class (Tokenizer.h) are
    not among the sources.  They are modelled after what the spec and
    [emitToken] require of them: a cursor with one character of lookahead,
    a line and column counter, the backslash as the escape introducer and
    the double quote as the one escapable character (the constructor
    arguments of [ELTokenizer]). *)

(** Modelled from the spec: [Whitespace()], the characters skipped between
    tokens: space, tab, line feed and carriage return. *)
Definition Whitespace : string :=
  String " " (String "009" (String "010" (String "013" EmptyString))).

(** Modelled from the spec: the escape introducer, the backslash. *)
Definition escapeChar : ascii := "092".

(** Modelled from the spec: the characters that can be escaped, here the
    double quote alone. *)
Definition escapable : string := String "034" EmptyString.

(** Modelled from the spec: [isAnyOf(c, allow)]. *)
Fixpoint isAnyOf (c : ascii) (allow : string) : bool :=
  match allow with
  | EmptyString => false
  | String a rest => (c =? a) || isAnyOf c rest
  end.

(** Modelled from the spec: [isDigit(c)], the digits of [[0-9]]. *)
Definition isDigit (c : ascii) : bool := ("0" <=? c) && (c <=? "9").

(** Modelled from the spec: [isLetter(c)], the letters of [[A-Za-z]]. *)
Definition isLetter (c : ascii) : bool :=
  (("a" <=? c) && (c <=? "z")) || (("A" <=? c) && (c <=? "Z")).

(** Modelled from the spec: [eof()], no input left. *)
Definition eof (st : TokenizerState) : bool :=
  match cur st with EmptyString => true | _ => false end.

(** Modelled from the spec: [curChar()], the character under the cursor,
    the zero character at the end of the input. *)
Definition curChar (st : TokenizerState) : ascii :=
  match cur st with EmptyString => zero | String c _ => c end.

(** Modelled from the spec: [lookAhead()], the one character of lookahead,
    the zero character past the end of the input. *)
Definition lookAhead (st : TokenizerState) : ascii :=
  match cur st with
  | String _ (String c _) => c
  | _ => zero
  end.

(** Modelled from the spec: [curPos()], the cursor as a position. *)
Definition curPos (st : TokenizerState) : Pos := (consumed st, cur st).

(** Modelled from the spec: [isEscaped()], the character under the cursor
    is escapable and an escape introducer that is not itself escaped stands
    before it. *)
Definition isEscaped (st : TokenizerState) : bool :=
  negb (eof st) && escaped st && isAnyOf (curChar st) escapable.

(** Modelled from the spec: [advance()], one character forward, keeping
    line, column and the escape flag up to date; at the end of the input it
    throws. *)
Definition advance : M unit := fun st =>
  match cur st with
  | EmptyString => Throw UnexpectedEndOfFile
  | String c rest =>
      let newline := mkState rest (S (consumed st)) (S (line st)) 1 false in
      Ok (tt,
          if c =? "013" then
            if lookAhead st =? "010"
            then mkState rest (S (consumed st)) (line st) (S (column st)) (escaped st)
            else newline
          else if c =? "010" then newline
          else mkState rest (S (consumed st)) (line st) (S (column st))
                       (if c =? escapeChar then negb (escaped st) else false))
  end.

(** Modelled from the spec: [advance(n)], [n] characters forward. *)
Fixpoint advanceN (n : nat) : M unit :=
  match n with
  | O => ret tt
  | S n' => advance ;;; advanceN n'
  end.

(** Modelled from the spec: the scanning loop of the primitives below,
    [while (!eof() && p) advance();].  A scan consumes one character per
    turn, so the length of the input bounds its turns. *)
Fixpoint advanceWhile (p : TokenizerState -> bool) (turns : nat) : M unit :=
  match turns with
  | O => ret tt
  | S n => fun st =>
      if negb (eof st) && p st then (advance ;;; advanceWhile p n) st
      else Ok (tt, st)
  end.

(** Modelled from the spec: [discardWhile(allow)], used to skip white
    space. *)
Definition discardWhile (allow : string) : M unit := fun st =>
  advanceWhile (fun s => isAnyOf (curChar s) allow) (String.length (cur st)) st.

(** Modelled from the spec: [discardUntil(delims)], used to skip a comment
    to the end of its line. *)
Definition discardUntil (delims : string) : M unit := fun st =>
  advanceWhile (fun s => negb (isAnyOf (curChar s) delims)) (String.length (cur st)) st.

(** Modelled from the spec: [readDigits()], forward over digits. *)
Definition readDigits : M unit := fun st =>
  advanceWhile (fun s => isDigit (curChar s)) (String.length (cur st)) st.

(** Modelled from the spec: the exact match of [discard(str)]: the input
    continues with the characters of [str]. *)
Fixpoint startsWith (str s : string) : bool :=
  match str, s with
  | EmptyString, _ => true
  | String a str', String b s' => (a =? b) && startsWith str' s'
  | _, _ => false
  end.

(** Modelled from the spec: [discard(str)], which consumes [str] when the
    input continues with exactly these characters and returns the position
    after them, and returns nothing otherwise. *)
Definition discard (str : string) : M (option Pos) := fun st =>
  if startsWith str (cur st)
  then (advanceN (String.length str) ;;; s <- get ;; ret (Some (curPos s))) st
  else Ok (None, st).

(** Modelled from the spec: [readInteger(delims)], the integer scan: an
    optional sign and digits, up to a delimiter or the end of the input;
    otherwise the scan fails and the state is restored. *)
Definition readInteger (delims : string) : M (option Pos) := fun st =>
  let c := curChar st in
  if negb (c =? "+") && negb (c =? "-") && negb (isDigit c) then Ok (None, st)
  else
    ((if (c =? "+") || (c =? "-") then advance else ret tt) ;;;
     readDigits ;;;
     s <- get ;;
     if eof s || isAnyOf (curChar s) delims then ret (Some (curPos s))
     else put st ;;; ret None) st.

(** Modelled from the spec: [readDecimal(delims)], the decimal scan:
    digits, a fraction and an exponent, each optional, up to a delimiter or
    the end of the input; otherwise the scan fails and the state is
    restored. *)
Definition readDecimal (delims : string) : M (option Pos) := fun st =>
  let c := curChar st in
  if negb (c =? "+") && negb (c =? "-") && negb (c =? ".") && negb (isDigit c)
  then Ok (None, st)
  else
    ((if negb (c =? ".") then advance ;;; readDigits else ret tt) ;;;
     s1 <- get ;;
     (if curChar s1 =? "." then advance ;;; readDigits else ret tt) ;;;
     s2 <- get ;;
     (if curChar s2 =? "e" then
        advance ;;;
        s3 <- get ;;
        if (curChar s3 =? "+") || (curChar s3 =? "-") || isDigit (curChar s3)
        then advance ;;; readDigits
        else ret tt
      else ret tt) ;;;
     s <- get ;;
     if eof s || isAnyOf (curChar s) delims then ret (Some (curPos s))
     else put st ;;; ret None) st.

(** Modelled from the spec: [readQuotedString(delim)], forward to the
    closing delimiter that is not escaped, and past it; the position of the
    delimiter is returned.  An input that ends first is an error. *)
Definition readQuotedString (delim : ascii) : M Pos := fun st =>
  (advanceWhile (fun s => negb (curChar s =? delim) || isEscaped s)
                (String.length (cur st)) ;;;
   s <- get ;;
   if eof s then throw UnexpectedEndOfFile
   else advance ;;; ret (curPos s)) st.

(* ================================================================== *)
(** ** ELTokenizer *)

Definition NumberDelim : string := (Whitespace ++ "(){}[],:+-*/%")%string.

Definition IntegerDelim : string := (NumberDelim ++ ".")%string.

(** The end of the [default:] branch of [emitToken], from [readDecimal] on:
    a number, a keyword or a name that starts at [c], or an error. *)
Definition emitNumberOrWord (c : Pos) (line column : nat)
  : M (option Token.t) := fun st =>
  (e <- readDecimal NumberDelim ;;
   match e with
   | Some e =>
       s <- get ;;
       if negb (eof s) && (curChar s =? ".") && negb (lookAhead s =? ".")
       then throw (UnexpectedCharacter (mkLocation line column) (curChar st))
       else ret (Some (Token.make ELToken.Number c e (offset c) line column))
   | None =>
   e <- readInteger IntegerDelim ;;
   match e with
   | Some e => ret (Some (Token.make ELToken.Number c e (offset c) line column))
   | None =>
   e <- discard "true" ;;
   match e with
   | Some e => ret (Some (Token.make ELToken.Boolean c e (offset c) line column))
   | None =>
   e <- discard "false" ;;
   match e with
   | Some e => ret (Some (Token.make ELToken.Boolean c e (offset c) line column))
   | None =>
   e <- discard "null" ;;
   match e with
   | Some e => ret (Some (Token.make ELToken.Null c e (offset c) line column))
   | None =>
   if isLetter (curChar st) || (curChar st =? "_")
   then
     advance ;;;
     s <- get ;;
     advanceWhile (fun s => isLetter (curChar s) || isDigit (curChar s)
                            || (curChar s =? "_"))
                  (String.length (cur s)) ;;;
     s <- get ;;
     ret (Some (Token.make ELToken.Name c (curPos s) (offset c) line column))
   else throw (UnexpectedCharacter (mkLocation line column) (curChar st))
   end end end end end) st.

(** One turn of the loop of [emitToken]: [Some] token where the source
    returns one, [None] where it leaves the switch with [break] (after
    whitespace or a comment) and goes round the loop again. *)
Definition emitTokenTurn : M (option Token.t) := fun st =>
  let line := line st in
  let column := column st in
  let c := curPos st in
  let token ty n := Token.make ty c (plusChars c n) (offset c) line column in
  let one ty : M (option Token.t) := advance ;;; ret (Some (token ty 1)) in
  let oneOrTwo ty second ty2 : M (option Token.t) :=
    advance ;;;
    s <- get ;;
    if curChar s =? second then advance ;;; ret (Some (token ty2 2))
    else ret (Some (token ty 1)) in
  match curChar st with
  | "[" => one ELToken.OBracket
  | "]" => one ELToken.CBracket
  | "{" => oneOrTwo ELToken.OBrace "{" ELToken.DoubleOBrace
  | "}" => oneOrTwo ELToken.CBrace "}" ELToken.DoubleCBrace
  | "(" => one ELToken.OParen
  | ")" => one ELToken.CParen
  | "+" => one ELToken.Addition
  | "-" => oneOrTwo ELToken.Subtraction ">" ELToken.Case
  | "*" => one ELToken.Multiplication
  | "/" =>
      advance ;;;
      s <- get ;;
      if curChar s =? "/"
      then discardUntil (String "010" (String "013" EmptyString)) ;;; ret None
      else ret (Some (token ELToken.Division 1))
  | "%" => one ELToken.Modulus
  | "~" => one ELToken.BitwiseNegation
  | "&" => oneOrTwo ELToken.BitwiseAnd "&" ELToken.LogicalAnd
  | "|" => oneOrTwo ELToken.BitwiseOr "|" ELToken.LogicalOr
  | "^" => one ELToken.BitwiseXOr
  | "!" => oneOrTwo ELToken.LogicalNegation "=" ELToken.NotEqual
  | "<" =>
      advance ;;;
      s <- get ;;
      if curChar s =? "=" then advance ;;; ret (Some (token ELToken.LessOrEqual 2))
      else if curChar s =? "<" then advance ;;; ret (Some (token ELToken.BitwiseShiftLeft 2))
      else ret (Some (token ELToken.Less 1))
  | ">" =>
      advance ;;;
      s <- get ;;
      if curChar s =? "=" then advance ;;; ret (Some (token ELToken.GreaterOrEqual 2))
      else if curChar s =? ">" then advance ;;; ret (Some (token ELToken.BitwiseShiftRight 2))
      else ret (Some (token ELToken.Greater 1))
  | ":" => one ELToken.Colon
  | "," => one ELToken.Comma
  | "'" | "034" =>
      let delim := curChar st in
      advance ;;;
      s <- get ;;
      let c := curPos s in
      e <- readQuotedString delim ;;
      ret (Some (Token.make ELToken.String c e (offset c) line column))
  | " " | "009" | "010" | "013" =>
      discardWhile Whitespace ;;; ret None
  | _ =>
      early <- match curChar st with
               | "." =>
                   if lookAhead st =? "."
                   then advanceN 2 ;;; ret (Some (token ELToken.Range 2))
                   else ret None
               | "=" =>
                   if curChar st =? "="
                   then advanceN 2 ;;; ret (Some (token ELToken.Equal 2))
                   else ret None
               | _ => ret None
               end ;;
      match early with
      | Some tok => ret (Some tok)
      | None => emitNumberOrWord c line column
      end
  end st.

(** [emitToken()]: turns of the loop until a token is returned or the input
    is used up.  A turn that returns no token has consumed a character, so
    the length of the input bounds the number of turns. *)
Fixpoint emitTokenLoop (turns : nat) : M Token.t := fun st =>
  if eof st
  then Ok (Token.mk ELToken.Eof EmptyString (consumed st) (line st) (column st), st)
  else
    match turns with
    | O => OutOfFuel
    | S n =>
        (r <- emitTokenTurn ;;
         match r with
         | Some tok => ret tok
         | None => emitTokenLoop n
         end) st
    end.

Definition emitToken : M Token.t := fun st =>
  emitTokenLoop (String.length (cur st)) st.

(** Modelled from the spec: [nextToken()] of the base class, which consumes
    the next token. *)
Definition nextToken : M Token.t := emitToken.

(** Modelled from the spec: [peekToken()] of the base class, the next token
    with the scan position put back. *)
Definition peekToken : M Token.t := fun st =>
  match emitToken st with
  | Ok (tok, _) => Ok (tok, st)
  | Throw e => Throw e
  | OutOfFuel => OutOfFuel
  end.

(** [ELTokenizer{str, line, column}] with the line 1 and the column 1 that
    [parseStrict] and [parseLenient] start from. *)
Definition ELTokenizer (str : string) : TokenizerState :=
  mkState str 0 1 1 false.

(** The whole token stream of an input, up to and with the end token, or
    the first error. *)
Fixpoint tokenizeLoop (turns : nat) (st : TokenizerState)
  : result (list Token.t) :=
  match emitToken st with
  | Ok (tok, st') =>
      if ELToken.eqb (Token.type tok) ELToken.Eof then Ok [tok]
      else match turns with
           | O => OutOfFuel
           | S n =>
               match tokenizeLoop n st' with
               | Ok toks => Ok (tok :: toks)
               | other => other
               end
           end
  | Throw e => Throw e
  | OutOfFuel => OutOfFuel
  end.

Definition tokenize (str : string) : result (list Token.t) :=
  tokenizeLoop (String.length str) (ELTokenizer str).

(* ================================================================== *)
(** ** Expression trees *)

Module EL.

(** The declarations of the expression tree (EL/Expression.h, EL/Value.h)
    are not among the sources; the variants and operations are those of the
    data model of the spec, a source location with every node. *)

(** Modelled from the spec: [EL::UnaryOperation], the operations of the
    unary nodes. *)
Inductive UnaryOperation : Set :=
| Plus | Minus | LogicalNegation | BitwiseNegation | Group
| LeftBoundedRange | RightBoundedRange.

(** Modelled from the spec: [EL::BinaryOperation], the operations of the
    binary nodes (the values of the table in [parseCompoundTerm]). *)
Inductive BinaryOperation : Set :=
| Addition | Subtraction | Multiplication | Division | Modulus
| LogicalAnd | LogicalOr
| BitwiseAnd | BitwiseXOr | BitwiseOr | BitwiseShiftLeft | BitwiseShiftRight
| Less | LessOrEqual | Greater | GreaterOrEqual | Equal | NotEqual
| BoundedRange | Case.

(** Modelled from the spec: [EL::Value], as far as the parser builds values
    for literal tokens.  A number is kept as the text of its token:
    [toFloat] turns that text into a 64-bit float, which this embedding
    leaves unread. *)
Inductive Value : Set :=
| Null
| Boolean (b : bool)
| Number (text : string)
| String (s : string).

(** Modelled from the spec: [EL::ExpressionNode], the tagged union of the
    expressions, built as [ExpressionNode{expression, location}]. *)
#[warnings="-register-all"] Inductive ExpressionNode : Set :=
| LiteralExpression (value : Value) (location : FileLocation)
| VariableExpression (name : string) (location : FileLocation)
| ArrayExpression (elements : list ExpressionNode) (location : FileLocation)
| MapExpression (elements : list (string * ExpressionNode))
                (location : FileLocation)
| UnaryExpression (op : UnaryOperation) (operand : ExpressionNode)
                  (location : FileLocation)
| BinaryExpression (op : BinaryOperation) (lhs rhs : ExpressionNode)
                   (location : FileLocation)
| SubscriptExpression (lhs rhs : ExpressionNode) (location : FileLocation)
| SwitchExpression (cases : list ExpressionNode) (location : FileLocation).

(** [std::map<std::string, ExpressionNode>]: the entries in the order of
    their keys, one entry per key. *)
Definition Elements : Set := list (string * ExpressionNode).

(** [std::map::emplace]: a new entry where the key has none yet; a key
    that is present keeps its entry. *)
Fixpoint emplace (key : string) (value : ExpressionNode) (m : Elements)
  : Elements :=
  match m with
  | [] => [(key, value)]
  | (k, v) :: rest =>
      match String.compare key k with
      | Lt => (key, value) :: m
      | Eq => m
      | Gt => (k, v) :: emplace key value rest
      end
  end.

Fixpoint find (key : string) (m : Elements) : option ExpressionNode :=
  match m with
  | [] => None
  | (k, v) :: rest => if String.eqb key k then Some v else find key rest
  end.

End EL.

(** Modelled from the spec: [kdl::str_unescape(str, chars)] (kdl library,
    not among the sources) with the backslash as escape character: a
    backslash before one of [chars] is dropped, any other backslash stays. *)
Fixpoint str_unescape_from (isEscaped : bool) (str chars : string) : string :=
  match str with
  | EmptyString => if isEscaped then String "092" EmptyString else EmptyString
  | String c rest =>
      if c =? "092" then
        if isEscaped then String c (str_unescape_from false rest chars)
        else str_unescape_from true rest chars
      else if isEscaped && negb (isAnyOf c chars)
           then String "092" (String c (str_unescape_from false rest chars))
           else String c (str_unescape_from false rest chars)
  end.

(** Modelled from the spec: [kdl::str_unescape(str, chars)], from outside
    an escape. *)
Definition str_unescape (str chars : string) : string :=
  str_unescape_from false str chars.

(* ================================================================== *)
(** ** ELParser *)

Inductive Mode : Set := Strict | Lenient.

(** Modelled from the spec: [expect(typeMask, token)] of the parser base
    class (Parser.h is not among the sources): the token itself when its
    kind is in the mask, otherwise the parse error with the token, its
    location and the kinds that were acceptable. *)
Definition expect (typeMask : ELToken.Mask) (token : Token.t) : M Token.t :=
  if Token.hasType token typeMask then ret token
  else throw (ExpectedToken (Token.location token) typeMask token).

(** The two [TokenMap] tables. *)
Definition unaryTokenMap (ty : ELToken.TokenType) : option EL.UnaryOperation :=
  match ty with
  | ELToken.Addition => Some EL.Plus
  | ELToken.Subtraction => Some EL.Minus
  | ELToken.LogicalNegation => Some EL.LogicalNegation
  | ELToken.BitwiseNegation => Some EL.BitwiseNegation
  | _ => None
  end.

Definition binaryTokenMap (ty : ELToken.TokenType) : option EL.BinaryOperation :=
  match ty with
  | ELToken.Addition => Some EL.Addition
  | ELToken.Subtraction => Some EL.Subtraction
  | ELToken.Multiplication => Some EL.Multiplication
  | ELToken.Division => Some EL.Division
  | ELToken.Modulus => Some EL.Modulus
  | ELToken.LogicalAnd => Some EL.LogicalAnd
  | ELToken.LogicalOr => Some EL.LogicalOr
  | ELToken.BitwiseAnd => Some EL.BitwiseAnd
  | ELToken.BitwiseXOr => Some EL.BitwiseXOr
  | ELToken.BitwiseOr => Some EL.BitwiseOr
  | ELToken.BitwiseShiftLeft => Some EL.BitwiseShiftLeft
  | ELToken.BitwiseShiftRight => Some EL.BitwiseShiftRight
  | ELToken.Less => Some EL.Less
  | ELToken.LessOrEqual => Some EL.LessOrEqual
  | ELToken.Greater => Some EL.Greater
  | ELToken.GreaterOrEqual => Some EL.GreaterOrEqual
  | ELToken.Equal => Some EL.Equal
  | ELToken.NotEqual => Some EL.NotEqual
  | ELToken.Range => Some EL.BoundedRange
  | ELToken.Case => Some EL.Case
  | _ => None
  end.

Definition parseVariable : M EL.ExpressionNode :=
  token <- nextToken ;;
  expect [ELToken.Name] token ;;;
  ret (EL.VariableExpression (Token.data token) (Token.location token)).

(** The bodies of the mutually recursive member functions, each over the
    functions it calls; [Parser] below ties them together. *)
Section Bodies.

Variables parseExpression parseGroupedTerm parseTerm
          parseSimpleTermOrSwitch parseSimpleTermOrSubscript parseSimpleTerm
          parseLiteral parseArray parseExpressionOrBoundedRange
          parseExpressionOrAnyRange parseMap parseUnaryOperator parseSwitch
  : M EL.ExpressionNode.
Variables parseSubscript parseCompoundTerm subscriptLoop
  : EL.ExpressionNode -> M EL.ExpressionNode.
Variables subscriptElements arrayElements switchElements
  : list EL.ExpressionNode -> M (list EL.ExpressionNode).
Variable mapElements : EL.Elements -> M EL.Elements.

Definition parseExpressionBody : M EL.ExpressionNode :=
  tok <- peekToken ;;
  if Token.hasType tok [ELToken.OParen] then parseGroupedTerm
  else parseTerm.

Definition parseGroupedTermBody : M EL.ExpressionNode :=
  token <- nextToken ;;
  expect [ELToken.OParen] token ;;;
  expression <- parseTerm ;;
  closing <- nextToken ;;
  expect [ELToken.CParen] closing ;;;
  let lhs := EL.UnaryExpression EL.Group expression (Token.location token) in
  tok <- peekToken ;;
  if Token.hasType tok ELToken.CompoundTerm then parseCompoundTerm lhs
  else ret lhs.

Definition parseTermBody : M EL.ExpressionNode :=
  tok <- peekToken ;;
  expect (ELToken.SimpleTerm ++ [ELToken.DoubleOBrace])%list tok ;;;
  lhs <- parseSimpleTermOrSwitch ;;
  tok <- peekToken ;;
  if Token.hasType tok ELToken.CompoundTerm then parseCompoundTerm lhs
  else ret lhs.

Definition parseSimpleTermOrSwitchBody : M EL.ExpressionNode :=
  token <- peekToken ;;
  expect (ELToken.SimpleTerm ++ [ELToken.DoubleOBrace])%list token ;;;
  if Token.hasType token ELToken.SimpleTerm then parseSimpleTermOrSubscript
  else parseSwitch.

(** [while (peekToken().hasType(OBracket)) term = parseSubscript(term);] *)
Definition subscriptLoopBody (term : EL.ExpressionNode) : M EL.ExpressionNode :=
  tok <- peekToken ;;
  if Token.hasType tok [ELToken.OBracket]
  then term' <- parseSubscript term ;; subscriptLoop term'
  else ret term.

Definition parseSimpleTermOrSubscriptBody : M EL.ExpressionNode :=
  term <- parseSimpleTerm ;;
  subscriptLoop term.

Definition parseSimpleTermBody : M EL.ExpressionNode :=
  token <- peekToken ;;
  expect ELToken.SimpleTerm token ;;;
  if Token.hasType token ELToken.UnaryOperator then parseUnaryOperator
  else if Token.hasType token [ELToken.OParen] then parseGroupedTerm
  else if Token.hasType token [ELToken.Name] then parseVariable
  else parseLiteral.

(** [do { elements.push_back(parseExpressionOrAnyRange()); }
     while (expect(Comma | CBracket, nextToken()).hasType(Comma));] *)
Definition subscriptElementsBody (elements : list EL.ExpressionNode)
  : M (list EL.ExpressionNode) :=
  element <- parseExpressionOrAnyRange ;;
  let elements := (elements ++ [element])%list in
  next <- nextToken ;;
  next <- expect [ELToken.Comma; ELToken.CBracket] next ;;
  if Token.hasType next [ELToken.Comma] then subscriptElements elements
  else ret elements.

Definition parseSubscriptBody (lhs : EL.ExpressionNode) : M EL.ExpressionNode :=
  token <- nextToken ;;
  let location := Token.location token in
  expect [ELToken.OBracket] token ;;;
  tok <- peekToken ;;
  elements <- (if negb (Token.hasType tok [ELToken.CBracket])
               then subscriptElements []
               else nextToken ;;; ret []) ;;
  let rhs := match elements with
             | [element] => element
             | _ => EL.ArrayExpression elements location
             end in
  ret (EL.SubscriptExpression lhs rhs location).

Definition parseLiteralBody : M EL.ExpressionNode :=
  token <- peekToken ;;
  expect (ELToken.Literal ++ [ELToken.OBracket; ELToken.OBrace])%list token ;;;
  if Token.hasType token [ELToken.String] then
    nextToken ;;;
    let value := str_unescape (Token.data token) (String "092" (String "034" EmptyString)) in
    ret (EL.LiteralExpression (EL.String value) (Token.location token))
  else if Token.hasType token [ELToken.Number] then
    nextToken ;;;
    ret (EL.LiteralExpression (EL.Number (Token.data token)) (Token.location token))
  else if Token.hasType token [ELToken.Boolean] then
    nextToken ;;;
    ret (EL.LiteralExpression (EL.Boolean (String.eqb (Token.data token) "true"))
                              (Token.location token))
  else if Token.hasType token [ELToken.Null] then
    nextToken ;;;
    ret (EL.LiteralExpression EL.Null (Token.location token))
  else if Token.hasType token [ELToken.OBracket] then parseArray
  else parseMap.

Definition arrayElementsBody (elements : list EL.ExpressionNode)
  : M (list EL.ExpressionNode) :=
  element <- parseExpressionOrBoundedRange ;;
  let elements := (elements ++ [element])%list in
  next <- nextToken ;;
  next <- expect [ELToken.Comma; ELToken.CBracket] next ;;
  if Token.hasType next [ELToken.Comma] then arrayElements elements
  else ret elements.

Definition parseArrayBody : M EL.ExpressionNode :=
  token <- nextToken ;;
  let location := Token.location token in
  expect [ELToken.OBracket] token ;;;
  tok <- peekToken ;;
  elements <- (if negb (Token.hasType tok [ELToken.CBracket])
               then arrayElements []
               else nextToken ;;; ret []) ;;
  ret (EL.ArrayExpression elements location).

Definition parseExpressionOrBoundedRangeBody : M EL.ExpressionNode :=
  expression <- parseExpression ;;
  tok <- peekToken ;;
  if Token.hasType tok [ELToken.Range] then
    token <- nextToken ;;
    upper <- parseExpression ;;
    ret (EL.BinaryExpression EL.BoundedRange expression upper
                             (Token.location token))
  else ret expression.

Definition parseExpressionOrAnyRangeBody : M EL.ExpressionNode :=
  tok <- peekToken ;;
  if Token.hasType tok [ELToken.Range] then
    token <- nextToken ;;
    upper <- parseExpression ;;
    ret (EL.UnaryExpression EL.RightBoundedRange upper (Token.location token))
  else
    expression <- parseExpression ;;
    tok <- peekToken ;;
    if Token.hasType tok [ELToken.Range] then
      token <- nextToken ;;
      tok <- peekToken ;;
      if Token.hasType tok ELToken.SimpleTerm then
        upper <- parseExpression ;;
        ret (EL.BinaryExpression EL.BoundedRange expression upper
                                 (Token.location token))
      else
        ret (EL.UnaryExpression EL.LeftBoundedRange expression
                                (Token.location token))
    else ret expression.

(** [do { key; ':'; elements.emplace(key, parseExpression()); }
     while (expect(Comma | CBrace, nextToken()).hasType(Comma));] *)
Definition mapElementsBody (elements : EL.Elements) : M EL.Elements :=
  token <- nextToken ;;
  expect [ELToken.String; ELToken.Name] token ;;;
  let key := Token.data token in
  colon <- nextToken ;;
  expect [ELToken.Colon] colon ;;;
  value <- parseExpression ;;
  let elements := EL.emplace key value elements in
  next <- nextToken ;;
  next <- expect [ELToken.Comma; ELToken.CBrace] next ;;
  if Token.hasType next [ELToken.Comma] then mapElements elements
  else ret elements.

Definition parseMapBody : M EL.ExpressionNode :=
  token <- nextToken ;;
  let location := Token.location token in
  expect [ELToken.OBrace] token ;;;
  tok <- peekToken ;;
  elements <- (if negb (Token.hasType tok [ELToken.CBrace])
               then mapElements []
               else nextToken ;;; ret []) ;;
  ret (EL.MapExpression elements location).

Definition parseUnaryOperatorBody : M EL.ExpressionNode :=
  token <- nextToken ;;
  expect ELToken.UnaryOperator token ;;;
  match unaryTokenMap (Token.type token) with
  | Some op =>
      operand <- parseSimpleTermOrSwitch ;;
      ret (EL.UnaryExpression op operand (Token.location token))
  | None =>
      throw (UnhandledUnaryOperator (Token.location token) (Token.type token))
  end.

Definition switchElementsBody (subExpressions : list EL.ExpressionNode)
  : M (list EL.ExpressionNode) :=
  element <- parseExpression ;;
  let subExpressions := (subExpressions ++ [element])%list in
  next <- nextToken ;;
  next <- expect [ELToken.Comma; ELToken.DoubleCBrace] next ;;
  if Token.hasType next [ELToken.Comma] then switchElements subExpressions
  else ret subExpressions.

Definition parseSwitchBody : M EL.ExpressionNode :=
  token <- nextToken ;;
  expect [ELToken.DoubleOBrace] token ;;;
  let location := Token.location token in
  token <- peekToken ;;
  expect (ELToken.SimpleTerm ++ [ELToken.DoubleCBrace])%list token ;;;
  subExpressions <- (if Token.hasType token ELToken.SimpleTerm
                     then switchElements []
                     else if Token.hasType token [ELToken.DoubleCBrace]
                          then nextToken ;;; ret []
                          else ret []) ;;
  ret (EL.SwitchExpression subExpressions location).

(** One turn of [while (peekToken().hasType(CompoundTerm))]. *)
Definition parseCompoundTermBody (lhs : EL.ExpressionNode) : M EL.ExpressionNode :=
  tok <- peekToken ;;
  if Token.hasType tok ELToken.CompoundTerm then
    token <- nextToken ;;
    expect ELToken.CompoundTerm token ;;;
    match binaryTokenMap (Token.type token) with
    | Some op =>
        rhs <- parseSimpleTermOrSwitch ;;
        parseCompoundTerm (EL.BinaryExpression op lhs rhs (Token.location token))
    | None =>
        throw (UnhandledBinaryOperator (Token.location token) (Token.type token))
    end
  else ret lhs.

End Bodies.

(** The member functions of [ELParser].  The recursion of the source is
    bounded by [fuel], the depth of calls that is still allowed. *)
Fixpoint parseExpression (fuel : nat) : M EL.ExpressionNode :=
  match fuel with
  | O => outOfFuel
  | S n => parseExpressionBody (parseGroupedTerm n) (parseTerm n)
  end
with parseGroupedTerm (fuel : nat) : M EL.ExpressionNode :=
  match fuel with
  | O => outOfFuel
  | S n => parseGroupedTermBody (parseTerm n) (parseCompoundTerm n)
  end
with parseTerm (fuel : nat) : M EL.ExpressionNode :=
  match fuel with
  | O => outOfFuel
  | S n => parseTermBody (parseSimpleTermOrSwitch n) (parseCompoundTerm n)
  end
with parseSimpleTermOrSwitch (fuel : nat) : M EL.ExpressionNode :=
  match fuel with
  | O => outOfFuel
  | S n => parseSimpleTermOrSwitchBody (parseSimpleTermOrSubscript n) (parseSwitch n)
  end
with parseSimpleTermOrSubscript (fuel : nat) : M EL.ExpressionNode :=
  match fuel with
  | O => outOfFuel
  | S n => parseSimpleTermOrSubscriptBody (parseSimpleTerm n) (subscriptLoop n)
  end
with subscriptLoop (fuel : nat) (term : EL.ExpressionNode) : M EL.ExpressionNode :=
  match fuel with
  | O => outOfFuel
  | S n => subscriptLoopBody (parseSubscript n) (subscriptLoop n) term
  end
with parseSimpleTerm (fuel : nat) : M EL.ExpressionNode :=
  match fuel with
  | O => outOfFuel
  | S n => parseSimpleTermBody (parseGroupedTerm n) (parseLiteral n)
                               (parseUnaryOperator n)
  end
with parseSubscript (fuel : nat) (lhs : EL.ExpressionNode) : M EL.ExpressionNode :=
  match fuel with
  | O => outOfFuel
  | S n => parseSubscriptBody (subscriptElements n) lhs
  end
with subscriptElements (fuel : nat) (elements : list EL.ExpressionNode)
  : M (list EL.ExpressionNode) :=
  match fuel with
  | O => outOfFuel
  | S n => subscriptElementsBody (parseExpressionOrAnyRange n)
                                 (subscriptElements n) elements
  end
with parseLiteral (fuel : nat) : M EL.ExpressionNode :=
  match fuel with
  | O => outOfFuel
  | S n => parseLiteralBody (parseArray n) (parseMap n)
  end
with parseArray (fuel : nat) : M EL.ExpressionNode :=
  match fuel with
  | O => outOfFuel
  | S n => parseArrayBody (arrayElements n)
  end
with arrayElements (fuel : nat) (elements : list EL.ExpressionNode)
  : M (list EL.ExpressionNode) :=
  match fuel with
  | O => outOfFuel
  | S n => arrayElementsBody (parseExpressionOrBoundedRange n)
                             (arrayElements n) elements
  end
with parseExpressionOrBoundedRange (fuel : nat) : M EL.ExpressionNode :=
  match fuel with
  | O => outOfFuel
  | S n => parseExpressionOrBoundedRangeBody (parseExpression n)
  end
with parseExpressionOrAnyRange (fuel : nat) : M EL.ExpressionNode :=
  match fuel with
  | O => outOfFuel
  | S n => parseExpressionOrAnyRangeBody (parseExpression n)
  end
with parseMap (fuel : nat) : M EL.ExpressionNode :=
  match fuel with
  | O => outOfFuel
  | S n => parseMapBody (mapElements n)
  end
with mapElements (fuel : nat) (elements : EL.Elements) : M EL.Elements :=
  match fuel with
  | O => outOfFuel
  | S n => mapElementsBody (parseExpression n) (mapElements n) elements
  end
with parseUnaryOperator (fuel : nat) : M EL.ExpressionNode :=
  match fuel with
  | O => outOfFuel
  | S n => parseUnaryOperatorBody (parseSimpleTermOrSwitch n)
  end
with parseSwitch (fuel : nat) : M EL.ExpressionNode :=
  match fuel with
  | O => outOfFuel
  | S n => parseSwitchBody (switchElements n)
  end
with switchElements (fuel : nat) (subExpressions : list EL.ExpressionNode)
  : M (list EL.ExpressionNode) :=
  match fuel with
  | O => outOfFuel
  | S n => switchElementsBody (parseExpression n) (switchElements n) subExpressions
  end
with parseCompoundTerm (fuel : nat) (lhs : EL.ExpressionNode) : M EL.ExpressionNode :=
  match fuel with
  | O => outOfFuel
  | S n => parseCompoundTermBody (parseSimpleTermOrSwitch n) (parseCompoundTerm n) lhs
  end.

(** [ELParser::parse()] *)
Definition parse (mode : Mode) (fuel : nat) : M EL.ExpressionNode :=
  result <- parseExpression fuel ;;
  match mode with
  | Strict =>
      tok <- peekToken ;;
      expect [ELToken.Eof] tok ;;;
      ret result
  | Lenient => ret result
  end.

(** The value of a computation, without the final state. *)
Definition run {A} (m : M A) (st : TokenizerState) : result A :=
  match m st with
  | Ok (a, _) => Ok a
  | Throw e => Throw e
  | OutOfFuel => OutOfFuel
  end.

(** [ELParser::parseStrict(str)] and [ELParser::parseLenient(str)] *)
Definition parseStrict (fuel : nat) (str : string) : result EL.ExpressionNode :=
  run (parse Strict fuel) (ELTokenizer str).

Definition parseLenient (fuel : nat) (str : string) : result EL.ExpressionNode :=
  run (parse Lenient fuel) (ELTokenizer str).

(* ================================================================== *)
(** ** Fuel *)

(** [refines m m']: wherever [m] has a result other than running out of
    fuel, [m'] has the same result. *)
Definition refines {A} (m m' : M A) : Prop :=
  forall st, m st = OutOfFuel \/ m st = m' st.

(** A function of the fuel is monotone when more fuel keeps its results. *)
Definition Monotone {A} (f : nat -> M A) : Prop :=
  forall n, refines (f n) (f (S n)).

(** [Yields f st r]: with enough fuel, [f] run from [st] has the result
    [r], whatever the fuel beyond that. *)
Definition Yields {A} (f : nat -> M A) (st : TokenizerState)
           (r : result (A * TokenizerState)) : Prop :=
  exists n, forall m, n <= m -> f m st = r.

(** All member functions at once: one more unit of fuel keeps every
    result. *)
Definition StepRefines (n : nat) : Prop :=
  refines (parseExpression n) (parseExpression (S n))
  /\ refines (parseGroupedTerm n) (parseGroupedTerm (S n))
  /\ refines (parseTerm n) (parseTerm (S n))
  /\ refines (parseSimpleTermOrSwitch n) (parseSimpleTermOrSwitch (S n))
  /\ refines (parseSimpleTermOrSubscript n) (parseSimpleTermOrSubscript (S n))
  /\ (forall t, refines (subscriptLoop n t) (subscriptLoop (S n) t))
  /\ refines (parseSimpleTerm n) (parseSimpleTerm (S n))
  /\ (forall l, refines (parseSubscript n l) (parseSubscript (S n) l))
  /\ (forall l, refines (subscriptElements n l) (subscriptElements (S n) l))
  /\ refines (parseLiteral n) (parseLiteral (S n))
  /\ refines (parseArray n) (parseArray (S n))
  /\ (forall l, refines (arrayElements n l) (arrayElements (S n) l))
  /\ refines (parseExpressionOrBoundedRange n) (parseExpressionOrBoundedRange (S n))
  /\ refines (parseExpressionOrAnyRange n) (parseExpressionOrAnyRange (S n))
  /\ refines (parseMap n) (parseMap (S n))
  /\ (forall l, refines (mapElements n l) (mapElements (S n) l))
  /\ refines (parseUnaryOperator n) (parseUnaryOperator (S n))
  /\ refines (parseSwitch n) (parseSwitch (S n))
  /\ (forall l, refines (switchElements n l) (switchElements (S n) l))
  /\ (forall l, refines (parseCompoundTerm n l) (parseCompoundTerm (S n) l)).


(* ================================================================== *)
(** ** Inputs described by the way they are read *)

(** A compound tail read from a state: binary operator tokens, each
    followed by what [parseSimpleTermOrSwitch] reads after it. *)
Inductive CompoundTail :
  TokenizerState -> list (Token.t * EL.BinaryOperation * EL.ExpressionNode)
  -> TokenizerState -> Prop :=
| tail_end st : CompoundTail st [] st
| tail_step st token st1 op rhs st2 rest st3 :
    nextToken st = Ok (token, st1) ->
    Token.hasType token ELToken.CompoundTerm = true ->
    binaryTokenMap (Token.type token) = Some op ->
    Yields parseSimpleTermOrSwitch st1 (Ok (rhs, st2)) ->
    CompoundTail st2 rest st3 ->
    CompoundTail st ((token, op, rhs) :: rest) st3.

(** The chain nested to the left: [((lhs op1 t1) op2 t2) ...], each node
    at the location of its operator token. *)
Definition leftChain (lhs : EL.ExpressionNode)
           (tail : list (Token.t * EL.BinaryOperation * EL.ExpressionNode))
  : EL.ExpressionNode :=
  fold_left (fun lhs '(token, op, rhs) =>
               EL.BinaryExpression op lhs rhs (Token.location token))
            tail lhs.

(** Modelled from the spec: the evaluator (EL/Expression.cpp) is not among
    the sources.  This is its arithmetic on number literals that are whole
    numbers, for addition, subtraction and multiplication; a group
    evaluates to its operand. *)
Fixpoint wholeNumberFrom (acc : Z) (text : string) : option Z :=
  match text with
  | EmptyString => Some acc
  | String c rest =>
      if isDigit c
      then wholeNumberFrom (10 * acc + Z.of_nat (nat_of_ascii c - nat_of_ascii "0")) rest
      else None
  end.

(** Modelled from the spec: the value of a number literal that is written
    with digits only. *)
Definition wholeNumber (text : string) : option Z :=
  match text with
  | EmptyString => None
  | _ => wholeNumberFrom 0 text
  end.

(** Modelled from the spec: [evaluate] on literals of whole numbers,
    groups, and the binary nodes of addition, subtraction and
    multiplication; nothing else is given a value here. *)
Fixpoint evaluate (e : EL.ExpressionNode) : option Z :=
  match e with
  | EL.LiteralExpression (EL.Number text) _ => wholeNumber text
  | EL.UnaryExpression EL.Group operand _ => evaluate operand
  | EL.BinaryExpression op lhs rhs _ =>
      match evaluate lhs, evaluate rhs with
      | Some l, Some r =>
          match op with
          | EL.Addition => Some (l + r)%Z
          | EL.Subtraction => Some (l - r)%Z
          | EL.Multiplication => Some (l * r)%Z
          | _ => None
          end
      | _, _ => None
      end
  | _ => None
  end.

(** The tree built for [1 + 2 * 3]: the product of the sum [1 + 2] and [3]. *)
Definition one_plus_two_times_three : EL.ExpressionNode :=
  EL.BinaryExpression EL.Multiplication
    (EL.BinaryExpression EL.Addition
       (EL.LiteralExpression (EL.Number "1") (mkLocation 1 1))
       (EL.LiteralExpression (EL.Number "2") (mkLocation 1 5))
       (mkLocation 1 3))
    (EL.LiteralExpression (EL.Number "3") (mkLocation 1 9))
    (mkLocation 1 7).

(** The tree built for [1 + 2]. *)
Definition one_plus_two : EL.ExpressionNode :=
  EL.BinaryExpression EL.Addition
    (EL.LiteralExpression (EL.Number "1") (mkLocation 1 1))
    (EL.LiteralExpression (EL.Number "2") (mkLocation 1 5))
    (mkLocation 1 3).

(** The tree built for the variable [x] at the start of the input. *)
Definition variable_x : EL.ExpressionNode :=
  EL.VariableExpression "x" (mkLocation 1 1).

(** The arguments of a subscript read from a state: what
    [parseExpressionOrAnyRange] reads, a comma after each argument but the
    last, the closing bracket after the last. *)
Inductive SubscriptArguments :
  TokenizerState -> list EL.ExpressionNode -> TokenizerState -> Prop :=
| arguments_last st e st1 closing st2 :
    Yields parseExpressionOrAnyRange st (Ok (e, st1)) ->
    nextToken st1 = Ok (closing, st2) ->
    Token.type closing = ELToken.CBracket ->
    SubscriptArguments st [e] st2
| arguments_more st e st1 comma st2 es st3 :
    Yields parseExpressionOrAnyRange st (Ok (e, st1)) ->
    nextToken st1 = Ok (comma, st2) ->
    Token.type comma = ELToken.Comma ->
    SubscriptArguments st2 es st3 ->
    SubscriptArguments st (e :: es) st3.

(** The entries of a map literal read from a state: a key that is a string
    or a name, a colon, the expression of the value, and a comma after each
    entry but the last, the closing brace after the last. *)
Inductive MapEntries :
  TokenizerState -> list (string * EL.ExpressionNode) -> TokenizerState -> Prop :=
| entries_last st key st1 colon st2 value st3 closing st4 :
    nextToken st = Ok (key, st1) ->
    Token.hasType key [ELToken.String; ELToken.Name] = true ->
    nextToken st1 = Ok (colon, st2) ->
    Token.type colon = ELToken.Colon ->
    Yields parseExpression st2 (Ok (value, st3)) ->
    nextToken st3 = Ok (closing, st4) ->
    Token.type closing = ELToken.CBrace ->
    MapEntries st [(Token.data key, value)] st4
| entries_more st key st1 colon st2 value st3 comma st4 rest st5 :
    nextToken st = Ok (key, st1) ->
    Token.hasType key [ELToken.String; ELToken.Name] = true ->
    nextToken st1 = Ok (colon, st2) ->
    Token.type colon = ELToken.Colon ->
    Yields parseExpression st2 (Ok (value, st3)) ->
    nextToken st3 = Ok (comma, st4) ->
    Token.type comma = ELToken.Comma ->
    MapEntries st4 rest st5 ->
    MapEntries st ((Token.data key, value) :: rest) st5.

(** The entries put into a map one after the other, as the loop of
    [parseMap] does. *)
Definition emplaceAll (entries : list (string * EL.ExpressionNode))
           (m : EL.Elements) : EL.Elements :=
  fold_left (fun m '(key, value) => EL.emplace key value m) entries m.

(** The value written first, and the value written last, for a key in the
    text of a map literal. *)
Fixpoint firstWritten (key : string) (entries : list (string * EL.ExpressionNode))
  : option EL.ExpressionNode :=
  match entries with
  | [] => None
  | (k, v) :: rest => if String.eqb key k then Some v else firstWritten key rest
  end.

Definition lastWritten (key : string) (entries : list (string * EL.ExpressionNode))
  : option EL.ExpressionNode :=
  firstWritten key (rev entries).

(** The keys of a [std::map] are in strictly ascending order. *)
Definition keyBelow (a b : string * EL.ExpressionNode) : Prop :=
  String.compare (fst a) (fst b) = Lt.

Definition Ordered (m : EL.Elements) : Prop := StronglySorted keyBelow m.

(** The kinds and texts of a token stream. *)
Definition lexemes (r : result (list Token.t))
  : result (list (ELToken.TokenType * string)) :=
  match r with
  | Ok toks => Ok (map (fun t => (Token.type t, Token.data t)) toks)
  | Throw e => Throw e
  | OutOfFuel => OutOfFuel
  end.

(** A text made of digits only. *)
Fixpoint allDigits (s : string) : bool :=
  match s with
  | EmptyString => true
  | String c rest => isDigit c && allDigits rest
  end.

Definition startsWithDigit (s : string) : bool :=
  match s with
  | EmptyString => false
  | String c _ => isDigit c
  end.

(** The text between the delimiters of a string literal: no character of
    it closes the literal.  A backslash takes the character after it along;
    that character is not the delimiter, unless it is the double quote,
    which the backslash escapes.  A backslash at the very end leaves the
    closing delimiter in force only where that is not the double quote. *)
Fixpoint literalBody (delim : ascii) (text : string) : bool :=
  match text with
  | EmptyString => true
  | String c rest =>
      if c =? "092" then
        match rest with
        | EmptyString => negb (delim =? "034")
        | String d rest' =>
            (negb (d =? delim) || (d =? "034")) && literalBody delim rest'
        end
      else negb (c =? delim) && literalBody delim rest
  end.

(** The value of a string literal in the words of the spec: the backslash
    before a double quote, or before a backslash, is dropped, and every
    other character stays. *)
Fixpoint unescaped (text : string) : string :=
  match text with
  | EmptyString => EmptyString
  | String c rest =>
      if c =? "092" then
        match rest with
        | EmptyString => String c EmptyString
        | String d rest' =>
            if (d =? "034") || (d =? "092") then String d (unescaped rest')
            else String c (String d (unescaped rest'))
        end
      else String c (unescaped rest)
  end.

(** The characters that [parseLiteral] lets [str_unescape] unescape: the
    backslash and the double quote. *)
Definition unescapedChars : string := String "092" (String "034" EmptyString).

(** A text with an escaped double quote, as it is written between the
    delimiters: [a], backslash, double quote, [b]. *)
Definition escaped_quote_text : string :=
  String "a" (String "092" (String "034" (String "b" EmptyString))).

(** Its value: [a], double quote, [b]. *)
Definition escaped_quote_value : string :=
  String "a" (String "034" (String "b" EmptyString)).

(** The text in double quotes. *)
Definition quoted (text : string) : string :=
  String "034" (text ++ String "034" EmptyString).

(* ================================================================== *)
(** ** Chains of numbers, as texts *)

(** The tokens of [ELToken::CompoundTerm] with the text of each and the
    operation that [parseCompoundTerm] looks up for it. *)
Definition compoundOperators
  : list (ELToken.TokenType * string * EL.BinaryOperation) :=
  [(ELToken.Addition, "+"%string, EL.Addition);
   (ELToken.Subtraction, "-"%string, EL.Subtraction);
   (ELToken.Multiplication, "*"%string, EL.Multiplication);
   (ELToken.Division, "/"%string, EL.Division);
   (ELToken.Modulus, "%"%string, EL.Modulus);
   (ELToken.LogicalAnd, "&&"%string, EL.LogicalAnd);
   (ELToken.LogicalOr, "||"%string, EL.LogicalOr);
   (ELToken.Less, "<"%string, EL.Less);
   (ELToken.LessOrEqual, "<="%string, EL.LessOrEqual);
   (ELToken.Equal, "=="%string, EL.Equal);
   (ELToken.NotEqual, "!="%string, EL.NotEqual);
   (ELToken.GreaterOrEqual, ">="%string, EL.GreaterOrEqual);
   (ELToken.Greater, ">"%string, EL.Greater);
   (ELToken.Case, "->"%string, EL.Case);
   (ELToken.BitwiseAnd, "&"%string, EL.BitwiseAnd);
   (ELToken.BitwiseXOr, "^"%string, EL.BitwiseXOr);
   (ELToken.BitwiseOr, "|"%string, EL.BitwiseOr);
   (ELToken.BitwiseShiftLeft, "<<"%string, EL.BitwiseShiftLeft);
   (ELToken.BitwiseShiftRight, ">>"%string, EL.BitwiseShiftRight)].

(** A number as it is written: digits, at least one. *)
Definition isNumeral (text : string) : bool :=
  match text with
  | EmptyString => false
  | _ => allDigits text
  end.

(** The text of a compound tail of numbers: a space, the operator, a space
    and the number, for every step. *)
Fixpoint tailText (tail : list ((ELToken.TokenType * string * EL.BinaryOperation) * string))
  : string :=
  match tail with
  | [] => EmptyString
  | ((_, text, _), number) :: rest =>
      (String " " (text ++ String " " (number ++ tailText rest)))%string
  end.

(** The tree of the chain: [lhs] ends before [column] of line 1, and every
    step nests what was read so far to the left. *)
Fixpoint chainTree (lhs : EL.ExpressionNode) (column : nat)
         (tail : list ((ELToken.TokenType * string * EL.BinaryOperation) * string))
  : EL.ExpressionNode :=
  match tail with
  | [] => lhs
  | ((_, text, op), number) :: rest =>
      chainTree
        (EL.BinaryExpression op lhs
           (EL.LiteralExpression (EL.Number number)
              (mkLocation 1 (column + 2 + String.length text)))
           (mkLocation 1 (column + 1)))
        (column + 2 + String.length text + String.length number)
        rest
  end.

Definition startsWithWhitespace (s : string) : bool :=
  match s with
  | EmptyString => false
  | String c _ => isAnyOf c Whitespace
  end.

(** Where a number may end in these texts: at the end of the input or
    before a space. *)
Definition endsNumber (s : string) : bool :=
  match s with
  | EmptyString => true
  | String c _ => c =? " "
  end.


(** A chain of binary operators read from a state: operator tokens, each
    followed by what [parseSimpleTermOrSwitch] reads after it.  The token
    of a step has the kind and the text of one of the operators of
    [compoundOperators], and the operation of the step is the one listed
    there for that operator. *)
Inductive OperatorChain :
  TokenizerState -> list (Token.t * EL.BinaryOperation * EL.ExpressionNode)
  -> TokenizerState -> Prop :=
| chain_end st : OperatorChain st [] st
| chain_step st token st1 op rhs st2 rest st3 :
    nextToken st = Ok (token, st1) ->
    In (Token.type token, Token.data token, op) compoundOperators ->
    Yields parseSimpleTermOrSwitch st1 (Ok (rhs, st2)) ->
    OperatorChain st2 rest st3 ->
    OperatorChain st ((token, op, rhs) :: rest) st3.

(** Every binary operator once, in the order of [compoundOperators], each
    before the number 2. *)
Definition everyOperator
  : list ((ELToken.TokenType * string * EL.BinaryOperation) * string) :=
  map (fun operator => (operator, "2"%string)) compoundOperators.

(* ================================================================== *)
(** ** The way through the input *)

(** [Span st text st']: from [st] the scan has moved forward over [text]
    and stands at [st']: the input of [st] is [text] and then the input of
    [st'], and the offset has grown by the length of [text]. *)
Definition Span (st : TokenizerState) (text : string) (st' : TokenizerState)
  : Prop :=
  cur st = (text ++ cur st')%string
  /\ consumed st' = consumed st + String.length text.

(** [TokenAt st tok st']: the token [tok] starts where [st] stands and ends
    where [st'] stands.  Its line and column are those of [st].  Its text
    is the input between [st] and [st'] and its offset that of [st]; the
    text of a string token is the input between the two delimiters, and its
    offset that of the first character after the opening delimiter.  The
    end token is never read this way. *)
Definition TokenAt (st : TokenizerState) (tok : Token.t) (st' : TokenizerState)
  : Prop :=
  Token.line tok = line st
  /\ Token.column tok = column st
  /\ match Token.type tok with
     | ELToken.Eof => False
     | ELToken.String =>
         exists delim,
           Span st (String delim (Token.data tok ++ String delim EmptyString)) st'
           /\ Token.position tok = S (consumed st)
     | _ =>
         Span st (Token.data tok) st'
         /\ Token.position tok = consumed st
         /\ Token.data tok <> EmptyString
     end.

(** The characters of a name after the first: letters, digits and the
    underscore, as the loop for names in [emitToken] tests them. *)
Definition isNameChar (c : ascii) : bool :=
  isLetter c || isDigit c || (c =? "_").

Fixpoint allChars (p : ascii -> bool) (s : string) : bool :=
  match s with
  | EmptyString => true
  | String c rest => p c && allChars p rest
  end.

(** [Returns m]: run from any state, [m] returns or throws within the
    turns it has counted out for its loops. *)
Definition Returns {A} (m : M A) : Prop := forall st, m st <> OutOfFuel.

(** [Within str st]: the tokenizer of the input [str] stands at [st]: what
    it has passed and what it has still to read make up [str], and its
    offset is the length of what it has passed. *)
Definition Within (str : string) (st : TokenizerState) : Prop :=
  exists passed, str = (passed ++ cur st)%string
                 /\ consumed st = String.length passed.

(** The offset of the first character after the text of a token. *)
Definition endOffset (tok : Token.t) : nat :=
  Token.position tok + String.length (Token.data tok).

(* ================================================================== *)
(** ** The names of the token kinds *)

(** [ELParser::tokenNames()]: the entries of the map in the order in which
    the source lists them. *)
Definition tokenNames : list (ELToken.TokenType * string) :=
  [(ELToken.Name, "variable"%string);
   (ELToken.String, "string"%string);
   (ELToken.Number, "number"%string);
   (ELToken.Boolean, "boolean"%string);
   (ELToken.OBracket, "'['"%string);
   (ELToken.CBracket, "']'"%string);
   (ELToken.OBrace, "'{'"%string);
   (ELToken.CBrace, "'}'"%string);
   (ELToken.OParen, "'('"%string);
   (ELToken.CParen, "')'"%string);
   (ELToken.Addition, "'+'"%string);
   (ELToken.Subtraction, "'-'"%string);
   (ELToken.Multiplication, "'*'"%string);
   (ELToken.Division, "'/'"%string);
   (ELToken.Modulus, "'%'"%string);
   (ELToken.Colon, "':'"%string);
   (ELToken.Comma, "','"%string);
   (ELToken.Range, "'..'"%string);
   (ELToken.LogicalNegation, "'!'"%string);
   (ELToken.LogicalAnd, "'&&'"%string);
   (ELToken.LogicalOr, "'||'"%string);
   (ELToken.Less, "'<'"%string);
   (ELToken.LessOrEqual, "'<='"%string);
   (ELToken.Equal, "'=='"%string);
   (ELToken.NotEqual, "'!='"%string);
   (ELToken.GreaterOrEqual, "'>='"%string);
   (ELToken.Greater, "'>'"%string);
   (ELToken.Case, "'->'"%string);
   (ELToken.BitwiseNegation, "'~'"%string);
   (ELToken.BitwiseAnd, "'&'"%string);
   (ELToken.BitwiseOr, "'|'"%string);
   (ELToken.BitwiseShiftLeft, "'<<'"%string);
   (ELToken.BitwiseShiftRight, "'>>'"%string);
   (ELToken.DoubleOBrace, "'{{'"%string);
   (ELToken.DoubleCBrace, "'}}'"%string);
   (ELToken.Null, "'null'"%string);
   (ELToken.Eof, "end of file"%string)].

(** The entry of the map [tokenNames()] for a kind, as a lookup in the map
    finds it. *)
Definition tokenNameOf (ty : ELToken.TokenType) : option string :=
  option_map snd (List.find (fun entry => ELToken.eqb ty (fst entry)) tokenNames).

(** The text of a token in single quotes, as [tokenNames()] writes the
    names of delimiters and operators. *)
Definition inQuotes (text : string) : string :=
  String "'" (text ++ String "'" EmptyString).

(** What the kind of a token says about its text: a name is an identifier,
    a number starts with a digit or a point, a keyword is its word, the end
    token is empty, the token of the comparison starts with [=], and the
    text of every other delimiter and operator is the one its kind is
    named after. *)
Definition TextOfKind (tok : Token.t) : Prop :=
  match Token.type tok with
  | ELToken.Name =>
      exists c text,
        Token.data tok = String c text
        /\ isLetter c || (c =? "_") = true
        /\ allChars isNameChar text = true
  | ELToken.Number =>
      exists c text,
        Token.data tok = String c text /\ isDigit c || (c =? ".") = true
  | ELToken.Boolean =>
      Token.data tok = "true"%string \/ Token.data tok = "false"%string
  | ELToken.Null => Token.data tok = "null"%string
  | ELToken.String => True
  | ELToken.Eof => Token.data tok = EmptyString
  | ELToken.Equal =>
      exists c, Token.data tok = String "=" (String c EmptyString)
  | ELToken.BitwiseXOr => Token.data tok = String "^" EmptyString
  | ty => tokenNameOf ty = Some (inQuotes (Token.data tok))
  end.

(* ================================================================== *)
(** ** Properties of all member functions of the parser *)

(** [AllParsers P n]: the property [P] of computations holds of every
    member function of [ELParser] at the fuel [n], whatever the arguments
    of the function. *)
Definition AllParsers (P : forall A : Type, M A -> Prop) (n : nat) : Prop :=
  P _ (parseExpression n)
  /\ P _ (parseGroupedTerm n)
  /\ P _ (parseTerm n)
  /\ P _ (parseSimpleTermOrSwitch n)
  /\ P _ (parseSimpleTermOrSubscript n)
  /\ (forall t, P _ (subscriptLoop n t))
  /\ P _ (parseSimpleTerm n)
  /\ (forall l, P _ (parseSubscript n l))
  /\ (forall l, P _ (subscriptElements n l))
  /\ P _ (parseLiteral n)
  /\ P _ (parseArray n)
  /\ (forall l, P _ (arrayElements n l))
  /\ P _ (parseExpressionOrBoundedRange n)
  /\ P _ (parseExpressionOrAnyRange n)
  /\ P _ (parseMap n)
  /\ (forall l, P _ (mapElements n l))
  /\ P _ (parseUnaryOperator n)
  /\ P _ (parseSwitch n)
  /\ (forall l, P _ (switchElements n l))
  /\ (forall l, P _ (parseCompoundTerm n l)).

(** [Forward m]: where [m] returns, the scan has moved forward, or stands
    where it stood. *)
Definition Forward (A : Type) (m : M A) : Prop :=
  forall st a st', m st = Ok (a, st') -> exists text, Span st text st'.

(* ================================================================== *)
(** ** Lists of elements, as they are read *)

(** [Listed element closing st es st']: a list read from [st] as the loops
    of [parseArray] and [parseSwitch] read it: what [element] reads, a
    comma after every element but the last, and a token of the kind
    [closing] after the last. *)
Inductive Listed (element : nat -> M EL.ExpressionNode)
          (closing : ELToken.TokenType)
  : TokenizerState -> list EL.ExpressionNode -> TokenizerState -> Prop :=
| listed_last st e st1 tok st2 :
    Yields element st (Ok (e, st1)) ->
    nextToken st1 = Ok (tok, st2) ->
    Token.type tok = closing ->
    Listed element closing st [e] st2
| listed_more st e st1 comma st2 es st3 :
    Yields element st (Ok (e, st1)) ->
    nextToken st1 = Ok (comma, st2) ->
    Token.type comma = ELToken.Comma ->
    Listed element closing st2 es st3 ->
    Listed element closing st (e :: es) st3.

(** The subscripts after a simple term, as the loop of
    [parseSimpleTermOrSubscript] reads them: each is what [parseSubscript]
    reads, whatever the term before it.  A subscript is kept as its index
    and its location. *)
Inductive Subscripts :
  TokenizerState -> list (EL.ExpressionNode * FileLocation)
  -> TokenizerState -> Prop :=
| subscripts_end st : Subscripts st [] st
| subscripts_step st opening index st1 rest st2 :
    peekToken st = Ok (opening, st) ->
    Token.type opening = ELToken.OBracket ->
    (forall lhs,
        Yields (fun n => parseSubscript n lhs) st
               (Ok (EL.SubscriptExpression lhs index (Token.location opening),
                    st1))) ->
    Subscripts st1 rest st2 ->
    Subscripts st ((index, Token.location opening) :: rest) st2.

(** The term with its subscripts, each applied to all that stands before
    it. *)
Definition subscripted (term : EL.ExpressionNode)
           (subscripts : list (EL.ExpressionNode * FileLocation))
  : EL.ExpressionNode :=
  fold_left (fun lhs '(index, location) =>
               EL.SubscriptExpression lhs index location)
            subscripts term.

(** The tree built for [1 + (2) * 3]: the sum of [1] and the product of
    the group [(2)] and [3]. *)
Definition one_plus_group_two_times_three : EL.ExpressionNode :=
  EL.BinaryExpression EL.Addition
    (EL.LiteralExpression (EL.Number "1") (mkLocation 1 1))
    (EL.BinaryExpression EL.Multiplication
       (EL.UnaryExpression EL.Group
          (EL.LiteralExpression (EL.Number "2") (mkLocation 1 6))
          (mkLocation 1 5))
       (EL.LiteralExpression (EL.Number "3") (mkLocation 1 11))
       (mkLocation 1 9))
    (mkLocation 1 3).

(* ================================================================== *)
(** ** The depth of calls that an input needs *)

(** The number of characters that are still to be read. *)
Definition remaining (st : TokenizerState) : nat := String.length (cur st).

(** [Bounded b m]: run from a state with at most [b] characters to read,
    [m] returns or throws without running out of fuel, and where it
    returns there are still at most [b] characters to read. *)
Definition Bounded (b : nat) {A} (m : M A) : Prop :=
  forall st,
    remaining st <= b ->
    m st <> OutOfFuel
    /\ forall a st', m st = Ok (a, st') -> remaining st' <= b.

(** [Consuming b m]: as [Bounded b m], and where [m] returns it has passed
    at least one character. *)
Definition Consuming (b : nat) {A} (m : M A) : Prop :=
  forall st,
    remaining st <= b ->
    m st <> OutOfFuel
    /\ forall a st', m st = Ok (a, st') -> S (remaining st') <= b.

(** [Terminates rank n m]: the fuel [n] is enough for [m] on every input of
    at most [b] characters with [9 * b + rank < n]: nine calls deep for
    every character, and [rank] calls that read nothing. *)
Definition Terminates (rank n : nat) {A} (m : M A) : Prop :=
  forall b, 9 * b + rank + 1 <= n -> Bounded b m.

(** The fuel that is enough for each member function: the [rank] of a
    function is the number of calls it can make, one inside the other,
    before a token is consumed. *)
Definition AllTerminate (n : nat) : Prop :=
  Terminates 6 n (parseExpression n)
  /\ Terminates 0 n (parseGroupedTerm n)
  /\ Terminates 5 n (parseTerm n)
  /\ Terminates 4 n (parseSimpleTermOrSwitch n)
  /\ Terminates 3 n (parseSimpleTermOrSubscript n)
  /\ (forall t, Terminates 1 n (subscriptLoop n t))
  /\ Terminates 2 n (parseSimpleTerm n)
  /\ (forall l b, 9 * b + 1 <= n -> Consuming b (parseSubscript n l))
  /\ (forall l, Terminates 8 n (subscriptElements n l))
  /\ Terminates 1 n (parseLiteral n)
  /\ Terminates 0 n (parseArray n)
  /\ (forall l, Terminates 8 n (arrayElements n l))
  /\ Terminates 7 n (parseExpressionOrBoundedRange n)
  /\ Terminates 7 n (parseExpressionOrAnyRange n)
  /\ Terminates 0 n (parseMap n)
  /\ (forall l, Terminates 0 n (mapElements n l))
  /\ Terminates 0 n (parseUnaryOperator n)
  /\ Terminates 0 n (parseSwitch n)
  /\ (forall l, Terminates 7 n (switchElements n l))
  /\ (forall l, Terminates 0 n (parseCompoundTerm n l)).

(* ================================================================== *)
(** ** White space and comments *)

(** The characters at which a comment ends: line feed and carriage
    return, the argument of [discardUntil] in [emitToken]. *)
Definition lineEnd : string := String "010" (String "013" EmptyString).

Definition isWhitespace (c : ascii) : bool := isAnyOf c Whitespace.

Definition inLine (c : ascii) : bool := negb (isAnyOf c lineEnd).

(** A text ends the line: it is empty, or starts with a line feed or a
    carriage return. *)
Definition endsLine (s : string) : bool :=
  match s with
  | EmptyString => true
  | String c _ => isAnyOf c lineEnd
  end.

(** What [emitToken] passes over before a token: white space, and
    comments, each from its two slashes to the end of its line.  The
    recognizer reads a text from the left; its mode says whether it stands
    between tokens, after the first slash of a comment or inside a comment.
    A text that is passed over before a token ends between tokens: a
    comment in it is closed by the end of its line. *)
Inductive BlankMode : Set := BetweenTokens | AfterSlash | InComment.

Fixpoint isBlank (mode : BlankMode) (text : string) : bool :=
  match text with
  | EmptyString =>
      match mode with BetweenTokens => true | _ => false end
  | String c rest =>
      match mode with
      | BetweenTokens =>
          if isWhitespace c then isBlank BetweenTokens rest
          else if c =? "/" then isBlank AfterSlash rest
          else false
      | AfterSlash =>
          if c =? "/" then isBlank InComment rest else false
      | InComment =>
          if inLine c then isBlank InComment rest else isBlank BetweenTokens rest
      end
  end.

(** The characters at the start of a token that may be cut off by the end
    of the input: the two quotes of string literals, and the equals
    sign. *)
Definition opensToken (c : ascii) : bool :=
  (c =? "'") || (c =? "034") || (c =? "=").

(** An input with a comment: [// sum], a line feed, and [+ 1]. *)
Definition comment_then_sum : string :=
  ("// sum" ++ String "010" "+ 1")%string.

(* ================================================================== *)
(** ** Identifiers *)

(** An identifier: a letter or an underscore, and then letters, digits and
    underscores. *)
Definition isIdentifier (name : string) : bool :=
  match name with
  | EmptyString => false
  | String c text => (isLetter c || (c =? "_")) && allChars isNameChar text
  end.

Definition startsWithNameChar (s : string) : bool :=
  match s with
  | EmptyString => false
  | String c _ => isNameChar c
  end.

(** The input goes on with the characters of one of the three keywords
    that [emitToken] tries before it reads a name. *)
Definition startsWithKeyword (s : string) : bool :=
  startsWith "true" s || startsWith "false" s || startsWith "null" s.


(** The three words that [emitToken] tries with [discard] before it reads a
    name, each with the kind of its token and the value of its literal. *)
Definition keywords : list (string * ELToken.TokenType * EL.Value) :=
  [("true"%string, ELToken.Boolean, EL.Boolean true);
   ("false"%string, ELToken.Boolean, EL.Boolean false);
   ("null"%string, ELToken.Null, EL.Null)].

(* ================================================================== *)
(** ** Numbers with a fraction or an exponent *)


(* ================================================================== *)
(** ** More fuel never changes a result *)

Lemma refines_refl {A} (m : M A) : refines m m.
Proof. intro st; now right. Qed.

Lemma refines_trans {A} (m1 m2 m3 : M A) :
  refines m1 m2 -> refines m2 m3 -> refines m1 m3.
Proof.
  intros H12 H23 st.
  destruct (H12 st) as [E | E]; [now left |].
  destruct (H23 st) as [E' | E']; [left | right]; congruence.
Qed.

Lemma outOfFuel_refines {A} (m : M A) : refines outOfFuel m.
Proof. intro st; now left. Qed.

Lemma bind_refines {A B} (m m' : M A) (k k' : A -> M B) :
  refines m m' -> (forall a, refines (k a) (k' a)) ->
  refines (bind m k) (bind m' k').
Proof.
  intros Hm Hk st. unfold bind.
  destruct (Hm st) as [E | E].
  - left. now rewrite E.
  - rewrite <- E. destruct (m st) as [[a st'] | e |]; auto.
    apply Hk.
Qed.

Ltac refines_tac :=
  repeat first
    [ assumption
    | apply refines_refl
    | match goal with H : forall _, refines _ _ |- _ => apply H end
    | apply bind_refines; [ | intro ]
    | match goal with
      | |- refines (if ?b then _ else _) _ => destruct b
      | |- refines (match ?x with _ => _ end) _ => destruct x
      end ].

Section Equations.
Variable n : nat.

Lemma parseExpression_S :
  parseExpression (S n) = parseExpressionBody (parseGroupedTerm n) (parseTerm n).
Proof. reflexivity. Qed.

Lemma parseGroupedTerm_S :
  parseGroupedTerm (S n) = parseGroupedTermBody (parseTerm n) (parseCompoundTerm n).
Proof. reflexivity. Qed.

Lemma parseTerm_S :
  parseTerm (S n) = parseTermBody (parseSimpleTermOrSwitch n) (parseCompoundTerm n).
Proof. reflexivity. Qed.

Lemma parseSimpleTermOrSwitch_S :
  parseSimpleTermOrSwitch (S n)
  = parseSimpleTermOrSwitchBody (parseSimpleTermOrSubscript n) (parseSwitch n).
Proof. reflexivity. Qed.

Lemma parseSimpleTermOrSubscript_S :
  parseSimpleTermOrSubscript (S n)
  = parseSimpleTermOrSubscriptBody (parseSimpleTerm n) (subscriptLoop n).
Proof. reflexivity. Qed.

Lemma subscriptLoop_S term :
  subscriptLoop (S n) term
  = subscriptLoopBody (parseSubscript n) (subscriptLoop n) term.
Proof. reflexivity. Qed.

Lemma parseSimpleTerm_S :
  parseSimpleTerm (S n)
  = parseSimpleTermBody (parseGroupedTerm n) (parseLiteral n) (parseUnaryOperator n).
Proof. reflexivity. Qed.

Lemma parseSubscript_S lhs :
  parseSubscript (S n) lhs = parseSubscriptBody (subscriptElements n) lhs.
Proof. reflexivity. Qed.

Lemma subscriptElements_S elements :
  subscriptElements (S n) elements
  = subscriptElementsBody (parseExpressionOrAnyRange n) (subscriptElements n) elements.
Proof. reflexivity. Qed.

Lemma parseLiteral_S :
  parseLiteral (S n) = parseLiteralBody (parseArray n) (parseMap n).
Proof. reflexivity. Qed.

Lemma parseArray_S : parseArray (S n) = parseArrayBody (arrayElements n).
Proof. reflexivity. Qed.

Lemma arrayElements_S elements :
  arrayElements (S n) elements
  = arrayElementsBody (parseExpressionOrBoundedRange n) (arrayElements n) elements.
Proof. reflexivity. Qed.

Lemma parseExpressionOrBoundedRange_S :
  parseExpressionOrBoundedRange (S n)
  = parseExpressionOrBoundedRangeBody (parseExpression n).
Proof. reflexivity. Qed.

Lemma parseExpressionOrAnyRange_S :
  parseExpressionOrAnyRange (S n) = parseExpressionOrAnyRangeBody (parseExpression n).
Proof. reflexivity. Qed.

Lemma parseMap_S : parseMap (S n) = parseMapBody (mapElements n).
Proof. reflexivity. Qed.

Lemma mapElements_S elements :
  mapElements (S n) elements
  = mapElementsBody (parseExpression n) (mapElements n) elements.
Proof. reflexivity. Qed.

Lemma parseUnaryOperator_S :
  parseUnaryOperator (S n) = parseUnaryOperatorBody (parseSimpleTermOrSwitch n).
Proof. reflexivity. Qed.

Lemma parseSwitch_S : parseSwitch (S n) = parseSwitchBody (switchElements n).
Proof. reflexivity. Qed.

Lemma switchElements_S subExpressions :
  switchElements (S n) subExpressions
  = switchElementsBody (parseExpression n) (switchElements n) subExpressions.
Proof. reflexivity. Qed.

Lemma parseCompoundTerm_S lhs :
  parseCompoundTerm (S n) lhs
  = parseCompoundTermBody (parseSimpleTermOrSwitch n) (parseCompoundTerm n) lhs.
Proof. reflexivity. Qed.

End Equations.

Lemma step_refines : forall n, StepRefines n.
Proof.
  induction n as [| n IH].
  - unfold StepRefines; repeat split; intros; apply outOfFuel_refines.
  - destruct IH as (H1 & H2 & H3 & H4 & H5 & H6 & H7 & H8 & H9 & H10 & H11
                    & H12 & H13 & H14 & H15 & H16 & H17 & H18 & H19 & H20).
    unfold StepRefines; repeat split; intros.
    + rewrite !parseExpression_S. unfold parseExpressionBody. refines_tac.
    + rewrite !parseGroupedTerm_S. unfold parseGroupedTermBody. refines_tac.
    + rewrite !parseTerm_S. unfold parseTermBody. refines_tac.
    + rewrite !parseSimpleTermOrSwitch_S. unfold parseSimpleTermOrSwitchBody. refines_tac.
    + rewrite !parseSimpleTermOrSubscript_S. unfold parseSimpleTermOrSubscriptBody. refines_tac.
    + rewrite !subscriptLoop_S. unfold subscriptLoopBody. refines_tac.
    + rewrite !parseSimpleTerm_S. unfold parseSimpleTermBody. refines_tac.
    + rewrite !parseSubscript_S. unfold parseSubscriptBody. refines_tac.
    + rewrite !subscriptElements_S. unfold subscriptElementsBody. refines_tac.
    + rewrite !parseLiteral_S. unfold parseLiteralBody. refines_tac.
    + rewrite !parseArray_S. unfold parseArrayBody. refines_tac.
    + rewrite !arrayElements_S. unfold arrayElementsBody. refines_tac.
    + rewrite !parseExpressionOrBoundedRange_S. unfold parseExpressionOrBoundedRangeBody. refines_tac.
    + rewrite !parseExpressionOrAnyRange_S. unfold parseExpressionOrAnyRangeBody. refines_tac.
    + rewrite !parseMap_S. unfold parseMapBody. refines_tac.
    + rewrite !mapElements_S. unfold mapElementsBody. refines_tac.
    + rewrite !parseUnaryOperator_S. unfold parseUnaryOperatorBody. refines_tac.
    + rewrite !parseSwitch_S. unfold parseSwitchBody. refines_tac.
    + rewrite !switchElements_S. unfold switchElementsBody. refines_tac.
    + rewrite !parseCompoundTerm_S. unfold parseCompoundTermBody. refines_tac.
Qed.

Lemma monotone_le {A} (f : nat -> M A) :
  Monotone f -> forall n m, n <= m -> refines (f n) (f m).
Proof.
  intros Hf n m Hle. induction Hle as [| m Hle IH].
  - apply refines_refl.
  - eapply refines_trans; [exact IH | apply Hf].
Qed.

Lemma yields_intro {A} (f : nat -> M A) n st r :
  Monotone f -> f n st = r -> r <> OutOfFuel -> Yields f st r.
Proof.
  intros Hf Hn Hr. exists n. intros m Hle.
  destruct (monotone_le f Hf n m Hle st) as [E | E]; congruence.
Qed.

(** A result found with some fuel is the only result there is. *)
Lemma fuel_irrelevant {A} (f : nat -> M A) n st r :
  Monotone f -> f n st = r -> r <> OutOfFuel ->
  forall m, f m st = OutOfFuel \/ f m st = r.
Proof.
  intros Hf Hn Hr m.
  destruct (Nat.le_ge_cases n m) as [Hle | Hle].
  - right. destruct (monotone_le f Hf n m Hle st) as [E | E]; congruence.
  - destruct (monotone_le f Hf m n Hle st) as [E | E]; [now left | right; congruence].
Qed.

Lemma yields_unique {A} (f : nat -> M A) st r r' :
  Yields f st r -> Yields f st r' -> r = r'.
Proof.
  intros [n Hn] [n' Hn'].
  rewrite <- (Hn (Nat.max n n')), <- (Hn' (Nat.max n n')); auto with arith.
Qed.

Section MonotoneParsers.

Lemma parseExpression_monotone : Monotone parseExpression.
Proof. intro n. apply (step_refines n). Qed.

Lemma parseTerm_monotone : Monotone parseTerm.
Proof. intro n. apply (step_refines n). Qed.

Lemma parseGroupedTerm_monotone : Monotone parseGroupedTerm.
Proof. intro n. apply (step_refines n). Qed.

Lemma parseSimpleTermOrSwitch_monotone : Monotone parseSimpleTermOrSwitch.
Proof. intro n. apply (step_refines n). Qed.

Lemma parseSimpleTermOrSubscript_monotone : Monotone parseSimpleTermOrSubscript.
Proof. intro n. apply (step_refines n). Qed.

Lemma parseSimpleTerm_monotone : Monotone parseSimpleTerm.
Proof. intro n. apply (step_refines n). Qed.

Lemma parseExpressionOrAnyRange_monotone : Monotone parseExpressionOrAnyRange.
Proof. intro n. apply (step_refines n). Qed.

Lemma parseMap_monotone : Monotone parseMap.
Proof. intro n. apply (step_refines n). Qed.

Lemma parseSubscript_monotone lhs : Monotone (fun n => parseSubscript n lhs).
Proof. intro n. apply (step_refines n). Qed.

Lemma parseCompoundTerm_monotone lhs : Monotone (fun n => parseCompoundTerm n lhs).
Proof. intro n. apply (step_refines n). Qed.

Lemma parse_monotone mode : Monotone (parse mode).
Proof.
  intro n. unfold parse.
  apply bind_refines; [apply (step_refines n) | intro; apply refines_refl].
Qed.

End MonotoneParsers.

(** The same for the two entry points, which drop the final state. *)
Lemma run_parse_fuel mode n str r :
  run (parse mode n) (ELTokenizer str) = r -> r <> OutOfFuel ->
  forall m, run (parse mode m) (ELTokenizer str) = OutOfFuel
            \/ run (parse mode m) (ELTokenizer str) = r.
Proof.
  unfold run. intros Hn Hr m.
  destruct (parse mode n (ELTokenizer str)) as [[a st'] | e |] eqn:E;
    try congruence;
    (destruct (fuel_irrelevant (parse mode) n _ _ (parse_monotone mode) E) with (m := m)
      as [E' | E']; [discriminate | rewrite E'; now left | rewrite E'; now right]).
Qed.

Lemma run_parse_enough mode n str r :
  run (parse mode n) (ELTokenizer str) = r -> r <> OutOfFuel ->
  forall m, n <= m -> run (parse mode m) (ELTokenizer str) = r.
Proof.
  unfold run. intros Hn Hr m Hle.
  destruct (monotone_le _ (parse_monotone mode) n m Hle (ELTokenizer str)) as [E | E].
  - rewrite E in Hn. congruence.
  - now rewrite <- E.
Qed.

(* ================================================================== *)
(** ** Running a body step by step *)

Lemma bind_Ok {A B} (m : M A) (k : A -> M B) st a st' :
  m st = Ok (a, st') -> bind m k st = k a st'.
Proof. unfold bind. now intros ->. Qed.

Lemma bind_Throw {A B} (m : M A) (k : A -> M B) st e :
  m st = Throw e -> bind m k st = Throw e.
Proof. unfold bind. now intros ->. Qed.

Lemma peek_of_next st tok st' :
  nextToken st = Ok (tok, st') -> peekToken st = Ok (tok, st).
Proof. unfold nextToken, peekToken. now intros ->. Qed.

Lemma next_of_peek st tok :
  peekToken st = Ok (tok, st) -> exists st', nextToken st = Ok (tok, st').
Proof.
  unfold nextToken, peekToken.
  destruct (emitToken st) as [[t s] | |]; try discriminate.
  intros [= ->]. now exists s.
Qed.

Lemma peek_keeps_state st tok st' :
  peekToken st = Ok (tok, st') -> st' = st.
Proof.
  unfold peekToken. destruct (emitToken st) as [[t s] | |]; congruence.
Qed.

Lemma expect_Ok mask tok st :
  Token.hasType tok mask = true -> expect mask tok st = Ok (tok, st).
Proof. unfold expect. now intros ->. Qed.

Lemma expect_Throw mask tok st :
  Token.hasType tok mask = false ->
  expect mask tok st = Throw (ExpectedToken (Token.location tok) mask tok).
Proof. unfold expect. now intros ->. Qed.

Lemma hasType_single tok ty :
  Token.hasType tok [ty] = true <-> Token.type tok = ty.
Proof.
  unfold Token.hasType, ELToken.member, ELToken.eqb. simpl.
  destruct (ELToken.eq_dec (Token.type tok) ty); simpl; split; congruence.
Qed.

Lemma hasType_single_false tok ty :
  Token.hasType tok [ty] = false <-> Token.type tok <> ty.
Proof.
  rewrite <- hasType_single. destruct (Token.hasType tok [ty]); split; congruence.
Qed.

(** Every kind of [CompoundTerm] has its entry in the table of binary
    operations, so the [Unhandled binary operator] error is never thrown. *)
Lemma compound_has_operation tok :
  Token.hasType tok ELToken.CompoundTerm = true ->
  exists op, binaryTokenMap (Token.type tok) = Some op.
Proof.
  unfold Token.hasType. destruct (Token.type tok); simpl; try discriminate; eauto.
Qed.

(** Take one step of a monadic body with a known result. *)
Ltac step_with H :=
  first [ rewrite (bind_Ok _ _ _ _ _ H) | rewrite H ]; cbv beta.

Ltac expect_ok :=
  match goal with
  | |- context [bind (expect ?mask ?tok) ?k ?st] =>
      let H := fresh in
      assert (H : Token.hasType tok mask = true)
        by first [ assumption | reflexivity
                 | apply (proj2 (hasType_single _ _)); assumption ];
      rewrite (bind_Ok _ _ _ _ _ (expect_Ok mask tok st H)); clear H; cbv beta
  end.

(* ================================================================== *)
(** ** The compound tail: one precedence level, nested to the left *)

Lemma compound_tail_yields st tail st' tokEnd :
  CompoundTail st tail st' ->
  peekToken st' = Ok (tokEnd, st') ->
  Token.hasType tokEnd ELToken.CompoundTerm = false ->
  forall lhs,
    Yields (fun n => parseCompoundTerm n lhs) st (Ok (leftChain lhs tail, st')).
Proof.
  induction 1 as [st | st token st1 op rhs st2 rest st3 Hnext Hty Hop Hrhs _ IH];
    intros Hpeek Hend lhs.
  - exists 1. intros [| m] Hm; [lia |].
    rewrite parseCompoundTerm_S. unfold parseCompoundTermBody.
    step_with Hpeek. now rewrite Hend.
  - destruct Hrhs as [n1 Hn1].
    destruct (IH Hpeek Hend
                 (EL.BinaryExpression op lhs rhs (Token.location token)))
      as [n2 Hn2].
    exists (S (Nat.max n1 n2)). intros [| m] Hm; [lia |].
    rewrite parseCompoundTerm_S. unfold parseCompoundTermBody.
    step_with (peek_of_next _ _ _ Hnext). rewrite Hty.
    step_with Hnext. expect_ok. rewrite Hop.
    step_with (Hn1 m ltac:(lia)).
    simpl. apply Hn2. lia.
Qed.

(** What [parseSimpleTermOrSwitch] asks of the first token. *)
Lemma simple_term_or_switch_first n st r tok :
  parseSimpleTermOrSwitch n st = Ok r ->
  peekToken st = Ok (tok, st) ->
  Token.hasType tok (ELToken.SimpleTerm ++ [ELToken.DoubleOBrace])%list = true.
Proof.
  destruct n as [| n]; [discriminate |].
  rewrite parseSimpleTermOrSwitch_S. unfold parseSimpleTermOrSwitchBody.
  intros H Hpeek. rewrite (bind_Ok _ _ _ _ _ Hpeek) in H.
  destruct (Token.hasType tok (ELToken.SimpleTerm ++ [ELToken.DoubleOBrace])%list) eqn:E;
    [reflexivity |].
  rewrite (bind_Throw _ _ _ _ (expect_Throw _ _ _ E)) in H. discriminate.
Qed.

Lemma term_yields st tok0 a st1 tail st2 tokEnd :
  peekToken st = Ok (tok0, st) ->
  Yields parseSimpleTermOrSwitch st (Ok (a, st1)) ->
  CompoundTail st1 tail st2 ->
  peekToken st2 = Ok (tokEnd, st2) ->
  Token.hasType tokEnd ELToken.CompoundTerm = false ->
  Yields parseTerm st (Ok (leftChain a tail, st2)).
Proof.
  intros Hpeek [n1 Hn1] Htail Hpeek2 Hend.
  pose proof (simple_term_or_switch_first _ _ _ _ (Hn1 n1 (Nat.le_refl _)) Hpeek)
    as Hfirst.
  destruct (compound_tail_yields _ _ _ _ Htail Hpeek2 Hend a) as [n2 Hn2].
  exists (S (Nat.max n1 n2)). intros [| m] Hm; [lia |].
  rewrite parseTerm_S. unfold parseTermBody.
  step_with Hpeek. expect_ok.
  step_with (Hn1 m ltac:(lia)).
  inversion Htail as [s E1 E2 E3 | s token s1 op rhs s2 rest s3 Hnext Hty Hop Hrhs Hrest E1 E2 E3];
    subst.
  - step_with Hpeek2. now rewrite Hend.
  - step_with (peek_of_next _ _ _ Hnext). rewrite Hty. apply Hn2. lia.
Qed.

(** Results on a given input are found by running the functions. *)
Ltac run_eq := lazy; reflexivity.

Ltac yields_by n mono :=
  apply (yields_intro _ n); [ apply mono | run_eq | discriminate ].

(** The same input through the two entry points, for any fuel from 12 on. *)
Example flat_precedence_example fuel :
  12 <= fuel ->
  parseStrict fuel "1 + 2 * 3" = Ok one_plus_two_times_three
  /\ parseLenient fuel "1 + 2 * 3" = Ok one_plus_two_times_three
  /\ evaluate one_plus_two_times_three = Some 9%Z
  /\ evaluate one_plus_two_times_three <> Some 7%Z.
Proof.
  intro Hfuel. repeat split.
  - apply (run_parse_enough Strict 12); [vm_compute; reflexivity | discriminate | exact Hfuel].
  - apply (run_parse_enough Lenient 12); [vm_compute; reflexivity | discriminate | exact Hfuel].
  - discriminate.
Qed.

(* ================================================================== *)
(** ** Strict and Lenient mode *)

(** C4 (amended). When the expression has been read and the next token,
    which the tokenizer can read, is not the end of the input, Strict mode
    fails with the parse error that asks for the end of the input at that
    token, and Lenient mode returns the tree of the expression and leaves
    the rest unread. *)
Theorem trailing_token_strict_lenient st e st1 tok :
  Yields parseExpression st (Ok (e, st1)) ->
  peekToken st1 = Ok (tok, st1) ->
  Token.type tok <> ELToken.Eof ->
  Yields (parse Strict) st
         (Throw (ExpectedToken (Token.location tok) [ELToken.Eof] tok))
  /\ Yields (parse Lenient) st (Ok (e, st1)).
Proof.
  intros [n Hn] Hpeek Htok. split; exists n; intros m Hm; unfold parse.
  - step_with (Hn m Hm). step_with Hpeek.
    apply bind_Throw, expect_Throw. now apply hasType_single_false.
  - now step_with (Hn m Hm).
Qed.

Lemma trailing_token_strict_lenient_witness :
  Yields (parse Strict) (ELTokenizer "1 + 2 garbage")
         (Throw (ExpectedToken (mkLocation 1 7) [ELToken.Eof]
                               (Token.mk ELToken.Name "garbage" 6 1 7)))
  /\ Yields (parse Lenient) (ELTokenizer "1 + 2 garbage")
            (Ok (one_plus_two, mkState " garbage" 5 1 6 false)).
Proof.
  apply (trailing_token_strict_lenient
           (ELTokenizer "1 + 2 garbage") one_plus_two
           (mkState " garbage" 5 1 6 false)
           (Token.mk ELToken.Name "garbage" 6 1 7)).
  - yields_by 12 parseExpression_monotone.
  - run_eq.
  - discriminate.
Defined.

(** The example of the two modes, through the entry points. *)
Example trailing_garbage_example fuel :
  12 <= fuel ->
  parseStrict fuel "1 + 2 garbage"
  = Throw (ExpectedToken (mkLocation 1 7) [ELToken.Eof]
                         (Token.mk ELToken.Name "garbage" 6 1 7))
  /\ parseLenient fuel "1 + 2 garbage" = Ok one_plus_two
  /\ parseStrict fuel "1 + 2" = Ok one_plus_two.
Proof.
  intro Hfuel. repeat split.
  - apply (run_parse_enough Strict 12); [vm_compute; reflexivity | discriminate | exact Hfuel].
  - apply (run_parse_enough Lenient 12); [vm_compute; reflexivity | discriminate | exact Hfuel].
  - apply (run_parse_enough Strict 12); [vm_compute; reflexivity | discriminate | exact Hfuel].
Qed.

(** Counterexample to C4 as it is stated: after the complete expression
    [1 + 2], trailing input that is no token makes Lenient mode fail as
    well, and trailing white space is accepted by Strict mode. *)
Lemma trailing_input_counterexample :
  parseStrict 12 "1 + 2" = Ok one_plus_two
  /\ parseLenient 12 "1 + 2 $" = Throw (UnexpectedCharacter (mkLocation 1 7) "$")
  /\ ~ (exists fuel e, parseLenient fuel "1 + 2 $" = Ok e)
  /\ parseStrict 12 "1 + 2 " = Ok one_plus_two.
Proof.
  split; [vm_compute; reflexivity |].
  split; [vm_compute; reflexivity |].
  split; [| vm_compute; reflexivity].
  intros (fuel & e & H).
  destruct (run_parse_fuel Lenient 12 "1 + 2 $"
              (Throw (UnexpectedCharacter (mkLocation 1 7) "$")))
    with (m := fuel) as [E | E];
    [vm_compute; reflexivity | discriminate | |];
    unfold parseLenient in H; congruence.
Qed.

(* ================================================================== *)
(** ** Subscripts and ranges *)

Lemma bind_inv {A B} (m : M A) (k : A -> M B) st r :
  bind m k st = Ok r -> exists a st', m st = Ok (a, st') /\ k a st' = Ok r.
Proof.
  unfold bind. destruct (m st) as [[a st'] | e |]; try discriminate; eauto.
Qed.

Lemma peek_inv {B} (k : Token.t -> M B) st r :
  bind peekToken k st = Ok r ->
  exists tok, peekToken st = Ok (tok, st) /\ k tok st = Ok r.
Proof.
  intro H. apply bind_inv in H as (tok & st' & Hpeek & Hk).
  pose proof (peek_keeps_state _ _ _ Hpeek) as ->. eauto.
Qed.

Lemma expect_inv {B} mask tok (k : Token.t -> M B) st r :
  bind (expect mask tok) k st = Ok r ->
  Token.hasType tok mask = true /\ k tok st = Ok r.
Proof.
  unfold bind, expect.
  destruct (Token.hasType tok mask); [auto | discriminate].
Qed.

(** An expression starts with an opening parenthesis, with the first token
    of a simple term or with the opening of a switch. *)
Lemma expression_first n st r :
  parseExpression n st = Ok r ->
  exists tok,
    peekToken st = Ok (tok, st)
    /\ Token.hasType tok ([ELToken.OParen] ++ ELToken.SimpleTerm
                          ++ [ELToken.DoubleOBrace])%list = true.
Proof.
  destruct n as [| n]; [discriminate |].
  rewrite parseExpression_S. unfold parseExpressionBody.
  intro H. apply peek_inv in H as (tok & Hpeek & H).
  exists tok. split; [exact Hpeek |].
  destruct (Token.hasType tok [ELToken.OParen]) eqn:Eparen.
  - apply hasType_single in Eparen. unfold Token.hasType. now rewrite Eparen.
  - destruct n as [| n]; [discriminate |].
    rewrite parseTerm_S in H. unfold parseTermBody in H.
    apply peek_inv in H as (tok' & Hpeek' & H).
    assert (tok' = tok) as -> by congruence.
    apply expect_inv in H as [Hty _].
    unfold Token.hasType in *. destruct (Token.type tok); try discriminate; reflexivity.
Qed.

Lemma expression_first_yields st r :
  Yields parseExpression st (Ok r) ->
  exists tok,
    peekToken st = Ok (tok, st)
    /\ Token.hasType tok ([ELToken.OParen] ++ ELToken.SimpleTerm
                          ++ [ELToken.DoubleOBrace])%list = true.
Proof. intros [n Hn]. exact (expression_first n st r (Hn n (Nat.le_refl n))). Qed.

(** C5. Among the arguments of a subscript: a range token first, then an
    expression [b], is the range bounded to the right by [b]; an expression
    [a], a range token and then the first token of a simple term, from which
    the expression [b] is read, is the bounded range of [a] and [b]; an
    expression [a] and a range token that no simple term follows is the
    range bounded to the left by [a]. *)
Theorem ranges_among_subscript_arguments :
  (forall st range st1 b st2,
      nextToken st = Ok (range, st1) ->
      Token.type range = ELToken.Range ->
      Yields parseExpression st1 (Ok (b, st2)) ->
      Yields parseExpressionOrAnyRange st
             (Ok (EL.UnaryExpression EL.RightBoundedRange b (Token.location range), st2)))
  /\ (forall st a st1 range st2 tok b st3,
         Yields parseExpression st (Ok (a, st1)) ->
         nextToken st1 = Ok (range, st2) ->
         Token.type range = ELToken.Range ->
         peekToken st2 = Ok (tok, st2) ->
         Token.hasType tok ELToken.SimpleTerm = true ->
         Yields parseExpression st2 (Ok (b, st3)) ->
         Yields parseExpressionOrAnyRange st
                (Ok (EL.BinaryExpression EL.BoundedRange a b (Token.location range), st3)))
  /\ (forall st a st1 range st2 tok,
         Yields parseExpression st (Ok (a, st1)) ->
         nextToken st1 = Ok (range, st2) ->
         Token.type range = ELToken.Range ->
         peekToken st2 = Ok (tok, st2) ->
         Token.hasType tok ELToken.SimpleTerm = false ->
         Yields parseExpressionOrAnyRange st
                (Ok (EL.UnaryExpression EL.LeftBoundedRange a (Token.location range), st2))).
Proof.
  assert (Hfirst : forall st r tok,
             Yields parseExpression st (Ok r) -> peekToken st = Ok (tok, st) ->
             Token.hasType tok [ELToken.Range] = false).
  { intros st r tok Hy Hpeek.
    destruct (expression_first_yields _ _ Hy) as (tok' & Hpeek' & Hty).
    assert (tok' = tok) as -> by congruence.
    unfold Token.hasType in *. destruct (Token.type tok); try discriminate; reflexivity. }
  split; [| split].
  - intros st range st1 b st2 Hnext Hrange [n Hn].
    exists (S n). intros [| m] Hm; [lia |].
    rewrite parseExpressionOrAnyRange_S. unfold parseExpressionOrAnyRangeBody.
    step_with (peek_of_next _ _ _ Hnext).
    rewrite (proj2 (hasType_single _ _) Hrange).
    step_with Hnext. now step_with (Hn m ltac:(lia)).
  - intros st a st1 range st2 tok b st3 Ha Hnext Hrange Hpeek Hsimple [n2 Hn2].
    destruct (expression_first_yields _ _ Ha) as (tok0 & Hpeek0 & _).
    pose proof (Hfirst _ _ _ Ha Hpeek0) as Hnot.
    destruct Ha as [n1 Hn1].
    exists (S (Nat.max n1 n2)). intros [| m] Hm; [lia |].
    rewrite parseExpressionOrAnyRange_S. unfold parseExpressionOrAnyRangeBody.
    step_with Hpeek0. rewrite Hnot.
    step_with (Hn1 m ltac:(lia)).
    step_with (peek_of_next _ _ _ Hnext).
    rewrite (proj2 (hasType_single _ _) Hrange).
    step_with Hnext. step_with Hpeek. rewrite Hsimple.
    now step_with (Hn2 m ltac:(lia)).
  - intros st a st1 range st2 tok Ha Hnext Hrange Hpeek Hsimple.
    destruct (expression_first_yields _ _ Ha) as (tok0 & Hpeek0 & _).
    pose proof (Hfirst _ _ _ Ha Hpeek0) as Hnot.
    destruct Ha as [n1 Hn1].
    exists (S n1). intros [| m] Hm; [lia |].
    rewrite parseExpressionOrAnyRange_S. unfold parseExpressionOrAnyRangeBody.
    step_with Hpeek0. rewrite Hnot.
    step_with (Hn1 m ltac:(lia)).
    step_with (peek_of_next _ _ _ Hnext).
    rewrite (proj2 (hasType_single _ _) Hrange).
    step_with Hnext. step_with Hpeek. now rewrite Hsimple.
Qed.

Lemma ranges_among_subscript_arguments_witness :
  Yields parseExpressionOrAnyRange (ELTokenizer "..3]")
         (Ok (EL.UnaryExpression EL.RightBoundedRange
                (EL.LiteralExpression (EL.Number "3") (mkLocation 1 3))
                (mkLocation 1 1),
              mkState "]" 3 1 4 false))
  /\ Yields parseExpressionOrAnyRange (ELTokenizer "1..3]")
            (Ok (EL.BinaryExpression EL.BoundedRange
                   (EL.LiteralExpression (EL.Number "1") (mkLocation 1 1))
                   (EL.LiteralExpression (EL.Number "3") (mkLocation 1 4))
                   (mkLocation 1 2),
                 mkState "]" 4 1 5 false))
  /\ Yields parseExpressionOrAnyRange (ELTokenizer "1..]")
            (Ok (EL.UnaryExpression EL.LeftBoundedRange
                   (EL.LiteralExpression (EL.Number "1") (mkLocation 1 1))
                   (mkLocation 1 2),
                 mkState "]" 3 1 4 false)).
Proof.
  destruct ranges_among_subscript_arguments as (Hright & Hboth & Hleft).
  split; [| split].
  - apply (Hright (ELTokenizer "..3]") (Token.mk ELToken.Range ".." 0 1 1)
                  (mkState "3]" 2 1 3 false)).
    + run_eq.
    + reflexivity.
    + yields_by 12 parseExpression_monotone.
  - apply (Hboth (ELTokenizer "1..3]") _ (mkState "..3]" 1 1 2 false)
                 (Token.mk ELToken.Range ".." 1 1 2) (mkState "3]" 3 1 4 false)
                 (Token.mk ELToken.Number "3" 3 1 4)).
    + yields_by 12 parseExpression_monotone.
    + run_eq.
    + reflexivity.
    + run_eq.
    + reflexivity.
    + yields_by 12 parseExpression_monotone.
  - apply (Hleft (ELTokenizer "1..]") _ (mkState "..]" 1 1 2 false)
                 (Token.mk ELToken.Range ".." 1 1 2) (mkState "]" 3 1 4 false)
                 (Token.mk ELToken.CBracket "]" 3 1 4)).
    + yields_by 12 parseExpression_monotone.
    + run_eq.
    + reflexivity.
    + run_eq.
    + reflexivity.
Defined.

(** The loop over the arguments of a subscript appends them in the order in
    which they are written. *)
Lemma subscript_arguments_yields st es st' :
  SubscriptArguments st es st' ->
  forall elements,
    Yields (fun n => subscriptElements n elements) st (Ok ((elements ++ es)%list, st')).
Proof.
  induction 1 as [st e st1 closing st2 [n Hn] Hnext Hty
                 | st e st1 comma st2 es st3 [n Hn] Hnext Hty _ IH];
    intro elements.
  - exists (S n). intros [| m] Hm; [lia |].
    rewrite subscriptElements_S. unfold subscriptElementsBody.
    step_with (Hn m ltac:(lia)). step_with Hnext.
    assert (Hmask : Token.hasType closing [ELToken.Comma; ELToken.CBracket] = true)
      by (unfold Token.hasType; now rewrite Hty).
    step_with (expect_Ok _ _ st2 Hmask).
    assert (Token.hasType closing [ELToken.Comma] = false) as ->
        by (unfold Token.hasType; now rewrite Hty).
    reflexivity.
  - destruct (IH (elements ++ [e])%list) as [n' Hn'].
    exists (S (Nat.max n n')). intros [| m] Hm; [lia |].
    rewrite subscriptElements_S. unfold subscriptElementsBody.
    step_with (Hn m ltac:(lia)). step_with Hnext.
    assert (Hmask : Token.hasType comma [ELToken.Comma; ELToken.CBracket] = true)
      by (unfold Token.hasType; now rewrite Hty).
    step_with (expect_Ok _ _ st2 Hmask).
    rewrite (proj2 (hasType_single _ _) Hty).
    rewrite Hn' by lia. now rewrite <- app_assoc.
Qed.

Lemma subscript_arguments_first st es st' :
  SubscriptArguments st es st' ->
  exists tok, peekToken st = Ok (tok, st)
              /\ Token.hasType tok [ELToken.CBracket] = false.
Proof.
  assert (H : forall e st1, Yields parseExpressionOrAnyRange st (Ok (e, st1)) ->
                            exists tok, peekToken st = Ok (tok, st)
                                        /\ Token.hasType tok [ELToken.CBracket] = false).
  { intros e st1 [n Hn]. specialize (Hn (S n) ltac:(lia)).
    rewrite parseExpressionOrAnyRange_S in Hn.
    unfold parseExpressionOrAnyRangeBody in Hn.
    apply peek_inv in Hn as (tok & Hpeek & Hn). exists tok. split; [exact Hpeek |].
    destruct (Token.hasType tok [ELToken.Range]) eqn:Erange.
    - apply hasType_single in Erange. unfold Token.hasType. now rewrite Erange.
    - apply bind_inv in Hn as (a & s & Ha & _).
      destruct (expression_first _ _ _ Ha) as (tok' & Hpeek' & Hty).
      assert (tok' = tok) as -> by congruence.
      unfold Token.hasType in *. destruct (Token.type tok); try discriminate; reflexivity. }
  destruct 1; eauto.
Qed.

(** C6. A subscript with one argument has the expression of that argument
    as its index; a subscript with two or more arguments has as its index
    the array of the expressions of its arguments, in the order in which
    they are written. *)
Theorem subscript_index_of_arguments st opening st1 es st2 lhs :
  nextToken st = Ok (opening, st1) ->
  Token.type opening = ELToken.OBracket ->
  SubscriptArguments st1 es st2 ->
  exists index,
    Yields (fun n => parseSubscript n lhs) st
           (Ok (EL.SubscriptExpression lhs index (Token.location opening), st2))
    /\ (forall e, es = [e] -> index = e)
    /\ (2 <= length es ->
        index = EL.ArrayExpression es (Token.location opening)).
Proof.
  intros Hnext Hopen Hargs.
  destruct (subscript_arguments_first _ _ _ Hargs) as (tok & Hpeek & Hnot).
  destruct (subscript_arguments_yields _ _ _ Hargs []) as [n Hn].
  exists (match es with
          | [e] => e
          | _ => EL.ArrayExpression es (Token.location opening)
          end).
  split; [| split].
  - exists (S n). intros [| m] Hm; [lia |].
    rewrite parseSubscript_S. unfold parseSubscriptBody.
    step_with Hnext. expect_ok. step_with Hpeek. rewrite Hnot. simpl negb. cbv iota.
    now step_with (Hn m ltac:(lia)).
  - now intros e ->.
  - destruct es as [| e1 [| e2 es]]; simpl; intro; [lia | lia | reflexivity].
Qed.

Lemma subscript_index_of_arguments_witness :
  (exists index,
      Yields (fun n => parseSubscript n variable_x) (mkState "[7]" 1 1 2 false)
             (Ok (EL.SubscriptExpression variable_x index (mkLocation 1 2),
                  mkState "" 4 1 5 false))
      /\ index = EL.LiteralExpression (EL.Number "7") (mkLocation 1 3))
  /\ (exists index,
         Yields (fun n => parseSubscript n variable_x) (mkState "[..2, 5]" 1 1 2 false)
                (Ok (EL.SubscriptExpression variable_x index (mkLocation 1 2),
                     mkState "" 9 1 10 false))
         /\ index
            = EL.ArrayExpression
                [EL.UnaryExpression EL.RightBoundedRange
                   (EL.LiteralExpression (EL.Number "2") (mkLocation 1 5))
                   (mkLocation 1 3);
                 EL.LiteralExpression (EL.Number "5") (mkLocation 1 8)]
                (mkLocation 1 2)).
Proof.
  pose (x := variable_x).
  pose (seven := EL.LiteralExpression (EL.Number "7") (mkLocation 1 3)).
  pose (upto2 := EL.UnaryExpression EL.RightBoundedRange
                   (EL.LiteralExpression (EL.Number "2") (mkLocation 1 5))
                   (mkLocation 1 3)).
  pose (five := EL.LiteralExpression (EL.Number "5") (mkLocation 1 8)).
  split.
  - destruct (subscript_index_of_arguments
                (mkState "[7]" 1 1 2 false) (Token.mk ELToken.OBracket "[" 1 1 2)
                (mkState "7]" 2 1 3 false) [seven] (mkState "" 4 1 5 false) x)
      as (index & Hy & Hone & _).
    + run_eq.
    + reflexivity.
    + eapply arguments_last with (st1 := mkState "]" 3 1 4 false);
        [ yields_by 12 parseExpressionOrAnyRange_monotone | run_eq | reflexivity ].
    + exists index. split; [exact Hy | now apply Hone].
  - destruct (subscript_index_of_arguments
                (mkState "[..2, 5]" 1 1 2 false) (Token.mk ELToken.OBracket "[" 1 1 2)
                (mkState "..2, 5]" 2 1 3 false) [upto2; five]
                (mkState "" 9 1 10 false) x)
      as (index & Hy & _ & Hmany).
    + run_eq.
    + reflexivity.
    + eapply arguments_more with (st1 := mkState ", 5]" 5 1 6 false)
                                 (st2 := mkState " 5]" 6 1 7 false);
        [ yields_by 12 parseExpressionOrAnyRange_monotone | run_eq | reflexivity | ].
      eapply arguments_last with (st1 := mkState "]" 8 1 9 false);
        [ yields_by 12 parseExpressionOrAnyRange_monotone | run_eq | reflexivity ].
    + exists index. split; [exact Hy | apply Hmany; simpl; lia].
Defined.

Lemma simple_term_first n st r tok :
  parseSimpleTerm n st = Ok r ->
  peekToken st = Ok (tok, st) ->
  Token.hasType tok ELToken.SimpleTerm = true.
Proof.
  destruct n as [| n]; [discriminate |].
  rewrite parseSimpleTerm_S. unfold parseSimpleTermBody.
  intros H Hpeek. rewrite (bind_Ok _ _ _ _ _ Hpeek) in H.
  now apply expect_inv in H.
Qed.

(** C7 (amended). A simple term [t] followed by [[]] is read by
    [parseSimpleTermOrSubscript] as the subscript of [t] whose index is the
    array without elements: the empty list of arguments is no parse error.
    When the input does not start with an opening parenthesis and ends
    after the [[]], this is the result of the parse in both modes. *)
Theorem empty_subscript_of_simple_term st t st1 opening st2 closing st3 tokEnd :
  Yields parseSimpleTerm st (Ok (t, st1)) ->
  nextToken st1 = Ok (opening, st2) ->
  Token.type opening = ELToken.OBracket ->
  nextToken st2 = Ok (closing, st3) ->
  Token.type closing = ELToken.CBracket ->
  peekToken st3 = Ok (tokEnd, st3) ->
  Token.type tokEnd <> ELToken.OBracket ->
  Yields parseSimpleTermOrSubscript st
         (Ok (EL.SubscriptExpression t
                (EL.ArrayExpression [] (Token.location opening))
                (Token.location opening), st3))
  /\ (forall tok0 mode,
         peekToken st = Ok (tok0, st) ->
         Token.type tok0 <> ELToken.OParen ->
         Token.type tokEnd = ELToken.Eof ->
         Yields (parse mode) st
                (Ok (EL.SubscriptExpression t
                       (EL.ArrayExpression [] (Token.location opening))
                       (Token.location opening), st3))).
Proof.
  intros [n Hn] Hopen Hopening Hclose Hclosing Hend Hnot.
  assert (Hsub : forall m, S (S (S n)) <= m ->
                   parseSimpleTermOrSubscript m st
                   = Ok (EL.SubscriptExpression t
                           (EL.ArrayExpression [] (Token.location opening))
                           (Token.location opening), st3)).
  { intros [| [| [| m]]] Hm; try lia.
    rewrite parseSimpleTermOrSubscript_S. unfold parseSimpleTermOrSubscriptBody.
    step_with (Hn (S (S m)) ltac:(lia)).
    rewrite subscriptLoop_S. unfold subscriptLoopBody.
    step_with (peek_of_next _ _ _ Hopen).
    rewrite (proj2 (hasType_single _ _) Hopening).
    rewrite parseSubscript_S. unfold parseSubscriptBody at 1.
    rewrite (bind_Ok _ _ st1
               (EL.SubscriptExpression t
                  (EL.ArrayExpression [] (Token.location opening))
                  (Token.location opening)) st3).
    - rewrite subscriptLoop_S. unfold subscriptLoopBody.
      step_with Hend.
      now rewrite (proj2 (hasType_single_false _ _) Hnot).
    - step_with Hopen. expect_ok.
      step_with (peek_of_next _ _ _ Hclose).
      rewrite (proj2 (hasType_single _ _) Hclosing). simpl negb. cbv iota.
      rewrite (bind_Ok _ _ st2 [] st3); [reflexivity |].
      now step_with Hclose. }
  split.
  - exists (S (S (S n))). exact Hsub.
  - intros tok0 mode Hpeek Hparen Heof.
    pose proof (simple_term_first _ _ _ _ (Hn n (Nat.le_refl n)) Hpeek) as Hsimple.
    assert (Hmask : Token.hasType tok0 (ELToken.SimpleTerm ++ [ELToken.DoubleOBrace])%list
                    = true).
    { unfold Token.hasType in *. destruct (Token.type tok0); try discriminate; reflexivity. }
    assert (HendC : Token.hasType tokEnd ELToken.CompoundTerm = false).
    { unfold Token.hasType. now rewrite Heof. }
    assert (Hswitch : forall m, S (S (S (S n))) <= m ->
                        parseSimpleTermOrSwitch m st
                        = Ok (EL.SubscriptExpression t
                                (EL.ArrayExpression [] (Token.location opening))
                                (Token.location opening), st3)).
    { intros [| m] Hm; [lia |].
      rewrite parseSimpleTermOrSwitch_S. unfold parseSimpleTermOrSwitchBody.
      step_with Hpeek. step_with (expect_Ok _ _ st Hmask). rewrite Hsimple.
      apply Hsub. lia. }
    assert (Hexpr : forall m, S (S (S (S (S (S n))))) <= m ->
                      parseExpression m st
                      = Ok (EL.SubscriptExpression t
                              (EL.ArrayExpression [] (Token.location opening))
                              (Token.location opening), st3)).
    { intros [| [| m]] Hm; try lia.
      rewrite parseExpression_S. unfold parseExpressionBody.
      step_with Hpeek.
      rewrite (proj2 (hasType_single_false _ _) Hparen).
      rewrite parseTerm_S. unfold parseTermBody.
      step_with Hpeek. step_with (expect_Ok _ _ st Hmask).
      step_with (Hswitch m ltac:(lia)).
      step_with Hend. now rewrite HendC. }
    exists (S (S (S (S (S (S n)))))). intros m Hm.
    unfold parse. step_with (Hexpr m Hm).
    destruct mode; [| reflexivity].
    step_with Hend. now expect_ok.
Qed.

Lemma empty_subscript_of_simple_term_witness :
  Yields parseSimpleTermOrSubscript (ELTokenizer "x[]")
         (Ok (EL.SubscriptExpression variable_x
                (EL.ArrayExpression [] (mkLocation 1 2)) (mkLocation 1 2),
              mkState "" 3 1 4 false))
  /\ Yields (parse Strict) (ELTokenizer "x[]")
            (Ok (EL.SubscriptExpression variable_x
                   (EL.ArrayExpression [] (mkLocation 1 2)) (mkLocation 1 2),
                 mkState "" 3 1 4 false))
  /\ Yields (parse Lenient) (ELTokenizer "x[]")
            (Ok (EL.SubscriptExpression variable_x
                   (EL.ArrayExpression [] (mkLocation 1 2)) (mkLocation 1 2),
                 mkState "" 3 1 4 false)).
Proof.
  destruct (empty_subscript_of_simple_term
              (ELTokenizer "x[]") variable_x (mkState "[]" 1 1 2 false)
              (Token.mk ELToken.OBracket "[" 1 1 2) (mkState "]" 2 1 3 false)
              (Token.mk ELToken.CBracket "]" 2 1 3) (mkState "" 3 1 4 false)
              (Token.mk ELToken.Eof "" 3 1 4))
    as [Hsub Hparse].
  - yields_by 12 parseSimpleTerm_monotone.
  - run_eq.
  - reflexivity.
  - run_eq.
  - reflexivity.
  - run_eq.
  - discriminate.
  - split; [exact Hsub |].
    split; apply (Hparse (Token.mk ELToken.Name "x" 0 1 1));
      solve [run_eq | discriminate | reflexivity].
Defined.

(** Counterexample to C7 as it is stated: [(1)] is an expression, but after
    the group at the start of an expression no subscript is read, so Strict
    mode rejects [(1)[]] and Lenient mode returns the group alone; and in
    [1 + 2[]] the subscript belongs to [2], not to the sum. *)
Lemma empty_subscript_counterexample :
  parseStrict 12 "(1)"
  = Ok (EL.UnaryExpression EL.Group
          (EL.LiteralExpression (EL.Number "1") (mkLocation 1 2)) (mkLocation 1 1))
  /\ parseStrict 12 "(1)[]"
     = Throw (ExpectedToken (mkLocation 1 4) [ELToken.Eof]
                            (Token.mk ELToken.OBracket "[" 3 1 4))
  /\ ~ (exists fuel e, parseStrict fuel "(1)[]" = Ok e)
  /\ parseLenient 12 "(1)[]"
     = Ok (EL.UnaryExpression EL.Group
             (EL.LiteralExpression (EL.Number "1") (mkLocation 1 2)) (mkLocation 1 1))
  /\ parseStrict 12 "1 + 2[]"
     = Ok (EL.BinaryExpression EL.Addition
             (EL.LiteralExpression (EL.Number "1") (mkLocation 1 1))
             (EL.SubscriptExpression
                (EL.LiteralExpression (EL.Number "2") (mkLocation 1 5))
                (EL.ArrayExpression [] (mkLocation 1 6)) (mkLocation 1 6))
             (mkLocation 1 3)).
Proof.
  split; [vm_compute; reflexivity |].
  split; [vm_compute; reflexivity |].
  split; [| split; vm_compute; reflexivity].
  intros (fuel & e & H).
  destruct (run_parse_fuel Strict 12 "(1)[]"
              (Throw (ExpectedToken (mkLocation 1 4) [ELToken.Eof]
                                    (Token.mk ELToken.OBracket "[" 3 1 4))))
    with (m := fuel) as [E | E];
    [vm_compute; reflexivity | discriminate | |];
    unfold parseStrict in H; congruence.
Qed.

(* ================================================================== *)
(** ** Map literals *)

Lemma compare_as_OT a b : String.compare a b = String_as_OT.compare a b.
Proof.
  revert b. induction a as [| c a IH]; destruct b as [| d b]; simpl; auto.
Qed.

Lemma compare_Lt_trans a b c :
  String.compare a b = Lt -> String.compare b c = Lt -> String.compare a c = Lt.
Proof.
  rewrite !compare_as_OT.
  exact (@StrictOrder_Transitive _ _ String_as_OT.lt_strorder a b c).

Qed.

Lemma compare_Gt_Lt a b : String.compare a b = Gt -> String.compare b a = Lt.
Proof. intro H. rewrite String.compare_antisym, H. reflexivity. Qed.

Lemma compare_Lt_neq a b : String.compare a b = Lt -> String.eqb a b = false.
Proof.
  intro H. apply String.eqb_neq. intros ->.
  pose proof (String.compare_antisym b b) as A.
  rewrite H in A. discriminate.
Qed.

Lemma find_above key m :
  Forall (fun e => String.compare key (fst e) = Lt) m -> EL.find key m = None.
Proof.
  induction 1 as [| [k v] m Hlt _ IH]; simpl in *; [reflexivity |].
  now rewrite (compare_Lt_neq _ _ Hlt).
Qed.

Lemma emplace_Forall (P : string * EL.ExpressionNode -> Prop) key value m :
  P (key, value) -> Forall P m -> Forall P (EL.emplace key value m).
Proof.
  intros Hnew. induction 1 as [| [k v] m Hk Hm IH]; simpl.
  - now constructor.
  - destruct (String.compare key k); repeat constructor; auto.
Qed.

Lemma emplace_ordered key value m :
  Ordered m -> Ordered (EL.emplace key value m).
Proof.
  unfold Ordered. induction 1 as [| [k v] m Hm IH Hall]; simpl.
  - repeat constructor.
  - destruct (String.compare key k) eqn:E.
    + now constructor.
    + constructor; [now constructor |].
      constructor; [exact E |].
      eapply Forall_impl; [| exact Hall].
      intros [k' v'] Hk'. unfold keyBelow in *. simpl in *.
      eapply compare_Lt_trans; eauto.
    + constructor; [exact IH |].
      apply emplace_Forall; [| exact Hall].
      unfold keyBelow. simpl. now apply compare_Gt_Lt.
Qed.

(** [emplace] never replaces: the key that is present keeps its value, a
    new key gets the value given. *)
Lemma find_emplace key k value m :
  Ordered m ->
  EL.find key (EL.emplace k value m)
  = if String.eqb key k
    then match EL.find k m with Some old => Some old | None => Some value end
    else EL.find key m.
Proof.
  unfold Ordered. induction 1 as [| [k0 v0] m Hm IH Hall]; simpl.
  - reflexivity.
  - destruct (String.compare k k0) eqn:E.
    + apply String.compare_eq_iff in E. subst k0. simpl.
      rewrite String.eqb_refl.
      destruct (String.eqb key k) eqn:Ek; [| reflexivity].
      apply String.eqb_eq in Ek. now subst.
    + simpl. rewrite (compare_Lt_neq _ _ E).
      destruct (String.eqb key k) eqn:Ek; [| reflexivity].
      rewrite find_above; [reflexivity |].
      eapply Forall_impl; [| exact Hall].
      intros [k' v'] Hk'. unfold keyBelow in *. simpl in *.
      eapply compare_Lt_trans; eauto.
    + simpl. rewrite IH.
      assert (Hne : String.eqb k k0 = false).
      { rewrite String.eqb_sym. apply compare_Lt_neq. now apply compare_Gt_Lt. }
      rewrite Hne.
      destruct (String.eqb key k) eqn:Ek; [| reflexivity].
      apply String.eqb_eq in Ek. subst key. now rewrite Hne.
Qed.

Lemma emplaceAll_ordered entries m : Ordered m -> Ordered (emplaceAll entries m).
Proof.
  revert m. induction entries as [| [k v] entries IH]; intros m Hm; simpl; auto.
  apply IH. now apply emplace_ordered.
Qed.

Lemma find_emplaceAll key entries m :
  Ordered m ->
  EL.find key (emplaceAll entries m)
  = match EL.find key m with
    | Some old => Some old
    | None => firstWritten key entries
    end.
Proof.
  revert m. induction entries as [| [k v] entries IH]; intros m Hm; simpl.
  - now destruct (EL.find key m).
  - rewrite IH by now apply emplace_ordered.
    rewrite find_emplace by exact Hm.
    destruct (String.eqb key k) eqn:Ek; [| reflexivity].
    apply String.eqb_eq in Ek. subst k.
    now destruct (EL.find key m).
Qed.

Lemma map_entries_yields st entries st' :
  MapEntries st entries st' ->
  forall elements,
    Yields (fun n => mapElements n elements) st
           (Ok (emplaceAll entries elements, st')).
Proof.
  induction 1 as [st key st1 colon st2 value st3 closing st4
                     Hkey Hkind Hcolon Hcolonty [n Hn] Hnext Hty
                 | st key st1 colon st2 value st3 comma st4 rest st5
                     Hkey Hkind Hcolon Hcolonty [n Hn] Hnext Hty _ IH];
    intro elements.
  - exists (S n). intros [| m] Hm; [lia |].
    rewrite mapElements_S. unfold mapElementsBody.
    step_with Hkey. expect_ok. step_with Hcolon. expect_ok.
    step_with (Hn m ltac:(lia)). step_with Hnext.
    assert (Hmask : Token.hasType closing [ELToken.Comma; ELToken.CBrace] = true)
      by (unfold Token.hasType; now rewrite Hty).
    step_with (expect_Ok _ _ st4 Hmask).
    assert (Token.hasType closing [ELToken.Comma] = false) as ->
        by (unfold Token.hasType; now rewrite Hty).
    reflexivity.
  - destruct (IH (EL.emplace (Token.data key) value elements)) as [n' Hn'].
    exists (S (Nat.max n n')). intros [| m] Hm; [lia |].
    rewrite mapElements_S. unfold mapElementsBody.
    step_with Hkey. expect_ok. step_with Hcolon. expect_ok.
    step_with (Hn m ltac:(lia)). step_with Hnext.
    assert (Hmask : Token.hasType comma [ELToken.Comma; ELToken.CBrace] = true)
      by (unfold Token.hasType; now rewrite Hty).
    step_with (expect_Ok _ _ st4 Hmask).
    rewrite (proj2 (hasType_single _ _) Hty).
    apply Hn'. lia.
Qed.

Lemma map_entries_first st entries st' :
  MapEntries st entries st' ->
  exists tok, peekToken st = Ok (tok, st)
              /\ Token.hasType tok [ELToken.CBrace] = false.
Proof.
  assert (H : forall key st1, nextToken st = Ok (key, st1) ->
                Token.hasType key [ELToken.String; ELToken.Name] = true ->
                exists tok, peekToken st = Ok (tok, st)
                            /\ Token.hasType tok [ELToken.CBrace] = false).
  { intros key st1 Hkey Hkind. exists key. split; [now apply peek_of_next in Hkey |].
    unfold Token.hasType in *. destruct (Token.type key); try discriminate; reflexivity. }
  destruct 1; eauto.
Qed.

(** C2 (amended). The map node built for a map literal binds every key to
    the expression written first for it: an entry whose key is already
    present is read and dropped. *)
Theorem map_literal_first_entry_wins st opening st1 entries st2 :
  nextToken st = Ok (opening, st1) ->
  Token.type opening = ELToken.OBrace ->
  MapEntries st1 entries st2 ->
  exists elements,
    Yields parseMap st (Ok (EL.MapExpression elements (Token.location opening), st2))
    /\ forall key, EL.find key elements = firstWritten key entries.
Proof.
  intros Hopen Hopening Hentries.
  destruct (map_entries_first _ _ _ Hentries) as (tok & Hpeek & Hnot).
  destruct (map_entries_yields _ _ _ Hentries []) as [n Hn].
  exists (emplaceAll entries []). split.
  - exists (S n). intros [| m] Hm; [lia |].
    rewrite parseMap_S. unfold parseMapBody.
    step_with Hopen. expect_ok. step_with Hpeek. rewrite Hnot. simpl negb. cbv iota.
    now step_with (Hn m ltac:(lia)).
  - intro key. rewrite find_emplaceAll by constructor. reflexivity.
Qed.

Lemma map_literal_first_entry_wins_witness :
  exists elements,
    Yields parseMap (ELTokenizer "{a: 1, a: 2}")
           (Ok (EL.MapExpression elements (mkLocation 1 1), mkState "" 12 1 13 false))
    /\ EL.find "a" elements
       = Some (EL.LiteralExpression (EL.Number "1") (mkLocation 1 5)).
Proof.
  destruct (map_literal_first_entry_wins
              (ELTokenizer "{a: 1, a: 2}") (Token.mk ELToken.OBrace "{" 0 1 1)
              (mkState "a: 1, a: 2}" 1 1 2 false)
              [("a"%string, EL.LiteralExpression (EL.Number "1") (mkLocation 1 5));
               ("a"%string, EL.LiteralExpression (EL.Number "2") (mkLocation 1 11))]
              (mkState "" 12 1 13 false))
    as (elements & Hy & Hfind).
  - run_eq.
  - reflexivity.
  - apply (entries_more _ (Token.mk ELToken.Name "a" 1 1 2)
                        (mkState ": 1, a: 2}" 2 1 3 false)
                        (Token.mk ELToken.Colon ":" 2 1 3)
                        (mkState " 1, a: 2}" 3 1 4 false) _
                        (mkState ", a: 2}" 5 1 6 false)
                        (Token.mk ELToken.Comma "," 5 1 6)
                        (mkState " a: 2}" 6 1 7 false));
      [ run_eq | reflexivity | run_eq | reflexivity
      | yields_by 12 parseExpression_monotone | run_eq | reflexivity | ].
    apply (entries_last _ (Token.mk ELToken.Name "a" 7 1 8)
                        (mkState ": 2}" 8 1 9 false)
                        (Token.mk ELToken.Colon ":" 8 1 9)
                        (mkState " 2}" 9 1 10 false) _
                        (mkState "}" 11 1 12 false)
                        (Token.mk ELToken.CBrace "}" 11 1 12));
      [ run_eq | reflexivity | run_eq | reflexivity
      | yields_by 12 parseExpression_monotone | run_eq | reflexivity ].
  - exists elements. split; [exact Hy | apply Hfind].
Defined.

(** Counterexample to C2 as it is stated: in [{a: 1, a: 2}] the key [a] is
    bound to the expression written first, [1], not to the one written
    last, [2]. *)
Lemma map_last_write_counterexample :
  parseStrict 30 "{a: 1, a: 2}"
  = Ok (EL.MapExpression
          [("a"%string, EL.LiteralExpression (EL.Number "1") (mkLocation 1 5))]
          (mkLocation 1 1))
  /\ lastWritten "a"
       [("a"%string, EL.LiteralExpression (EL.Number "1") (mkLocation 1 5));
        ("a"%string, EL.LiteralExpression (EL.Number "2") (mkLocation 1 11))]
     = Some (EL.LiteralExpression (EL.Number "2") (mkLocation 1 11))
  /\ EL.find "a"
       [("a"%string, EL.LiteralExpression (EL.Number "1") (mkLocation 1 5))]
     <> Some (EL.LiteralExpression (EL.Number "2") (mkLocation 1 11)).
Proof.
  split; [vm_compute; reflexivity |].
  split; [reflexivity | discriminate].
Qed.

(* ================================================================== *)
(** ** Tokens *)

Lemma sub_same_4 n : S (S (S (S n))) - n = 4.
Proof. lia. Qed.

Lemma sub_same_5 n : S (S (S (S (S n)))) - n = 5.
Proof. lia. Qed.

(** C9. Where the input continues with the characters of [true], [false]
    or [null], the next token is the Boolean or Null token of exactly these
    characters, whatever follows them, and scanning goes on right after
    them: what follows, even when it reads like the rest of a name, is
    tokenized on its own. *)
Theorem keywords_by_exact_match :
  (forall rest consumed line column escaped,
      emitToken (mkState ("true" ++ rest) consumed line column escaped)
      = Ok (Token.mk ELToken.Boolean "true" consumed line column,
            mkState rest (4 + consumed) line (4 + column) false))
  /\ (forall rest consumed line column escaped,
         emitToken (mkState ("false" ++ rest) consumed line column escaped)
         = Ok (Token.mk ELToken.Boolean "false" consumed line column,
               mkState rest (5 + consumed) line (5 + column) false))
  /\ (forall rest consumed line column escaped,
         emitToken (mkState ("null" ++ rest) consumed line column escaped)
         = Ok (Token.mk ELToken.Null "null" consumed line column,
               mkState rest (4 + consumed) line (4 + column) false))
  /\ lexemes (tokenize "truest nullable falsehood")
     = Ok [(ELToken.Boolean, "true"%string); (ELToken.Name, "st"%string);
           (ELToken.Null, "null"%string); (ELToken.Name, "able"%string);
           (ELToken.Boolean, "false"%string); (ELToken.Name, "hood"%string);
           (ELToken.Eof, EmptyString)].
Proof.
  split; [| split; [| split]]; intros.
  - cbv -[Nat.sub]. rewrite sub_same_4. reflexivity.
  - cbv -[Nat.sub]. rewrite sub_same_5. reflexivity.
  - cbv -[Nat.sub]. rewrite sub_same_4. reflexivity.
  - vm_compute. reflexivity.
Qed.

(** C3 does not hold of the code.  The case for [=] compares the current
    character, which is the [=] itself, where the case for [.] next to it
    looks one character ahead: a lone [=] and the character after it are
    read as one Equal token, and no error is raised.  On [1 = 2] the tokens
    are a number, Equal and a number, and Strict mode returns the
    comparison; a [=] that ends the input is the error of an input that
    ends inside a token. *)
Theorem lone_equals_sign_is_read_as_equal :
  (forall c rest consumed line column escaped,
      let st := mkState (String "=" (String c rest)) consumed line column escaped in
      exists st',
        advanceN 2 st = Ok (tt, st')
        /\ emitToken st
           = Ok (Token.mk ELToken.Equal (String "=" (String c EmptyString))
                          consumed line column, st'))
  /\ lexemes (tokenize "1 = 2")
     = Ok [(ELToken.Number, "1"%string); (ELToken.Equal, "= "%string);
           (ELToken.Number, "2"%string); (ELToken.Eof, EmptyString)]
  /\ parseStrict 12 "1 = 2"
     = Ok (EL.BinaryExpression EL.Equal
             (EL.LiteralExpression (EL.Number "1") (mkLocation 1 1))
             (EL.LiteralExpression (EL.Number "2") (mkLocation 1 5))
             (mkLocation 1 3))
  /\ tokenize "1 =" = Throw UnexpectedEndOfFile.
Proof.
  split; [| split; [| split]]; try (vm_compute; reflexivity).
  intros c rest consumed line column escaped st.
  eexists. split; [reflexivity |].
  cbv -[Nat.sub Nat.add].
  replace (consumed + 2 - consumed) with 2 by lia. reflexivity.
Qed.

(* ================================================================== *)
(** ** Numbers *)

Lemma length_app (a b : string) :
  String.length (a ++ b) = String.length a + String.length b.
Proof. induction a as [| c a IH]; simpl; [reflexivity | now rewrite IH]. Qed.

Lemma digit_cases c :
  isDigit c = true ->
  c = "0" \/ c = "1" \/ c = "2" \/ c = "3" \/ c = "4"
  \/ c = "5" \/ c = "6" \/ c = "7" \/ c = "8" \/ c = "9".
Proof.
  destruct c as [[] [] [] [] [] [] [] []]; intro H;
    try (vm_compute in H; discriminate H); tauto.
Qed.

Ltac digit_case H :=
  destruct (digit_cases _ H) as [E|[E|[E|[E|[E|[E|[E|[E|[E|E]]]]]]]]]; subst.

(** A digit moves the cursor one column on and clears the escape flag. *)
Lemma advance_digit c rest consumed line column escaped :
  isDigit c = true ->
  advance (mkState (String c rest) consumed line column escaped)
  = Ok (tt, mkState rest (S consumed) line (S column) false).
Proof. intro H. digit_case H; reflexivity. Qed.


Lemma advanceWhile_S p n st :
  advanceWhile p (S n) st
  = if negb (eof st) && p st then (advance ;;; advanceWhile p n) st
    else Ok (tt, st).
Proof. reflexivity. Qed.

Lemma advanceWhile_digits ds :
  forall rest turns consumed line column escaped,
    allDigits ds = true ->
    startsWithDigit rest = false ->
    String.length ds <= turns ->
    advanceWhile (fun s => isDigit (curChar s)) turns
                 (mkState (ds ++ rest) consumed line column escaped)
    = Ok (tt, mkState rest (consumed + String.length ds) line
                      (column + String.length ds)
                      (match ds with EmptyString => escaped | _ => false end)).
Proof.
  induction ds as [| d ds IH]; intros rest turns consumed line column escaped Hds Hrest Hturns.
  - simpl. rewrite !Nat.add_0_r.
    destruct turns as [| n]; [reflexivity |].
    simpl. unfold eof, curChar. simpl.
    destruct rest as [| c rest]; [reflexivity |].
    simpl in Hrest. now rewrite Hrest.
  - simpl in Hds. apply andb_prop in Hds as [Hd Hds].
    destruct turns as [| n]; [simpl in Hturns; lia |].
    simpl in Hturns.
    rewrite advanceWhile_S. cbn [append]. unfold eof at 1, curChar at 1. cbn [cur].
    rewrite Hd. simpl negb. simpl andb. cbv iota.
    rewrite (bind_Ok _ _ _ _ _ (advance_digit d _ consumed line column escaped Hd)).
    rewrite IH by (auto; lia).
    simpl String.length. rewrite <- !Nat.add_succ_comm.
    now destruct ds.
Qed.

Lemma readDigits_digits ds rest consumed line column escaped :
  allDigits ds = true ->
  startsWithDigit rest = false ->
  readDigits (mkState (ds ++ rest) consumed line column escaped)
  = Ok (tt, mkState rest (consumed + String.length ds) line
                    (column + String.length ds)
                    (match ds with EmptyString => escaped | _ => false end)).
Proof.
  intros Hds Hrest. unfold readDigits.
  apply advanceWhile_digits; auto.
  simpl. rewrite length_app. lia.
Qed.

Lemma bind_get {B} (k : TokenizerState -> M B) st : bind get k st = k st st.
Proof. reflexivity. Qed.

Lemma digit_not_sign c :
  isDigit c = true ->
  (c =? "+") = false /\ (c =? "-") = false /\ (c =? ".") = false.
Proof. intro H. digit_case H; repeat split; reflexivity. Qed.

Lemma emitTokenLoop_S n st :
  emitTokenLoop (S n) st
  = if eof st
    then Ok (Token.mk ELToken.Eof EmptyString (consumed st) (line st) (column st), st)
    else (r <- emitTokenTurn ;;
          match r with
          | Some tok => ret tok
          | None => emitTokenLoop n
          end) st.
Proof. reflexivity. Qed.


Lemma emitTokenTurn_digit d s consumed line column escaped :
  isDigit d = true ->
  emitTokenTurn (mkState (String d s) consumed line column escaped)
  = emitNumberOrWord (consumed, String d s) line column
                     (mkState (String d s) consumed line column escaped).
Proof. intro H. digit_case H; reflexivity. Qed.

Lemma takeChars_app a b : takeChars (String.length a) (a ++ b) = a.
Proof. induction a as [| c a IH]; simpl; [reflexivity | now rewrite IH]. Qed.

Lemma between_prefix consumed a b :
  between (consumed, (a ++ b)%string) (consumed + String.length a, b) = a.
Proof.
  unfold between. cbn [fst snd].
  replace (consumed + String.length a - consumed) with (String.length a) by lia.
  apply takeChars_app.
Qed.


(** A decimal scan that succeeds has stopped at the end of the input or at
    one of its delimiters. *)
Lemma readDecimal_stops_at_delimiter delims st e s :
  readDecimal delims st = Ok (Some e, s) ->
  eof s = true \/ isAnyOf (curChar s) delims = true.
Proof.
  unfold readDecimal.
  destruct (negb (curChar st =? "+") && negb (curChar st =? "-")
            && negb (curChar st =? ".") && negb (isDigit (curChar st)));
    [discriminate |].
  intro H.
  apply bind_inv in H as (u1 & s1 & _ & H).
  rewrite bind_get in H.
  apply bind_inv in H as (u2 & s2 & _ & H).
  rewrite bind_get in H.
  apply bind_inv in H as (u3 & s3 & _ & H).
  rewrite bind_get in H.
  destruct (eof s3 || isAnyOf (curChar s3) delims) eqn:E.
  - unfold ret in H. injection H as _ <-. now apply orb_prop in E.
  - discriminate H.
Qed.

(* ================================================================== *)
(** ** String literals *)

Lemma str_unescape_from_unescaped n :
  forall text, String.length text <= n ->
    str_unescape_from false text unescapedChars = unescaped text.
Proof.
  induction n as [| n IH]; intros text Hlen.
  - destruct text; [reflexivity | simpl in Hlen; lia].
  - destruct text as [| c rest]; [reflexivity |].
    simpl in Hlen. cbn [str_unescape_from unescaped].
    destruct (c =? "092") eqn:Ec.
    + apply Ascii.eqb_eq in Ec. subst c.
      destruct rest as [| d rest]; [reflexivity |].
      simpl in Hlen. cbn [str_unescape_from].
      destruct (d =? "092") eqn:Ed.
      * rewrite orb_true_r. now rewrite IH by lia.
      * rewrite orb_false_r. unfold unescapedChars. cbn [isAnyOf andb].
        rewrite Ed. cbn [orb].
        destruct (d =? "034"); cbn [orb negb]; now rewrite IH by lia.
    + now rewrite IH by lia.
Qed.

Lemma str_unescape_unescaped text :
  str_unescape text unescapedChars = unescaped text.
Proof. exact (str_unescape_from_unescaped (String.length text) text (Nat.le_refl _)). Qed.

(** One character forward, whatever the character. *)
Lemma advance_char st c rest :
  cur st = String c rest ->
  exists st',
    advance st = Ok (tt, st')
    /\ cur st' = rest
    /\ consumed st' = S (consumed st)
    /\ escaped st'
       = if c =? "013"
         then if lookAhead st =? "010" then escaped st else false
         else if c =? "010" then false
              else if c =? escapeChar then negb (escaped st) else false.
Proof.
  intro Hcur. unfold advance. rewrite Hcur.
  eexists. split; [reflexivity |].
  destruct (c =? "013"), (lookAhead st =? "010"), (c =? "010"); cbn; auto.
Qed.

Lemma curChar_cur st c rest : cur st = String c rest -> curChar st = c.
Proof. unfold curChar. now intros ->. Qed.

Lemma eof_cur st c rest : cur st = String c rest -> eof st = false.
Proof. unfold eof. now intros ->. Qed.

Lemma lookAhead_next st c rest st' :
  cur st = String c rest -> cur st' = rest -> lookAhead st = curChar st'.
Proof. unfold lookAhead, curChar. intros -> ->. reflexivity. Qed.

Lemma delimiter_cases delim :
  delim = "'" \/ delim = "034" ->
  (delim =? "092") = false /\ (delim =? "010") = false.
Proof. intros [-> | ->]; split; reflexivity. Qed.

(** The scan of [readQuotedString] runs over the text of a literal and
    stops at the closing delimiter. *)
Lemma scan_literal_body n :
  forall body, String.length body <= n ->
  forall delim rest st turns,
    delim = "'" \/ delim = "034" ->
    literalBody delim body = true ->
    cur st = (body ++ String delim rest)%string ->
    escaped st = false \/ curChar st = "010" ->
    String.length body <= turns ->
    exists st',
      advanceWhile (fun s => negb (curChar s =? delim) || isEscaped s) turns st
      = Ok (tt, st')
      /\ cur st' = String delim rest
      /\ consumed st' = consumed st + String.length body
      /\ isEscaped st' = false.
Proof.
  induction n as [| n IH]; intros body Hlen delim rest st turns Hdelim Hbody Hcur Hinv Hturns.
  - destruct body; [| simpl in Hlen; lia]. cbn [append] in Hcur.
    destruct (delimiter_cases delim Hdelim) as [_ Hlf].
    assert (Hesc : isEscaped st = false).
    { unfold isEscaped. destruct Hinv as [-> | Hinv]; [now rewrite andb_false_r |].
      rewrite (curChar_cur _ _ _ Hcur) in Hinv. subst delim. discriminate Hlf. }
    exists st. cbn [String.length]. rewrite Nat.add_0_r.
    repeat split; auto.
    destruct turns as [| t]; [reflexivity |].
    rewrite advanceWhile_S, (curChar_cur _ _ _ Hcur), Ascii.eqb_refl, Hesc.
    now rewrite andb_false_r.
  - destruct body as [| c body]; [apply (IH EmptyString); auto; simpl; lia |].
    cbn [append] in Hcur. cbn [literalBody] in Hbody. cbn [String.length] in *.
    destruct (delimiter_cases delim Hdelim) as [Hbs Hlf].
    destruct turns as [| t]; [lia |].
    destruct (advance_char st c _ Hcur) as (st1 & Hadv & Hcur1 & Hcons1 & Hesc1).
    destruct (c =? "092") eqn:Ec.
    + apply Ascii.eqb_eq in Ec. subst c.
      assert (Hesc0 : escaped st = false).
      { destruct Hinv as [H | H]; [exact H |].
        rewrite (curChar_cur _ _ _ Hcur) in H. discriminate H. }
      change ("092" =? "013") with false in Hesc1.
      change ("092" =? "010") with false in Hesc1.
      change ("092" =? escapeChar) with true in Hesc1.
      rewrite Hesc0 in Hesc1. cbn in Hesc1.
      rewrite advanceWhile_S, (eof_cur _ _ _ Hcur), (curChar_cur _ _ _ Hcur).
      rewrite Ascii.eqb_sym, Hbs. cbn [negb andb orb].
      rewrite (bind_Ok _ _ _ _ _ Hadv).
      destruct body as [| d body].
      * (* the backslash is the last character of the text *)
        cbn [append] in Hcur1.
        assert (Hclose : isEscaped st1 = false).
        { unfold isEscaped. rewrite (curChar_cur _ _ _ Hcur1).
          unfold escapable. cbn [isAnyOf].
          destruct (delim =? "034"); [discriminate Hbody |].
          now rewrite andb_false_r. }
        exists st1. repeat split; auto; [| simpl; lia].
        destruct t as [| t]; [reflexivity |].
        rewrite advanceWhile_S, (curChar_cur _ _ _ Hcur1), Ascii.eqb_refl, Hclose.
        now rewrite andb_false_r.
      * (* the backslash and the character after it *)
        cbn [append] in Hcur1. cbn [String.length] in *.
        apply andb_prop in Hbody as [Hd Hbody].
        destruct t as [| t]; [lia |].
        destruct (advance_char st1 d _ Hcur1) as (st2 & Hadv2 & Hcur2 & Hcons2 & Hesc2).
        assert (Hcond : negb (d =? delim) || isEscaped st1 = true).
        { destruct (d =? delim) eqn:Edd; [| reflexivity].
          cbn [negb orb] in *. apply Ascii.eqb_eq in Hd. subst d.
          unfold isEscaped. rewrite (eof_cur _ _ _ Hcur1), Hesc1.
          now rewrite (curChar_cur _ _ _ Hcur1). }
        rewrite advanceWhile_S, (eof_cur _ _ _ Hcur1), (curChar_cur _ _ _ Hcur1), Hcond.
        cbn [negb andb]. rewrite (bind_Ok _ _ _ _ _ Hadv2).
        assert (Hinv2 : escaped st2 = false \/ curChar st2 = "010").
        { rewrite Hesc2, Hesc1.
          rewrite (lookAhead_next _ _ _ _ Hcur1 Hcur2).
          destruct (d =? "013"); [| destruct (d =? "010"), (d =? escapeChar); auto].
          destruct (curChar st2 =? "010") eqn:E; [| auto].
          right. now apply Ascii.eqb_eq. }
        destruct (IH body ltac:(lia) delim rest st2 t Hdelim Hbody Hcur2 Hinv2 ltac:(lia))
          as (st' & Hscan & Hcur' & Hcons' & Hesc').
        exists st'. repeat split; auto. lia.
    + (* a character that is neither the backslash nor the delimiter *)
      apply andb_prop in Hbody as [Hc Hbody].
      rewrite advanceWhile_S, (eof_cur _ _ _ Hcur), (curChar_cur _ _ _ Hcur), Hc.
      cbn [negb andb orb]. rewrite (bind_Ok _ _ _ _ _ Hadv).
      assert (Hinv1 : escaped st1 = false \/ curChar st1 = "010").
      { left. rewrite Hesc1. unfold escapeChar. rewrite Ec.
        destruct (c =? "013") eqn:Ecr; [| now destruct (c =? "010")].
        destruct (lookAhead st =? "010"); [| reflexivity].
        destruct Hinv as [H | H]; [exact H |].
        rewrite (curChar_cur _ _ _ Hcur) in H. subst c. discriminate Ecr. }
      destruct (IH body ltac:(lia) delim rest st1 t Hdelim Hbody Hcur1 Hinv1 ltac:(lia))
        as (st' & Hscan & Hcur' & Hcons' & Hesc').
      exists st'. repeat split; auto. lia.
Qed.

Lemma emitTokenTurn_quote delim s consumed line column escaped :
  delim = "'" \/ delim = "034" ->
  emitTokenTurn (mkState (String delim s) consumed line column escaped)
  = (e <- readQuotedString delim ;;
     ret (Some (Token.make ELToken.String (S consumed, s) e (S consumed) line column)))
      (mkState s (S consumed) line (S column) false).
Proof. intros [-> | ->]; reflexivity. Qed.

(** C10. For a string literal, the token of the tokenizer carries the text
    between the delimiters as it is written, backslashes and all; the
    literal node that [parseLiteral] builds from the token carries the
    value, in which the backslash before a double quote (and before a
    backslash) is dropped. *)
Theorem string_token_raw_value_unescaped
        delim body rest start line column escaped :
  delim = "'" \/ delim = "034" ->
  literalBody delim body = true ->
  let st := mkState (String delim (body ++ String delim rest))
                    start line column escaped in
  exists st',
    emitToken st = Ok (Token.mk ELToken.String body (S start) line column, st')
    /\ cur st' = rest
    /\ consumed st' = start + String.length body + 2
    /\ Yields parseLiteral st
              (Ok (EL.LiteralExpression (EL.String (unescaped body))
                                        (mkLocation line column), st')).
Proof.
  intros Hdelim Hbody st.
  pose (s0 := mkState (body ++ String delim rest) (S start) line (S column) false).
  destruct (scan_literal_body (String.length body) body (Nat.le_refl _) delim rest s0
              (String.length (cur s0)) Hdelim Hbody eq_refl (or_introl eq_refl))
    as (s1 & Hscan & Hcur1 & Hcons1 & Hesc1).
  { cbn [s0 cur]. rewrite length_app. lia. }
  destruct (advance_char s1 delim rest Hcur1) as (s2 & Hadv & Hcur2 & Hcons2 & _).
  assert (Hread : readQuotedString delim s0 = Ok (curPos s1, s2)).
  { unfold readQuotedString. rewrite (bind_Ok _ _ _ _ _ Hscan).
    rewrite bind_get, (eof_cur _ _ _ Hcur1). now rewrite (bind_Ok _ _ _ _ _ Hadv). }
  assert (Htoken : emitToken st
                   = Ok (Token.mk ELToken.String body (S start) line column, s2)).
  { unfold emitToken, st. cbn [cur String.length]. rewrite emitTokenLoop_S.
    unfold eof at 1. cbn [cur]. cbv iota.
    rewrite (bind_Ok _ _ _
               (Some (Token.mk ELToken.String body (S start) line column)) s2);
      [reflexivity |].
    rewrite (emitTokenTurn_quote delim _ start line column escaped Hdelim).
    fold s0. rewrite (bind_Ok _ _ _ _ _ Hread).
    unfold ret, Token.make, curPos. rewrite Hcur1, Hcons1. cbn [s0 consumed].
    now rewrite between_prefix. }
  exists s2. repeat split; auto.
  - rewrite Hcons2, Hcons1. cbn [s0 consumed]. lia.
  - exists 1. intros [| m] Hm; [lia |].
    rewrite parseLiteral_S. unfold parseLiteralBody.
    assert (Hpeek : peekToken st
                    = Ok (Token.mk ELToken.String body (S start) line column, st))
      by (unfold peekToken; now rewrite Htoken).
    step_with Hpeek. expect_ok.
    change (Token.hasType
              (Token.mk ELToken.String body (S start) line column)
              [ELToken.String]) with true.
    cbv iota.
    rewrite (bind_Ok _ _ _ _ _ (Htoken : nextToken st = _)).
    unfold ret, Token.data, Token.location, Token.line, Token.column.
    now rewrite <- str_unescape_unescaped.
Qed.

Lemma string_token_raw_value_unescaped_witness :
  exists st',
    emitToken (ELTokenizer (quoted escaped_quote_text))
    = Ok (Token.mk ELToken.String escaped_quote_text 1 1 1, st')
    /\ cur st' = EmptyString
    /\ consumed st' = 0 + String.length escaped_quote_text + 2
    /\ Yields parseLiteral (ELTokenizer (quoted escaped_quote_text))
              (Ok (EL.LiteralExpression (EL.String escaped_quote_value)
                                        (mkLocation 1 1), st')).
Proof.
  exact (string_token_raw_value_unescaped
           "034" escaped_quote_text EmptyString 0 1 1 false
           (or_intror eq_refl) eq_refl).
Defined.

(** Only the literal is unescaped: the key of a map entry is the text of
    its token as it is written. *)
Example map_key_stays_raw :
  parseStrict 30 ("{" ++ quoted escaped_quote_text ++ ": "
                      ++ quoted escaped_quote_text ++ "}")
  = Ok (EL.MapExpression
          [(escaped_quote_text,
            EL.LiteralExpression (EL.String escaped_quote_value) (mkLocation 1 10))]
          (mkLocation 1 1)).
Proof. vm_compute. reflexivity. Qed.

(* ================================================================== *)
(** ** Chains of numbers, as texts *)

(** One space before a token is skipped. *)
Lemma emitToken_skips_space s consumed line column escaped :
  startsWithWhitespace s = false ->
  emitToken (mkState (String " " s) consumed line column escaped)
  = emitToken (mkState s (S consumed) line (S column) false).
Proof.
  intro Hs. unfold emitToken at 1. cbn [cur String.length].
  rewrite emitTokenLoop_S. unfold eof at 1. cbn [cur]. cbv iota.
  rewrite (bind_Ok _ _ _ None (mkState s (S consumed) line (S column) false));
    [reflexivity |].
  unfold emitTokenTurn. cbn [curChar cur].
  rewrite (bind_Ok _ _ _ tt (mkState s (S consumed) line (S column) false));
    [reflexivity |].
  unfold discardWhile. cbn [cur String.length].
  rewrite advanceWhile_S. unfold eof at 1. cbn [curChar cur negb andb isAnyOf Whitespace].
  change (" " =? " ") with true. cbn [orb].
  rewrite (bind_Ok _ _ _ tt (mkState s (S consumed) line (S column) false));
    [| reflexivity].
  destruct s as [| c s]; [now destruct (String.length EmptyString) |].
  cbn [String.length]. rewrite advanceWhile_S.
  unfold eof, curChar. cbn [cur]. simpl in Hs. now rewrite Hs.
Qed.

Lemma add_2_r n : n + 2 = S (S n).
Proof. lia. Qed.

(** The token of a binary operator that a space follows. *)
Lemma emitToken_operator ty text op r consumed line column escaped :
  In (ty, text, op) compoundOperators ->
  emitToken (mkState (text ++ String " " r) consumed line column escaped)
  = Ok (Token.mk ty text consumed line column,
        mkState (String " " r) (consumed + String.length text) line
                (column + String.length text) false).
Proof.
  intro Hin. unfold compoundOperators in Hin. cbn [In] in Hin.
  repeat (destruct Hin as [Hin | Hin];
          [ injection Hin as <- <- <-;
            cbv -[Nat.add Nat.sub takeChars];
            repeat match goal with
                   | |- context [?a + ?k - ?a] => replace (a + k - a) with k by lia
                   end;
            rewrite ?Nat.add_1_r, ?add_2_r; reflexivity
          | ]).
  contradiction.
Qed.

Lemma operator_facts ty text op :
  In (ty, text, op) compoundOperators ->
  ELToken.member ty ELToken.CompoundTerm = true
  /\ binaryTokenMap ty = Some op
  /\ (forall s, startsWithWhitespace (text ++ s) = false)
  /\ ty <> ELToken.OBracket.
Proof.
  intro Hin. unfold compoundOperators in Hin. cbn [In] in Hin.
  repeat (destruct Hin as [Hin | Hin];
          [ injection Hin as <- <- <-; repeat split; try reflexivity; discriminate | ]).
  contradiction.
Qed.

(** The decimal scan takes digits that end at the end of the input or
    before a space. *)
Lemma readDecimal_digits d ds rest consumed line column escaped :
  isDigit d = true ->
  allDigits ds = true ->
  endsNumber rest = true ->
  readDecimal NumberDelim
              (mkState (String d (ds ++ rest)) consumed line column escaped)
  = Ok (Some (consumed + String.length (String d ds), rest),
        mkState rest (consumed + String.length (String d ds)) line
                (column + String.length (String d ds)) false).
Proof.
  intros Hd Hds Hrest. destruct (digit_not_sign d Hd) as (Hplus & Hminus & Hpoint).
  assert (Hnodigit : startsWithDigit rest = false).
  { destruct rest as [| c rest]; [reflexivity |].
    simpl in *. apply Ascii.eqb_eq in Hrest. now subst c. }
  unfold readDecimal. cbn [curChar cur].
  rewrite Hplus, Hminus, Hpoint, Hd. cbn [negb andb].
  rewrite (bind_Ok _ _ _ tt
             (mkState rest (consumed + String.length (String d ds)) line
                      (column + String.length (String d ds)) false)).
  2:{ rewrite (bind_Ok _ _ _ _ _ (advance_digit d _ consumed line column escaped Hd)).
      rewrite readDigits_digits by auto.
      cbn [String.length]. rewrite <- !Nat.add_succ_comm. now destruct ds. }
  rewrite bind_get.
  assert (Hcur : (curChar (mkState rest (consumed + String.length (String d ds)) line
                                   (column + String.length (String d ds)) false)
                  =? ".") = false
                 /\ (curChar (mkState rest (consumed + String.length (String d ds)) line
                                      (column + String.length (String d ds)) false)
                     =? "e") = false
                 /\ eof (mkState rest (consumed + String.length (String d ds)) line
                                 (column + String.length (String d ds)) false)
                    || isAnyOf
                         (curChar (mkState rest (consumed + String.length (String d ds))
                                           line (column + String.length (String d ds))
                                           false)) NumberDelim = true).
  { destruct rest as [| c rest]; [repeat split |].
    simpl in Hrest. apply Ascii.eqb_eq in Hrest. subst c. repeat split. }
  destruct Hcur as (Hp & He & Hdelim).
  rewrite Hp. rewrite (bind_Ok _ _ _ tt _ (eq_refl : ret tt _ = _)).
  rewrite bind_get, He. rewrite (bind_Ok _ _ _ tt _ (eq_refl : ret tt _ = _)).
  rewrite bind_get, Hdelim. reflexivity.
Qed.

(** The token of a number that ends at the end of the input or before a
    space. *)
Lemma emitToken_number d ds rest consumed line column escaped :
  isDigit d = true ->
  allDigits ds = true ->
  endsNumber rest = true ->
  emitToken (mkState (String d (ds ++ rest)) consumed line column escaped)
  = Ok (Token.mk ELToken.Number (String d ds) consumed line column,
        mkState rest (consumed + String.length (String d ds)) line
                (column + String.length (String d ds)) false).
Proof.
  intros Hd Hds Hrest.
  unfold emitToken. cbn [cur String.length]. rewrite emitTokenLoop_S.
  unfold eof at 1. cbn [cur]. cbv iota.
  rewrite (bind_Ok _ _ _
             (Some (Token.mk ELToken.Number (String d ds) consumed line column))
             (mkState rest (consumed + String.length (String d ds)) line
                      (column + String.length (String d ds)) false));
    [reflexivity |].
  rewrite (emitTokenTurn_digit d _ consumed line column escaped Hd).
  unfold emitNumberOrWord.
  rewrite (bind_Ok _ _ _ _ _
             (readDecimal_digits d ds rest consumed line column escaped Hd Hds Hrest)).
  cbv beta iota. rewrite bind_get.
  assert (Hp : (curChar (mkState rest (consumed + String.length (String d ds)) line
                                 (column + String.length (String d ds)) false)
                =? ".") = false).
  { destruct rest as [| c rest]; [reflexivity |].
    simpl in Hrest. apply Ascii.eqb_eq in Hrest. now subst c. }
  rewrite Hp, andb_false_r. cbn [andb].
  unfold ret, Token.make, offset. cbn [fst].
  change (String d (ds ++ rest)) with (String d ds ++ rest)%string.
  now rewrite between_prefix.
Qed.

(** A number token is a simple term on its own when no subscript follows. *)
Lemma number_simple_term st tok st1 tok' :
  nextToken st = Ok (tok, st1) ->
  Token.type tok = ELToken.Number ->
  peekToken st1 = Ok (tok', st1) ->
  Token.type tok' <> ELToken.OBracket ->
  Yields parseSimpleTermOrSwitch st
         (Ok (EL.LiteralExpression (EL.Number (Token.data tok)) (Token.location tok),
              st1)).
Proof.
  intros Hnext Hty Hpeek' Hnot.
  pose proof (peek_of_next _ _ _ Hnext) as Hpeek.
  assert (Hkinds : Token.hasType tok (ELToken.SimpleTerm ++ [ELToken.DoubleOBrace])%list = true
                   /\ Token.hasType tok ELToken.SimpleTerm = true
                   /\ Token.hasType tok ELToken.UnaryOperator = false
                   /\ Token.hasType tok [ELToken.OParen] = false
                   /\ Token.hasType tok [ELToken.Name] = false
                   /\ Token.hasType tok
                        (ELToken.Literal ++ [ELToken.OBracket; ELToken.OBrace])%list = true
                   /\ Token.hasType tok [ELToken.String] = false
                   /\ Token.hasType tok [ELToken.Number] = true)
    by (unfold Token.hasType; rewrite Hty; repeat split).
  destruct Hkinds as (K1 & K2 & K3 & K4 & K5 & K6 & K7 & K8).
  assert (Hliteral : forall m, parseLiteral (S m) st
                               = Ok (EL.LiteralExpression (EL.Number (Token.data tok))
                                                          (Token.location tok), st1)).
  { intro m. rewrite parseLiteral_S. unfold parseLiteralBody.
    step_with Hpeek. step_with (expect_Ok _ _ st K6). rewrite K7, K8.
    now step_with Hnext. }
  assert (Hsimple : forall m, parseSimpleTerm (S (S m)) st
                              = Ok (EL.LiteralExpression (EL.Number (Token.data tok))
                                                         (Token.location tok), st1)).
  { intro m. rewrite parseSimpleTerm_S. unfold parseSimpleTermBody.
    step_with Hpeek. step_with (expect_Ok _ _ st K2). rewrite K3, K4, K5.
    apply Hliteral. }
  exists 4. intros [| [| [| [| m]]]] Hm; try lia.
  rewrite parseSimpleTermOrSwitch_S. unfold parseSimpleTermOrSwitchBody.
  step_with Hpeek. step_with (expect_Ok _ _ st K1). rewrite K2.
  rewrite parseSimpleTermOrSubscript_S. unfold parseSimpleTermOrSubscriptBody.
  step_with (Hsimple m).
  rewrite subscriptLoop_S. unfold subscriptLoopBody.
  step_with Hpeek'. now rewrite (proj2 (hasType_single_false _ _) Hnot).
Qed.

(** What comes after a number of the chain: the end of the input, or the
    next operator; no subscript. *)
Lemma peek_after_number tail consumed column :
  Forall (fun step => In (fst step) compoundOperators /\ isNumeral (snd step) = true)
         tail ->
  exists tok,
    peekToken (mkState (tailText tail) consumed 1 column false)
    = Ok (tok, mkState (tailText tail) consumed 1 column false)
    /\ Token.type tok <> ELToken.OBracket
    /\ (tail = [] -> Token.type tok = ELToken.Eof).
Proof.
  intros Htail. destruct tail as [| [[[ty text] op] number] rest].
  - eexists. split; [reflexivity |]. split; [discriminate | reflexivity].
  - apply Forall_inv in Htail. cbn [fst snd] in Htail. destruct Htail as [Hin _].
    destruct (operator_facts _ _ _ Hin) as (_ & _ & Hws & Hnot).
    exists (Token.mk ty text (S consumed) 1 (S column)).
    split; [| split; [exact Hnot | discriminate]].
    unfold peekToken. cbn [tailText].
    rewrite emitToken_skips_space.
    + now rewrite (emitToken_operator _ _ _ _ (S consumed) 1 (S column) false Hin).
    + apply Hws.
Qed.

Lemma digit_not_whitespace d : isDigit d = true -> isAnyOf d Whitespace = false.
Proof. intro H. digit_case H; reflexivity. Qed.

Lemma numeral_inv number :
  isNumeral number = true ->
  exists d ds, number = String d ds /\ isDigit d = true /\ allDigits ds = true.
Proof.
  destruct number as [| d ds]; [discriminate |].
  simpl. intro H. apply andb_prop in H as [Hd Hds]. eauto.
Qed.

Lemma tailText_endsNumber tail : endsNumber (tailText tail) = true.
Proof. destruct tail as [| [[[ty text] op] number] rest]; reflexivity. Qed.

(** The tail of a chain of numbers is a compound tail, and its nodes make
    the tree of the chain. *)
Lemma number_tail tail :
  Forall (fun step => In (fst step) compoundOperators /\ isNumeral (snd step) = true)
         tail ->
  forall consumed column,
  exists nodes st' tokEnd,
    CompoundTail (mkState (tailText tail) consumed 1 column false) nodes st'
    /\ peekToken st' = Ok (tokEnd, st')
    /\ Token.type tokEnd = ELToken.Eof
    /\ forall lhs, leftChain lhs nodes = chainTree lhs column tail.
Proof.
  induction 1 as [| [[[ty text] op] number] rest [Hin Hnum] Hrest IH];
    intros consumed column.
  - exists [], (mkState EmptyString consumed 1 column false),
           (Token.mk ELToken.Eof EmptyString consumed 1 column).
    repeat split. constructor.
  - cbn [fst snd] in Hin, Hnum.
    destruct (operator_facts _ _ _ Hin) as (Hcompound & Hop & Hws & _).
    destruct (numeral_inv _ Hnum) as (d & ds & -> & Hd & Hds).
    pose (c1 := S (S consumed + String.length text)).
    pose (col1 := S (S column + String.length text)).
    pose (c2 := c1 + String.length (String d ds)).
    pose (col2 := col1 + String.length (String d ds)).
    destruct (IH c2 col2) as (nodes & st' & tokEnd & Htail & Hpeek & Heof & Htree).
    destruct (peek_after_number rest c2 col2 Hrest) as (tok' & Hpeek' & Hnot & _).
    assert (Hoperator :
              nextToken (mkState (tailText (((ty, text, op), String d ds) :: rest))
                                 consumed 1 column false)
              = Ok (Token.mk ty text (S consumed) 1 (S column),
                    mkState (String " " (String d ds ++ tailText rest))
                            (S consumed + String.length text) 1
                            (S column + String.length text) false)).
    { unfold nextToken. cbn [tailText].
      rewrite emitToken_skips_space by apply Hws.
      apply (emitToken_operator _ _ _ _ (S consumed) 1 (S column) false Hin). }
    assert (Hnumber :
              nextToken (mkState (String " " (String d ds ++ tailText rest))
                                 (S consumed + String.length text) 1
                                 (S column + String.length text) false)
              = Ok (Token.mk ELToken.Number (String d ds) c1 1 col1,
                    mkState (tailText rest) c2 1 col2 false)).
    { unfold nextToken.
      rewrite emitToken_skips_space
        by (cbn [append startsWithWhitespace]; now apply digit_not_whitespace).
      cbn [append].
      apply (emitToken_number d ds _ c1 1 col1 false Hd Hds (tailText_endsNumber rest)). }
    exists ((Token.mk ty text (S consumed) 1 (S column), op,
             EL.LiteralExpression (EL.Number (String d ds)) (mkLocation 1 col1))
              :: nodes), st', tokEnd.
    split; [| split; [exact Hpeek | split; [exact Heof |]]].
    + eapply tail_step; [exact Hoperator | exact Hcompound | exact Hop | | exact Htail].
      exact (number_simple_term _ _ _ _ Hnumber eq_refl Hpeek' Hnot).
    + intro lhs. cbn [leftChain fold_left chainTree].
      unfold leftChain in Htree. rewrite Htree.
      unfold Token.location. cbn [Token.line Token.column].
      unfold col2, col1.
      replace (column + 1) with (S column) by lia.
      replace (column + 2 + String.length text)
        with (S (S column + String.length text)) by lia.
      reflexivity.
Qed.

(** Every text made of numbers joined by binary operators, with one space
    around each operator, is parsed into the chain nested to the left, in
    both modes, whatever the operators are. *)
Lemma number_chain_nests_left number tail :
  isNumeral number = true ->
  Forall (fun step => In (fst step) compoundOperators /\ isNumeral (snd step) = true)
         tail ->
  exists enough,
    forall fuel, enough <= fuel ->
      parseStrict fuel (number ++ tailText tail)
      = Ok (chainTree (EL.LiteralExpression (EL.Number number) (mkLocation 1 1))
                      (1 + String.length number) tail)
      /\ parseLenient fuel (number ++ tailText tail)
         = Ok (chainTree (EL.LiteralExpression (EL.Number number) (mkLocation 1 1))
                         (1 + String.length number) tail).
Proof.
  intros Hnum Htail.
  destruct (numeral_inv _ Hnum) as (d & ds & -> & Hd & Hds).
  pose (c1 := 0 + String.length (String d ds)).
  pose (col1 := 1 + String.length (String d ds)).
  destruct (number_tail tail Htail c1 col1)
    as (nodes & st' & tokEnd & Hchain & Hpeek & Heof & Htree).
  destruct (peek_after_number tail c1 col1 Htail) as (tok' & Hpeek' & Hnot & _).
  assert (Hfirst : nextToken (ELTokenizer (String d ds ++ tailText tail))
                   = Ok (Token.mk ELToken.Number (String d ds) 0 1 1,
                         mkState (tailText tail) c1 1 col1 false)).
  { unfold nextToken, ELTokenizer. cbn [append].
    apply (emitToken_number d ds _ 0 1 1 false Hd Hds (tailText_endsNumber tail)). }
  pose proof (number_simple_term _ _ _ _ Hfirst eq_refl Hpeek' Hnot) as Hterm.
  assert (Hend : Token.hasType tokEnd ELToken.CompoundTerm = false)
    by (unfold Token.hasType; now rewrite Heof).
  destruct (term_yields _ _ _ _ _ _ _ (peek_of_next _ _ _ Hfirst) Hterm Hchain Hpeek Hend)
    as [n Hn].
  exists (S n). intros [| m] Hm; [lia |].
  assert (Hexpr : parseExpression (S m) (ELTokenizer (String d ds ++ tailText tail))
                  = Ok (leftChain
                          (EL.LiteralExpression (EL.Number (String d ds)) (mkLocation 1 1))
                          nodes, st')).
  { rewrite parseExpression_S. unfold parseExpressionBody.
    step_with (peek_of_next _ _ _ Hfirst).
    change (Token.hasType (Token.mk ELToken.Number (String d ds) 0 1 1) [ELToken.OParen])
      with false.
    cbv iota. apply Hn. lia. }
  rewrite Htree in Hexpr.
  unfold parseStrict, parseLenient, run, parse.
  rewrite !(bind_Ok _ _ _ _ _ Hexpr). cbv beta iota.
  rewrite (bind_Ok _ _ _ _ _ Hpeek). cbv beta.
  rewrite (bind_Ok _ _ _ _ _ (expect_Ok _ _ st' (proj2 (hasType_single _ _) Heof))).
  split; reflexivity.
Qed.

(** For instance, with all the operators of one text equal or not. *)
Example number_chain_example :
  exists enough,
    forall fuel, enough <= fuel ->
      parseStrict fuel "12 - 3 << 4 && 5"
      = Ok (EL.BinaryExpression EL.LogicalAnd
              (EL.BinaryExpression EL.BitwiseShiftLeft
                 (EL.BinaryExpression EL.Subtraction
                    (EL.LiteralExpression (EL.Number "12") (mkLocation 1 1))
                    (EL.LiteralExpression (EL.Number "3") (mkLocation 1 6))
                    (mkLocation 1 4))
                 (EL.LiteralExpression (EL.Number "4") (mkLocation 1 11))
                 (mkLocation 1 8))
              (EL.LiteralExpression (EL.Number "5") (mkLocation 1 16))
              (mkLocation 1 13)).
Proof.
  destruct (number_chain_nests_left
              "12"
              [((ELToken.Subtraction, "-"%string, EL.Subtraction), "3"%string);
               ((ELToken.BitwiseShiftLeft, "<<"%string, EL.BitwiseShiftLeft), "4"%string);
               ((ELToken.LogicalAnd, "&&"%string, EL.LogicalAnd), "5"%string)]
              eq_refl)
    as [enough H].
  - repeat constructor; cbn; tauto.
  - exists enough. intros fuel Hfuel. exact (proj1 (H fuel Hfuel)).
Qed.

(** The steps of a chain of operators are steps of the compound tail that
    [parseCompoundTerm] reads: the kind of each token is in the mask of
    binary operators, and the table of the parser has the operation of the
    step for it. *)
Lemma chain_is_tail st tail st' :
  OperatorChain st tail st' -> CompoundTail st tail st'.
Proof.
  induction 1 as [st | st token st1 op rhs st2 rest st3 Hnext Hin Hrhs _ IH].
  - apply tail_end.
  - destruct (operator_facts _ _ _ Hin) as (Hmember & Hop & _ & _).
    exact (tail_step _ _ _ _ _ _ _ _ Hnext Hmember Hop Hrhs IH).
Qed.

(** C1. A simple term followed by a chain of binary operators and simple
    terms, where the first token is not an opening parenthesis, is parsed
    into the chain nested to the left, whatever the operators are: each
    operator takes all that was read before it as its left operand, and
    the node of each step has the operation that the operator stands for.
    Lenient mode returns this chain; Strict mode returns it when the input
    ends after the chain.  For two operators the tree of [a op1 b op2 c] is
    the node of [op2] over the node of [op1] over [a] and [b], and [c]. *)
Theorem binary_operators_nest_left st tok0 a st1 tail st2 tokEnd :
  peekToken st = Ok (tok0, st) ->
  Token.hasType tok0 [ELToken.OParen] = false ->
  Yields parseSimpleTermOrSwitch st (Ok (a, st1)) ->
  OperatorChain st1 tail st2 ->
  peekToken st2 = Ok (tokEnd, st2) ->
  Token.hasType tokEnd ELToken.CompoundTerm = false ->
  Yields (parse Lenient) st (Ok (leftChain a tail, st2))
  /\ (Token.type tokEnd = ELToken.Eof ->
      Yields (parse Strict) st (Ok (leftChain a tail, st2)))
  /\ (forall t1 op1 b t2 op2 c,
         tail = [(t1, op1, b); (t2, op2, c)] ->
         Yields (parse Lenient) st
                (Ok (EL.BinaryExpression op2
                       (EL.BinaryExpression op1 a b (Token.location t1))
                       c (Token.location t2), st2))).
Proof.
  intros Hpeek Hparen Ha Hchain Hpeek2 Hend.
  apply chain_is_tail in Hchain.
  destruct (term_yields _ _ _ _ _ _ _ Hpeek Ha Hchain Hpeek2 Hend) as [n Hn].
  assert (Hexpr : forall m, S n <= m ->
                            parseExpression m st = Ok (leftChain a tail, st2)).
  { intros [| m] Hm; [lia |].
    rewrite parseExpression_S. unfold parseExpressionBody.
    step_with Hpeek. rewrite Hparen. apply Hn. lia. }
  assert (Hlenient : Yields (parse Lenient) st (Ok (leftChain a tail, st2))).
  { exists (S n). intros m Hm. unfold parse. now step_with (Hexpr m Hm). }
  split; [exact Hlenient | split].
  - intro Heof. exists (S n). intros m Hm. unfold parse.
    step_with (Hexpr m Hm). step_with Hpeek2. now expect_ok.
  - intros t1 op1 b t2 op2 c E. rewrite E in Hlenient. exact Hlenient.
Qed.

Ltac chain_steps :=
  repeat (eapply chain_step;
          [ run_eq
          | cbn [compoundOperators In Token.type Token.data];
            repeat (first [ left; reflexivity | right ])
          | yields_by 5 parseSimpleTermOrSwitch_monotone
          | ]);
  apply chain_end.

Lemma binary_operators_nest_left_witness :
  Yields (parse Lenient) (ELTokenizer "1 + 2 * 3")
         (Ok (one_plus_two_times_three, mkState "" 9 1 10 false))
  /\ Yields (parse Strict) (ELTokenizer "1 + 2 * 3")
            (Ok (one_plus_two_times_three, mkState "" 9 1 10 false))
  /\ evaluate one_plus_two_times_three = Some 9%Z
  /\ Yields (parse Strict) (ELTokenizer ("1" ++ tailText everyOperator))
            (Ok (chainTree (EL.LiteralExpression (EL.Number "1") (mkLocation 1 1))
                           2 everyOperator,
                 mkState "" (String.length ("1" ++ tailText everyOperator)) 1
                         (1 + String.length ("1" ++ tailText everyOperator)) false)).
Proof.
  edestruct (binary_operators_nest_left (ELTokenizer "1 + 2 * 3"))
    as (HL & HS & _).
  - run_eq.
  - reflexivity.
  - yields_by 5 parseSimpleTermOrSwitch_monotone.
  - chain_steps.
  - run_eq.
  - reflexivity.
  - edestruct (binary_operators_nest_left
                 (ELTokenizer ("1" ++ tailText everyOperator)))
      as (_ & HS' & _).
    + run_eq.
    + reflexivity.
    + yields_by 5 parseSimpleTermOrSwitch_monotone.
    + chain_steps.
    + run_eq.
    + reflexivity.
    + split; [exact HL | split; [apply HS; reflexivity | split; [reflexivity |]]].
      apply HS'. reflexivity.
Defined.

(* ================================================================== *)
(** ** Every string token carries the text as it is written *)

Lemma advanceWhile_prefix p n :
  forall st st1,
    advanceWhile p n st = Ok (tt, st1) ->
    exists pre,
      cur st = (pre ++ cur st1)%string
      /\ consumed st1 = consumed st + String.length pre.
Proof.
  induction n as [| n IH]; intros st st1 H.
  - injection H as <-. exists EmptyString. split; [reflexivity | simpl; lia].
  - rewrite advanceWhile_S in H.
    destruct (negb (eof st) && p st).
    + destruct (cur st) as [| c rest] eqn:Hcur.
      * unfold bind, advance in H. rewrite Hcur in H. discriminate H.
      * destruct (advance_char st c rest Hcur) as (st' & Hadv & Hcur' & Hcons' & _).
        rewrite (bind_Ok _ _ _ _ _ Hadv) in H.
        destruct (IH _ _ H) as (pre & Hpre & Hcons).
        exists (String c pre). cbn [append String.length].
        rewrite <- Hpre, Hcur'. split; [reflexivity | lia].
    + injection H as <-. exists EmptyString. split; [reflexivity | simpl; lia].
Qed.

Lemma advanceWhile_stops p n :
  forall st st1,
    advanceWhile p n st = Ok (tt, st1) ->
    String.length (cur st) <= n ->
    eof st1 = true \/ p st1 = false.
Proof.
  induction n as [| n IH]; intros st st1 H Hlen.
  - injection H as <-. left. unfold eof. destruct (cur st); [reflexivity | simpl in Hlen; lia].
  - rewrite advanceWhile_S in H.
    destruct (negb (eof st) && p st) eqn:Econd.
    + destruct (cur st) as [| c rest] eqn:Hcur.
      * unfold bind, advance in H. rewrite Hcur in H. discriminate H.
      * destruct (advance_char st c rest Hcur) as (st' & Hadv & Hcur' & _).
        rewrite (bind_Ok _ _ _ _ _ Hadv) in H.
        apply (IH _ _ H). rewrite Hcur'. simpl in Hlen. lia.
    + injection H as <-. apply andb_false_iff in Econd as [E | E]; [left | right; exact E].
      now destruct (eof st).
Qed.

(** Whenever the tokenizer gets a token out of an input that starts with a
    quote, it is the string token whose text is the input between that
    quote and the closing one, character for character, and scanning goes
    on after the closing quote. *)
Lemma string_token_is_raw_text delim s start line column escaped tok st' :
  delim = "'" \/ delim = "034" ->
  emitToken (mkState (String delim s) start line column escaped) = Ok (tok, st') ->
  tok = Token.mk ELToken.String (Token.data tok) (S start) line column
  /\ s = (Token.data tok ++ String delim (cur st'))%string.
Proof.
  intros Hdelim H.
  unfold emitToken in H. cbn [cur String.length] in H. rewrite emitTokenLoop_S in H.
  unfold eof at 1 in H. cbn [cur] in H. cbv iota in H.
  apply bind_inv in H as (r & s2 & Hturn & Hret).
  rewrite (emitTokenTurn_quote delim _ start line column escaped Hdelim) in Hturn.
  apply bind_inv in Hturn as (e & s2' & Hread & Htok).
  injection Htok as <- <-. injection Hret as <- <-.
  unfold readQuotedString in Hread. cbn [cur] in Hread.
  apply bind_inv in Hread as ([] & s1 & Hscan & Hread).
  rewrite bind_get in Hread.
  destruct (advanceWhile_prefix _ _ _ _ Hscan) as (pre & Hpre & Hcons).
  destruct (advanceWhile_stops _ _ _ _ Hscan (Nat.le_refl _)) as [Heof | Hstop];
    [rewrite Heof in Hread; discriminate Hread |].
  destruct (eof s1) eqn:Heof; [discriminate Hread |].
  apply bind_inv in Hread as ([] & s3 & Hadv & Hret).
  injection Hret as <- <-.
  unfold eof in Heof. destruct (cur s1) as [| c rest] eqn:Hcur1; [discriminate Heof |].
  apply orb_false_iff in Hstop as [Hc _].
  rewrite (curChar_cur _ _ _ Hcur1) in Hc.
  apply negb_false_iff, Ascii.eqb_eq in Hc. subst c.
  destruct (advance_char s1 delim rest Hcur1) as (s3' & Hadv' & Hcur3 & _).
  assert (s3' = s3) by congruence. subst s3'.
  cbn [cur consumed] in Hpre, Hcons.
  assert (Hdata : Token.data (Token.make ELToken.String (S start, s) (curPos s1)
                                          (S start) line column) = pre).
  { unfold Token.make, Token.data, curPos. rewrite Hcons, Hcur1, Hpre.
    apply between_prefix. }
  split.
  - unfold Token.make in *. cbn [Token.data] in *. reflexivity.
  - rewrite Hdata, Hcur3. exact Hpre.
Qed.

(* ================================================================== *)
(** ** The tokenizer moves forward *)

Lemma span_refl st : Span st EmptyString st.
Proof. split; [reflexivity | simpl; lia]. Qed.

Lemma append_assoc (a b c : string) : ((a ++ b) ++ c = a ++ (b ++ c))%string.
Proof. induction a as [| x a IH]; simpl; [reflexivity | now rewrite IH]. Qed.

Lemma span_trans st1 a st2 b st3 :
  Span st1 a st2 -> Span st2 b st3 -> Span st1 (a ++ b) st3.
Proof.
  intros [H1 C1] [H2 C2]. split.
  - now rewrite H1, H2, append_assoc.
  - rewrite length_app. lia.
Qed.

Lemma advance_inv st u st' :
  advance st = Ok (u, st') ->
  exists c, Span st (String c EmptyString) st' /\ curChar st = c.
Proof.
  unfold advance, Span, curChar. destruct (cur st) as [| c rest]; [discriminate |].
  intros [= H]. exists c.
  destruct (c =? "013"), (lookAhead st =? "010"), (c =? "010");
    subst st'; cbn; repeat split; lia.
Qed.

Lemma advanceN_inv n :
  forall st u st',
    advanceN n st = Ok (u, st') ->
    exists text, Span st text st' /\ String.length text = n.
Proof.
  induction n as [| n IH]; intros st u st' H.
  - injection H as _ <-. exists EmptyString. split; [apply span_refl | reflexivity].
  - cbn [advanceN] in H. apply bind_inv in H as (u1 & s1 & Hadv & H).
    apply advance_inv in Hadv as (c & Hspan & _).
    apply IH in H as (text & Hspan' & Hlen).
    exists (String c text). split.
    + exact (span_trans _ _ _ _ _ Hspan Hspan').
    + simpl. now rewrite Hlen.
Qed.

Lemma advanceWhile_span p n st u st' :
  advanceWhile p n st = Ok (u, st') -> exists text, Span st text st'.
Proof.
  destruct u. intro H.
  destruct (advanceWhile_prefix _ _ _ _ H) as (pre & H1 & H2).
  exists pre. now split.
Qed.

(** A scan that starts on a character of its kind takes that character. *)
Lemma advanceWhile_first p n st u st' :
  advanceWhile p (S n) st = Ok (u, st') ->
  eof st = false -> p st = true ->
  exists c text, Span st (String c text) st'.
Proof.
  rewrite advanceWhile_S. intros H Heof Hp. rewrite Heof, Hp in H. cbn [negb andb] in H.
  apply bind_inv in H as (u1 & s1 & Hadv & H).
  apply advance_inv in Hadv as (c & Hspan & _).
  apply advanceWhile_span in H as (text & Hspan').
  exists c, text. exact (span_trans _ _ _ _ _ Hspan Hspan').
Qed.

Lemma span_length st text st' :
  Span st text st' ->
  String.length (cur st) = String.length text + String.length (cur st').
Proof. intros [H _]. now rewrite H, length_app. Qed.

Lemma between_span st text st' :
  Span st text st' -> between (curPos st) (curPos st') = text.
Proof.
  intros [H C]. unfold between, curPos. cbn [fst snd]. rewrite H, C.
  replace (consumed st + String.length text - consumed st)
    with (String.length text) by lia.
  apply takeChars_app.
Qed.

Lemma between_plus st text st' :
  Span st text st' ->
  between (curPos st) (plusChars (curPos st) (String.length text)) = text.
Proof.
  intros [H C]. unfold between, plusChars, curPos. cbn [fst snd]. rewrite H.
  replace (consumed st + String.length text - consumed st)
    with (String.length text) by lia.
  apply takeChars_app.
Qed.

(** A scan by a test of the current character runs over characters that
    pass the test. *)
Lemma advanceWhile_chars (q : ascii -> bool) n :
  forall st u st',
    advanceWhile (fun s => q (curChar s)) n st = Ok (u, st') ->
    exists text, Span st text st' /\ allChars q text = true.
Proof.
  induction n as [| n IH]; intros st u st' H.
  - injection H as _ <-. exists EmptyString. split; [apply span_refl | reflexivity].
  - rewrite advanceWhile_S in H.
    destruct (negb (eof st) && q (curChar st)) eqn:E.
    + apply andb_prop in E as [_ Eq].
      apply bind_inv in H as (u1 & s1 & Hadv & H).
      apply advance_inv in Hadv as (c & Hspan & Hc).
      apply IH in H as (text & Hspan' & Hall).
      exists (String c text). split.
      * exact (span_trans _ _ _ _ _ Hspan Hspan').
      * cbn [allChars]. rewrite <- Hc, Eq. exact Hall.
    + injection H as _ <-. exists EmptyString. split; [apply span_refl | reflexivity].
Qed.

Lemma advance_then_scan p n st (u : unit) st' :
  (advance ;;; advanceWhile p n) st = Ok (u, st') ->
  exists text, Span st (String (curChar st) text) st'.
Proof.
  intro H. apply bind_inv in H as (u1 & s1 & Hadv & H).
  apply advance_inv in Hadv as (c & Hspan & Hc).
  apply advanceWhile_span in H as (text & Hspan').
  exists text. rewrite Hc. exact (span_trans _ _ _ _ _ Hspan Hspan').
Qed.

Lemma advance_then_digits st (u : unit) st' :
  (advance ;;; readDigits) st = Ok (u, st') ->
  exists text, Span st (String (curChar st) text) st'.
Proof.
  intro H. apply bind_inv in H as (u1 & s1 & Hadv & H).
  apply advance_inv in Hadv as (c & Hspan & Hc).
  apply advanceWhile_span in H as (text & Hspan').
  exists text. rewrite Hc. exact (span_trans _ _ _ _ _ Hspan Hspan').
Qed.

(** The decimal scan either fails and leaves the state as it was, or
    returns the position it has reached, at least one character on. *)
Lemma readDecimal_inv delims st e s :
  readDecimal delims st = Ok (e, s) ->
  (e = None /\ s = st)
  \/ (e = Some (curPos s) /\ exists text, Span st (String (curChar st) text) s).
Proof.
  unfold readDecimal.
  destruct (negb (curChar st =? "+") && negb (curChar st =? "-")
            && negb (curChar st =? ".") && negb (isDigit (curChar st)));
    [intros [= <- <-]; now left |].
  intro H.
  apply bind_inv in H as (u1 & s1 & H1 & H). rewrite bind_get in H.
  apply bind_inv in H as (u2 & s2 & H2 & H). rewrite bind_get in H.
  apply bind_inv in H as (u3 & s3 & H3 & H). rewrite bind_get in H.
  destruct (eof s3 || isAnyOf (curChar s3) delims);
    [| apply bind_inv in H as (u4 & s4 & Hput & H); injection Hput as _ <-;
       injection H as <- <-; now left].
  injection H as <- <-. right. split; [reflexivity |].
  assert (T3 : exists t3, Span s2 t3 s3).
  { destruct (curChar s2 =? "e").
    - apply bind_inv in H3 as (u & s & Hadv & H3). rewrite bind_get in H3.
      apply advance_inv in Hadv as (c & Hspan & _).
      destruct ((curChar s =? "+") || (curChar s =? "-") || isDigit (curChar s)).
      + apply advance_then_digits in H3 as (t & Ht).
        eexists. exact (span_trans _ _ _ _ _ Hspan Ht).
      + injection H3 as _ <-. eexists. exact Hspan.
    - injection H3 as _ <-. eexists. apply span_refl. }
  destruct T3 as (t3 & Ht3).
  destruct (curChar st =? ".") eqn:Epoint; cbn [negb] in H1.
  - injection H1 as _ <-. rewrite Epoint in H2.
    apply advance_then_digits in H2 as (t2 & Ht2).
    exists (t2 ++ t3)%string.
    exact (span_trans _ (String (curChar st) t2) _ _ _ Ht2 Ht3).
  - apply advance_then_digits in H1 as (t1 & Ht1).
    assert (T2 : exists t2, Span s1 t2 s2).
    { destruct (curChar s1 =? ".").
      - apply advance_then_digits in H2 as (t & Ht). eexists. exact Ht.
      - injection H2 as _ <-. eexists. apply span_refl. }
    destruct T2 as (t2 & Ht2).
    exists (t1 ++ t2 ++ t3)%string.
    exact (span_trans _ (String (curChar st) t1) _ _ _ Ht1
                      (span_trans _ _ _ _ _ Ht2 Ht3)).
Qed.

Lemma readInteger_inv delims st e s :
  readInteger delims st = Ok (e, s) ->
  (e = None /\ s = st)
  \/ (e = Some (curPos s) /\ exists text, Span st (String (curChar st) text) s).
Proof.
  unfold readInteger.
  destruct (negb (curChar st =? "+") && negb (curChar st =? "-")
            && negb (isDigit (curChar st))) eqn:Eguard;
    [intros [= <- <-]; now left |].
  intro H.
  apply bind_inv in H as (u1 & s1 & H1 & H).
  apply bind_inv in H as (u2 & s2 & H2 & H). rewrite bind_get in H.
  destruct (eof s2 || isAnyOf (curChar s2) delims);
    [| apply bind_inv in H as (u4 & s4 & Hput & H); injection Hput as _ <-;
       injection H as <- <-; now left].
  injection H as <- <-. right. split; [reflexivity |].
  destruct ((curChar st =? "+") || (curChar st =? "-")) eqn:Esign.
  - apply advance_inv in H1 as (c & Hspan & Hc).
    apply advanceWhile_span in H2 as (t & Ht).
    exists t. rewrite <- Hc in Hspan. exact (span_trans _ _ _ _ _ Hspan Ht).
  - injection H1 as _ <-.
    apply orb_false_iff in Esign as [E1 E2]. rewrite E1, E2 in Eguard.
    cbn [negb andb] in Eguard. apply negb_false_iff in Eguard.
    unfold readDigits in H2.
    destruct (cur st) as [| c rest] eqn:Hcur;
      [unfold curChar in Eguard; rewrite Hcur in Eguard; discriminate |].
    cbn [String.length] in H2.
    apply advanceWhile_first in H2 as (c' & t & Ht);
      [| unfold eof; now rewrite Hcur | exact Eguard].
    exists t. unfold curChar. rewrite Hcur.
    destruct Ht as [Ht Hn]. rewrite Hcur in Ht. injection Ht as -> Ht.
    split; [now rewrite Hcur, Ht | exact Hn].
Qed.

Lemma startsWith_prefix str :
  forall text rest,
    startsWith str (text ++ rest) = true ->
    String.length text = String.length str -> text = str.
Proof.
  induction str as [| a str IH]; intros [| b text] rest H Hlen;
    try discriminate; [reflexivity |].
  cbn [append startsWith] in H. apply andb_prop in H as [Hab H].
  apply Ascii.eqb_eq in Hab. subst b.
  f_equal. apply (IH _ rest H). simpl in Hlen. lia.
Qed.

Lemma discard_inv str st e s :
  discard str st = Ok (e, s) ->
  (e = None /\ s = st) \/ (e = Some (curPos s) /\ Span st str s).
Proof.
  unfold discard. destruct (startsWith str (cur st)) eqn:E;
    [| intros [= <- <-]; now left].
  intro H. apply bind_inv in H as (u & s1 & Hadv & H). rewrite bind_get in H.
  injection H as <- <-. right. split; [reflexivity |].
  apply advanceN_inv in Hadv as (text & Hspan & Hlen).
  destruct Hspan as [Hcur Hn]. rewrite Hcur in E.
  rewrite (startsWith_prefix _ _ _ E Hlen) in Hcur, Hn. now split.
Qed.

Lemma span_first st c text st' : Span st (String c text) st' -> curChar st = c.
Proof. intros [H _]. unfold curChar. now rewrite H. Qed.

Lemma span_not_eof st c text st' : Span st (String c text) st' -> eof st = false.
Proof. intros [H _]. unfold eof. now rewrite H. Qed.

(** A number starts with a digit, a point or a sign. *)
Lemma readDecimal_some delims st e s :
  readDecimal delims st = Ok (Some e, s) ->
  isDigit (curChar st) || (curChar st =? ".") || (curChar st =? "+")
  || (curChar st =? "-") = true.
Proof.
  unfold readDecimal.
  destruct (curChar st =? "+"), (curChar st =? "-"), (curChar st =? "."),
    (isDigit (curChar st)); cbn [negb andb orb]; intro H;
    first [reflexivity | discriminate H].
Qed.

Lemma readInteger_some delims st e s :
  readInteger delims st = Ok (Some e, s) ->
  isDigit (curChar st) || (curChar st =? ".") || (curChar st =? "+")
  || (curChar st =? "-") = true.
Proof.
  unfold readInteger.
  destruct (curChar st =? "+"), (curChar st =? "-"), (curChar st =? "."),
    (isDigit (curChar st)); cbn [negb andb orb]; intro H;
    first [reflexivity | discriminate H].
Qed.

(** The end of the [default:] branch: what is returned is a number, a
    keyword or a name that starts where the scan stood, and its text is
    the input that was passed. *)
Lemma emitNumberOrWord_inv st r st' :
  emitNumberOrWord (curPos st) (line st) (column st) st = Ok (r, st') ->
  exists ty text,
    r = Some (Token.mk ty (String (curChar st) text)
                       (consumed st) (line st) (column st))
    /\ Span st (String (curChar st) text) st'
    /\ ((ty = ELToken.Number
         /\ isDigit (curChar st) || (curChar st =? ".") || (curChar st =? "+")
            || (curChar st =? "-") = true)
        \/ (ty = ELToken.Boolean
            /\ (String (curChar st) text = "true"%string
                \/ String (curChar st) text = "false"%string))
        \/ (ty = ELToken.Null /\ String (curChar st) text = "null"%string)
        \/ (ty = ELToken.Name
            /\ isLetter (curChar st) || (curChar st =? "_") = true
            /\ allChars isNameChar text = true)).
Proof.
  unfold emitNumberOrWord. intro H.
  apply bind_inv in H as (e & s & Hread & H).
  pose proof Hread as Hsome.
  apply readDecimal_inv in Hread as [[-> ->] | [-> (text & Hspan)]].
  2:{ rewrite bind_get in H.
      destruct (negb (eof s) && (curChar s =? ".") && negb (lookAhead s =? "."));
        [discriminate H |].
      injection H as <- <-. exists ELToken.Number, text.
      unfold Token.make. rewrite (between_span _ _ _ Hspan).
      apply readDecimal_some in Hsome.
      split; [reflexivity | split; [exact Hspan | left; now split]]. }
  clear Hsome.
  apply bind_inv in H as (e & s & Hread & H).
  pose proof Hread as Hsome.
  apply readInteger_inv in Hread as [[-> ->] | [-> (text & Hspan)]].
  2:{ injection H as <- <-. exists ELToken.Number, text.
      unfold Token.make. rewrite (between_span _ _ _ Hspan).
      apply readInteger_some in Hsome.
      split; [reflexivity | split; [exact Hspan | left; now split]]. }
  clear Hsome.
  apply bind_inv in H as (e & s & Hread & H).
  apply discard_inv in Hread as [[-> ->] | [-> Hspan]].
  2:{ injection H as <- <-. exists ELToken.Boolean, "rue"%string.
      unfold Token.make. rewrite (between_span _ _ _ Hspan).
      rewrite (span_first _ _ _ _ Hspan). cbn [offset curPos fst].
      split; [reflexivity | split; [exact Hspan | right; left; auto]]. }
  apply bind_inv in H as (e & s & Hread & H).
  apply discard_inv in Hread as [[-> ->] | [-> Hspan]].
  2:{ injection H as <- <-. exists ELToken.Boolean, "alse"%string.
      unfold Token.make. rewrite (between_span _ _ _ Hspan).
      rewrite (span_first _ _ _ _ Hspan). cbn [offset curPos fst].
      split; [reflexivity | split; [exact Hspan | right; left; auto]]. }
  apply bind_inv in H as (e & s & Hread & H).
  apply discard_inv in Hread as [[-> ->] | [-> Hspan]].
  2:{ injection H as <- <-. exists ELToken.Null, "ull"%string.
      unfold Token.make. rewrite (between_span _ _ _ Hspan).
      rewrite (span_first _ _ _ _ Hspan). cbn [offset curPos fst].
      split; [reflexivity | split; [exact Hspan | right; right; left; auto]]. }
  destruct (isLetter (curChar st) || (curChar st =? "_")) eqn:Efirst;
    [| discriminate H].
  apply bind_inv in H as (u & s1 & Hadv & H). rewrite bind_get in H.
  apply bind_inv in H as (u' & s2 & Hscan & H). rewrite bind_get in H.
  injection H as <- <-.
  apply advance_inv in Hadv as (c & Hspan & Hc).
  apply (advanceWhile_chars isNameChar) in Hscan as (text & Hspan' & Hall).
  pose proof (span_trans _ _ _ _ _ Hspan Hspan') as Hname.
  cbn [append] in Hname. rewrite <- Hc in Hname.
  exists ELToken.Name, text.
  unfold Token.make. rewrite (between_span _ _ _ Hname).
  split; [reflexivity | split; [exact Hname | right; right; right; auto]].
Qed.

Lemma readQuotedString_inv delim st e st' :
  readQuotedString delim st = Ok (e, st') ->
  exists text s1,
    Span st text s1 /\ e = curPos s1 /\ Span s1 (String delim EmptyString) st'.
Proof.
  unfold readQuotedString. intro H.
  apply bind_inv in H as ([] & s1 & Hscan & H). rewrite bind_get in H.
  destruct (eof s1) eqn:Heof; [discriminate H |].
  apply bind_inv in H as (u & s2 & Hadv & H). injection H as <- <-.
  destruct (advanceWhile_stops _ _ _ _ Hscan (Nat.le_refl _)) as [E | E];
    [congruence |].
  apply orb_false_iff in E as [E _]. apply negb_false_iff, Ascii.eqb_eq in E.
  apply advance_inv in Hadv as (c & Hspan & Hc).
  apply advanceWhile_span in Hscan as (text & Htext).
  exists text, s1. repeat split; try apply Htext.
  - rewrite <- E, Hc. apply Hspan.
  - apply Hspan.
Qed.

Lemma curChar_not_eof st : curChar st <> zero -> eof st = false.
Proof. unfold curChar, eof. destruct (cur st); congruence. Qed.

Lemma discardWhile_first allow st (u : unit) st' :
  discardWhile allow st = Ok (u, st') ->
  curChar st <> zero -> isAnyOf (curChar st) allow = true ->
  exists c text, Span st (String c text) st'.
Proof.
  unfold discardWhile. intros H Hc Hany.
  pose proof (curChar_not_eof _ Hc) as Heof.
  destruct (cur st) as [| c rest] eqn:Hcur;
    [unfold eof in Heof; rewrite Hcur in Heof; discriminate |].
  cbn [String.length] in H.
  exact (advanceWhile_first _ _ _ _ _ H Heof Hany).
Qed.

(** A token made of the [n] characters that were passed from [st]. *)
Lemma tokenAt_make ty st text st' n :
  Span st text st' -> String.length text = n -> n <> 0 ->
  ty <> ELToken.Eof -> ty <> ELToken.String ->
  TokenAt st (Token.make ty (curPos st) (plusChars (curPos st) n)
                         (offset (curPos st)) (line st) (column st)) st'.
Proof.
  intros Hspan <- Hn Heof Hstr. unfold Token.make.
  rewrite (between_plus _ _ _ Hspan).
  assert (text <> EmptyString) by (destruct text; [simpl in Hn; lia | discriminate]).
  unfold TokenAt. cbn [Token.line Token.column Token.type Token.data Token.position].
  repeat split; destruct ty; try congruence; repeat split; auto; apply Hspan.
Qed.

Lemma tokenAt_word ty st c text st' :
  Span st (String c text) st' ->
  ty <> ELToken.Eof -> ty <> ELToken.String ->
  TokenAt st (Token.mk ty (String c text) (consumed st) (line st) (column st)) st'.
Proof.
  intros Hspan Heof Hstr.
  unfold TokenAt. cbn [Token.line Token.column Token.type Token.data Token.position].
  repeat split; destruct ty; try congruence; repeat split; auto;
    try apply Hspan; discriminate.
Qed.

Lemma tokenAt_string delim st s text s1 st' :
  Span st (String delim EmptyString) s -> Span s text s1 ->
  Span s1 (String delim EmptyString) st' ->
  TokenAt st (Token.make ELToken.String (curPos s) (curPos s1)
                         (offset (curPos s)) (line st) (column st)) st'.
Proof.
  intros H1 H2 H3. unfold Token.make. rewrite (between_span _ _ _ H2).
  unfold TokenAt. cbn [Token.line Token.column Token.type Token.data Token.position].
  repeat split. exists delim. split.
  - exact (span_trans _ _ _ _ _ H1 (span_trans _ _ _ _ _ H2 H3)).
  - destruct H1 as [_ H1]. cbn [offset curPos fst]. simpl in H1. lia.
Qed.

Lemma bind_assoc {A B C} (m : M A) (k : A -> M B) (k' : B -> M C) st :
  bind (bind m k) k' st = bind m (fun a => bind (k a) k') st.
Proof. unfold bind. destruct (m st) as [[a s] | |]; reflexivity. Qed.

(** One step of taking a turn of [emitToken] apart. *)
Ltac turn_step H Hc :=
  match type of H with
  | bind advance _ _ = _ =>
      let Hadv := fresh "Hadv" in
      apply bind_inv in H as (? & ? & Hadv & H);
      apply advance_inv in Hadv as (? & ? & ?)
  | bind (advanceN 2) _ _ = _ =>
      let Hadv := fresh "Hadv" in
      apply bind_inv in H as (? & ? & Hadv & H);
      apply advanceN_inv in Hadv as (? & ? & ?)
  | bind (discardUntil _) _ _ = _ =>
      let Hscan := fresh "Hscan" in
      apply bind_inv in H as (? & ? & Hscan & H);
      apply advanceWhile_span in Hscan as (? & ?)
  | bind (discardWhile _) _ _ = _ =>
      let Hscan := fresh "Hscan" in
      apply bind_inv in H as (? & ? & Hscan & H);
      apply discardWhile_first in Hscan as (? & ? & ?);
      [ | rewrite Hc; discriminate | rewrite Hc; reflexivity ]
  | bind (readQuotedString _) _ _ = _ =>
      let Hscan := fresh "Hscan" in
      apply bind_inv in H as (? & ? & Hscan & H);
      apply readQuotedString_inv in Hscan as (? & ? & ? & -> & ?)
  | bind get _ _ = _ => rewrite bind_get in H
  | bind (ret _) _ _ = _ =>
      let Hret := fresh "Hret" in
      apply bind_inv in H as (? & ? & Hret & H); injection Hret as <- <-;
      cbv beta iota in H
  | bind (bind _ _) _ _ = _ => rewrite bind_assoc in H
  | bind (if ?b then _ else _) _ _ = _ => destruct b eqn:?
  | (if ?b then _ else _) _ = _ => destruct b eqn:?
  | ret _ _ = Ok _ => injection H as <- <-
  end.

Ltac spanned :=
  first [ eassumption | eapply span_trans; eassumption ].

(** What a turn of [emitToken] returns: a token that starts where the
    turn started, or no token after white space or a comment, and then at
    least one character has been passed. *)
Lemma emitTokenTurn_inv st r st' :
  emitTokenTurn st = Ok (r, st') ->
  match r with
  | Some tok => TokenAt st tok st'
  | None => exists c text, Span st (String c text) st'
  end.
Proof.
  unfold emitTokenTurn.
  destruct (curChar st) as [[] [] [] [] [] [] [] []] eqn:Hc;
    cbv beta iota zeta; intro H.
  all: repeat turn_step H Hc.
  all: try (eapply tokenAt_make;
            [ spanned | first [ reflexivity | eassumption ]
            | discriminate | discriminate | discriminate ]).
  all: try (apply emitNumberOrWord_inv in H as (ty & text & -> & Hspan & Hty);
            apply (tokenAt_word _ _ _ _ _ Hspan);
            destruct Hty as [[-> _] | [[-> _] | [[-> _] | [-> _]]]]; discriminate).
  all: try (do 2 eexists; spanned).
  all: try match goal with
           | H0 : Span ?s (String ?c EmptyString) ?s1, H2 : Span ?s1 ?t ?s2
             |- exists c text, Span ?s (String c text) ?s2 =>
               exists c, t; exact (span_trans _ _ _ _ _ H0 H2)
           end.
  all: match goal with
       | Hx : curChar ?s = ?x, Hs : Span ?s (String ?x EmptyString) _ |- _ =>
           rewrite Hc in Hx; subst x; eapply tokenAt_string; eassumption
       end.
Qed.

(** What [emitToken] returns: after white space and comments that are
    passed over, the end token where the input ends, or else a token that
    starts there. *)
Lemma emitTokenLoop_inv n :
  forall st tok st',
    emitTokenLoop n st = Ok (tok, st') ->
    exists skipped s0,
      Span st skipped s0
      /\ ((eof s0 = true /\ st' = s0
           /\ tok = Token.mk ELToken.Eof EmptyString
                             (consumed s0) (line s0) (column s0))
          \/ TokenAt s0 tok st').
Proof.
  induction n as [| n IH]; intros st tok st' H.
  - cbn [emitTokenLoop] in H. destruct (eof st) eqn:Heof; [| discriminate H].
    injection H as <- <-. exists EmptyString, st. split; [apply span_refl | auto].
  - rewrite emitTokenLoop_S in H. destruct (eof st) eqn:Heof.
    + injection H as <- <-. exists EmptyString, st. split; [apply span_refl | auto].
    + apply bind_inv in H as (r & s & Hturn & H).
      apply emitTokenTurn_inv in Hturn. destruct r as [t |].
      * injection H as <- <-. exists EmptyString, st.
        split; [apply span_refl | now right].
      * destruct Hturn as (c & text & Hspan).
        apply IH in H as (skipped & s0 & Hspan' & H).
        exists (String c text ++ skipped)%string, s0.
        split; [exact (span_trans _ _ _ _ _ Hspan Hspan') | exact H].
Qed.

Lemma emitToken_inv st tok st' :
  emitToken st = Ok (tok, st') ->
  exists skipped s0,
    Span st skipped s0
    /\ ((eof s0 = true /\ st' = s0
         /\ tok = Token.mk ELToken.Eof EmptyString
                           (consumed s0) (line s0) (column s0))
        \/ TokenAt s0 tok st').
Proof. apply emitTokenLoop_inv. Qed.

Lemma tokenAt_span st tok st' :
  TokenAt st tok st' -> exists c text, Span st (String c text) st'.
Proof.
  intros (_ & _ & H). destruct (Token.type tok); try contradiction;
    try (destruct H as (Hspan & _ & Hdata);
         destruct (Token.data tok) as [| c text]; [congruence | eauto]).
  destruct H as (delim & Hspan & _). eauto.
Qed.

Lemma tokenAt_not_eof st tok st' :
  TokenAt st tok st' -> Token.type tok <> ELToken.Eof.
Proof. intros (_ & _ & H) E. now rewrite E in H. Qed.

(* ================================================================== *)
(** ** The tokenizer always returns *)

Lemma bind_returns {A B} (m : M A) (k : A -> M B) :
  Returns m -> (forall a, Returns (k a)) -> Returns (bind m k).
Proof.
  intros Hm Hk st. unfold bind. specialize (Hm st).
  destruct (m st) as [[a s] | |]; [apply Hk | discriminate | congruence].
Qed.

Lemma ret_returns {A} (a : A) : Returns (ret a).
Proof. intro st. discriminate. Qed.

Lemma throw_returns {A} e : Returns (@throw A e).
Proof. intro st. discriminate. Qed.

Lemma get_returns : Returns get.
Proof. intro st. discriminate. Qed.

Lemma put_returns s : Returns (put s).
Proof. intro st. discriminate. Qed.

Lemma advance_returns : Returns advance.
Proof. intro st. unfold advance. destruct (cur st); discriminate. Qed.

Lemma advanceN_returns n : Returns (advanceN n).
Proof.
  induction n as [| n IH]; cbn [advanceN];
    [apply ret_returns | apply bind_returns; [apply advance_returns | intro; exact IH]].
Qed.

Lemma advanceWhile_returns p n : Returns (advanceWhile p n).
Proof.
  induction n as [| n IH]; [apply ret_returns |].
  intro st. rewrite advanceWhile_S.
  destruct (negb (eof st) && p st); [| discriminate].
  apply bind_returns; [apply advance_returns | intro; exact IH].
Qed.

Ltac returns_tac :=
  repeat first
    [ assumption
    | match goal with H : _ |- Returns _ => apply H end
    | apply ret_returns | apply throw_returns | apply get_returns
    | apply put_returns | apply advance_returns | apply advanceN_returns
    | apply advanceWhile_returns
    | apply bind_returns; [ | intro ]
    | match goal with
      | |- Returns (if ?b then _ else _) => destruct b
      | |- Returns (match ?x with _ => _ end) => destruct x
      | |- (if ?b then _ else _) _ <> OutOfFuel => destruct b
      | |- Ok _ <> OutOfFuel => discriminate
      | |- forall _, _ => intro
      end ].

Lemma discardWhile_returns allow : Returns (discardWhile allow).
Proof. intro st. apply advanceWhile_returns. Qed.

Lemma discardUntil_returns delims : Returns (discardUntil delims).
Proof. intro st. apply advanceWhile_returns. Qed.

Lemma readDigits_returns : Returns readDigits.
Proof. intro st. apply advanceWhile_returns. Qed.

Lemma discard_returns str : Returns (discard str).
Proof.
  intro st. unfold discard. destruct (startsWith str (cur st)); [| discriminate].
  apply bind_returns; returns_tac.
Qed.

Lemma readInteger_returns delims : Returns (readInteger delims).
Proof.
  intro st. unfold readInteger.
  destruct (negb (curChar st =? "+") && negb (curChar st =? "-")
            && negb (isDigit (curChar st))); [discriminate |].
  apply bind_returns; [returns_tac |].
  intro. apply bind_returns; [apply readDigits_returns |]. intro. returns_tac.
Qed.

Lemma readDecimal_returns delims : Returns (readDecimal delims).
Proof.
  intro st. unfold readDecimal.
  destruct (negb (curChar st =? "+") && negb (curChar st =? "-")
            && negb (curChar st =? ".") && negb (isDigit (curChar st)));
    [discriminate |].
  pose proof readDigits_returns.
  apply bind_returns; returns_tac.
Qed.

Lemma readQuotedString_returns delim : Returns (readQuotedString delim).
Proof. intro st. unfold readQuotedString. apply bind_returns; returns_tac. Qed.

Lemma emitNumberOrWord_returns c line column :
  Returns (emitNumberOrWord c line column).
Proof.
  intro st. unfold emitNumberOrWord.
  pose proof (readDecimal_returns NumberDelim).
  pose proof (readInteger_returns IntegerDelim).
  pose proof (discard_returns "true").
  pose proof (discard_returns "false").
  pose proof (discard_returns "null").
  apply bind_returns; returns_tac.
Qed.

Lemma emitTokenTurn_returns : Returns emitTokenTurn.
Proof.
  intro st. unfold emitTokenTurn.
  pose proof (discardWhile_returns Whitespace).
  pose proof (discardUntil_returns (String "010" (String "013" EmptyString))).
  pose proof emitNumberOrWord_returns.
  pose proof readQuotedString_returns.
  destruct (curChar st) as [[] [] [] [] [] [] [] []];
    cbv beta iota zeta; apply bind_returns; returns_tac.
Qed.

(** With the length of the input as the number of its turns, the loop of
    [emitToken] comes to a token or to an error: a turn that returns no
    token has passed a character. *)
Lemma emitTokenLoop_returns n :
  forall st, String.length (cur st) <= n -> emitTokenLoop n st <> OutOfFuel.
Proof.
  induction n as [| n IH]; intros st Hlen.
  - cbn [emitTokenLoop]. unfold eof.
    destruct (cur st); [discriminate | simpl in Hlen; lia].
  - rewrite emitTokenLoop_S. destruct (eof st); [discriminate |].
    unfold bind. pose proof (emitTokenTurn_returns st) as Hturn.
    destruct (emitTokenTurn st) as [[[tok |] s] | e |] eqn:E;
      [discriminate | | discriminate | congruence].
    apply IH. apply emitTokenTurn_inv in E as (c & text & Hspan).
    apply span_length in Hspan. simpl in Hspan. lia.
Qed.

Lemma emitToken_returns : Returns emitToken.
Proof. intro st. apply emitTokenLoop_returns. apply Nat.le_refl. Qed.

Lemma tokenizeLoop_returns n :
  forall st, String.length (cur st) <= n -> tokenizeLoop n st <> OutOfFuel.
Proof.
  induction n as [| n IH]; intros st Hlen; cbn [tokenizeLoop];
    pose proof (emitToken_returns st) as Hret;
    destruct (emitToken st) as [[tok s] | e |] eqn:E;
    try discriminate; try congruence;
    destruct (ELToken.eqb (Token.type tok) ELToken.Eof) eqn:Eeof;
    try discriminate;
    apply emitToken_inv in E as (skipped & s0 & Hskip & [(_ & _ & ->) | Hat]);
    try discriminate Eeof;
    apply tokenAt_span in Hat as (c & text & Hspan);
    apply span_length in Hskip; apply span_length in Hspan; simpl in Hspan.
  - lia.
  - specialize (IH s ltac:(lia)).
    destruct (tokenizeLoop n s); [discriminate | discriminate | congruence].
Qed.

(** X1. The tokenizer returns on every input: [emitToken] comes to a token
    or to an error within as many turns of its loop as the input has
    characters, because a turn that returns no token, on white space or on
    a comment, has passed at least one character; and the token stream of
    an input has at most as many tokens before the end token as the input
    has characters. *)
Theorem tokenizer_always_returns :
  (forall st, emitToken st <> OutOfFuel)
  /\ (forall st, nextToken st <> OutOfFuel)
  /\ (forall st, peekToken st <> OutOfFuel)
  /\ (forall str, tokenize str <> OutOfFuel).
Proof.
  split; [exact emitToken_returns | split; [exact emitToken_returns | split]].
  - intro st. unfold peekToken. pose proof (emitToken_returns st).
    destruct (emitToken st) as [[tok s] | e |]; [discriminate | discriminate | congruence].
  - intro str. apply tokenizeLoop_returns. apply Nat.le_refl.
Qed.

(* ================================================================== *)
(** ** Tokens and the input they are read from *)

Lemma within_start str : Within str (ELTokenizer str).
Proof. exists EmptyString. now split. Qed.

Lemma within_span str st text st' :
  Within str st -> Span st text st' -> Within str st'.
Proof.
  intros (passed & Hstr & Hn) [Hcur Hn']. exists (passed ++ text)%string. split.
  - now rewrite Hstr, Hcur, append_assoc.
  - rewrite length_app. lia.
Qed.

Lemma substring_middle passed :
  forall text rest,
    String.substring (String.length passed) (String.length text)
                     (passed ++ text ++ rest)
    = text.
Proof.
  induction passed as [| c passed IH]; intros text rest.
  - cbn [String.length append]. revert rest.
    induction text as [| d text IHt]; intro rest.
    + destruct rest; reflexivity.
    + cbn [String.length append String.substring]. now rewrite IHt.
  - cbn [String.length append String.substring]. apply IH.
Qed.

Lemma substring_nothing s : forall n, String.substring n 0 s = EmptyString.
Proof.
  induction s as [| c s IH]; intros [| n]; try reflexivity.
  cbn [String.substring]. apply IH.
Qed.

Lemma append_empty_r (s : string) : (s ++ EmptyString)%string = s.
Proof. induction s as [| c s IH]; simpl; [reflexivity | now rewrite IH]. Qed.

(** The text of a token that is read from a state within an input is the
    input from the offset of the token on, and the token lies between the
    place where it was asked for and the place where the scan goes on. *)
Lemma token_within str st tok st' :
  Within str st -> emitToken st = Ok (tok, st') ->
  Within str st'
  /\ String.substring (Token.position tok) (String.length (Token.data tok)) str
     = Token.data tok
  /\ consumed st <= Token.position tok
  /\ endOffset tok <= consumed st'.
Proof.
  intros Hin H.
  apply emitToken_inv in H as (skipped & s0 & Hskip & H).
  pose proof (within_span _ _ _ _ Hin Hskip) as Hin0.
  assert (Hle : consumed st <= consumed s0) by (destruct Hskip; lia).
  destruct H as [(Heof & -> & ->) | (_ & _ & Hat)].
  - split; [exact Hin0 |]. unfold endOffset.
    cbn [Token.position Token.data String.length]. repeat split; try lia.
    apply substring_nothing.
  - destruct Hin0 as (passed & Hstr & Hn).
    assert (Hgen : forall before text after,
               Span s0 (before ++ text ++ after) st' ->
               Token.data tok = text ->
               Token.position tok = consumed s0 + String.length before ->
               Within str st'
               /\ String.substring (Token.position tok)
                                   (String.length (Token.data tok)) str
                  = Token.data tok
               /\ consumed st <= Token.position tok
               /\ endOffset tok <= consumed st').
    { intros before text after Hspan Hdata Hpos.
      split; [exact (within_span _ _ _ _ (ex_intro _ passed (conj Hstr Hn)) Hspan) |].
      destruct Hspan as [Hcur Hn']. unfold endOffset.
      rewrite !length_app in Hn'. rewrite Hdata, Hpos.
      repeat split; try lia.
      rewrite Hstr, Hcur, Hn, <- length_app, !append_assoc, <- append_assoc.
      apply substring_middle. }
    destruct (Token.type tok);
      try contradiction;
      try (destruct Hat as (Hspan & Hpos & _);
           apply (Hgen EmptyString (Token.data tok) EmptyString);
           [ cbn [append]; now rewrite append_empty_r
           | reflexivity | cbn [String.length]; lia ]).
    destruct Hat as (delim & Hspan & Hpos).
    apply (Hgen (String delim EmptyString) (Token.data tok) (String delim EmptyString));
      [exact Hspan | reflexivity | cbn [String.length]; lia].
Qed.

Lemma tokenizeLoop_within str n :
  forall st toks,
    Within str st -> tokenizeLoop n st = Ok toks ->
    Forall (fun tok =>
              String.substring (Token.position tok)
                               (String.length (Token.data tok)) str
              = Token.data tok
              /\ consumed st <= Token.position tok
              /\ endOffset tok <= String.length str) toks
    /\ StronglySorted (fun a b => endOffset a <= Token.position b) toks.
Proof.
  assert (Hend : forall st, Within str st -> consumed st <= String.length str).
  { intros st (passed & -> & ->). rewrite length_app. lia. }
  induction n as [| n IH]; intros st toks Hin H; cbn [tokenizeLoop] in H;
    destruct (emitToken st) as [[tok s] | e |] eqn:E; try discriminate H;
    destruct (token_within _ _ _ _ Hin E) as (Hin' & Hslice & Hlo & Hhi);
    pose proof (Hend _ Hin') as Hlen;
    destruct (ELToken.eqb (Token.type tok) ELToken.Eof);
    try discriminate H;
    try (injection H as <-; split;
         [ constructor; [repeat split; [exact Hslice | exact Hlo | lia] | constructor]
         | constructor; constructor ]).
  destruct (tokenizeLoop n s) as [rest | |] eqn:Erest; try discriminate H.
  injection H as <-.
  destruct (IH _ _ Hin' Erest) as (Hall & Hsorted).
  split.
  - constructor; [repeat split; [exact Hslice | exact Hlo | lia] |].
    eapply Forall_impl; [| exact Hall].
    intros a (Ha & Hb & Hc). unfold endOffset in Hhi.
    repeat split; [exact Ha | lia | exact Hc].
  - constructor; [exact Hsorted |].
    eapply Forall_impl; [| exact Hall].
    intros a (_ & Hb & _). lia.
Qed.

(** X2. The text of every token in the token stream of an input is the
    piece of the input that starts at the offset of the token and has the
    length of the text; for a string token that is the text between the
    delimiters, and for the end token the empty text at the end of the
    input. *)
Theorem token_text_is_input_slice str toks :
  tokenize str = Ok toks ->
  Forall (fun tok =>
            String.substring (Token.position tok)
                             (String.length (Token.data tok)) str
            = Token.data tok) toks.
Proof.
  intro H.
  destruct (tokenizeLoop_within str _ _ _ (within_start str) H) as (Hall & _).
  eapply Forall_impl; [| exact Hall]. now intros a (Ha & _).
Qed.

Lemma token_text_is_input_slice_witness :
  exists toks,
    tokenize "x[1] == 'a b' // end" = Ok toks
    /\ length toks = 7
    /\ Forall (fun tok =>
                 String.substring (Token.position tok)
                                  (String.length (Token.data tok))
                                  "x[1] == 'a b' // end"
                 = Token.data tok) toks.
Proof.
  eexists. split; [run_eq | split; [reflexivity |]].
  apply (token_text_is_input_slice "x[1] == 'a b' // end"). run_eq.
Defined.

(** X3. The tokens of an input come in the order of the input and do not
    overlap: every token ends at or before the offset at which any later
    token of the stream starts, and no token reaches beyond the end of the
    input. *)
Theorem tokens_in_order_without_overlap str toks :
  tokenize str = Ok toks ->
  StronglySorted (fun a b => endOffset a <= Token.position b) toks
  /\ Forall (fun tok => endOffset tok <= String.length str) toks.
Proof.
  intro H.
  destruct (tokenizeLoop_within str _ _ _ (within_start str) H) as (Hall & Hsorted).
  split; [exact Hsorted |].
  eapply Forall_impl; [| exact Hall]. now intros a (_ & _ & Ha).
Qed.

Lemma tokens_in_order_without_overlap_witness :
  exists toks,
    tokenize "{{ a -> 'b', 1.5 }}" = Ok toks
    /\ length toks = 8
    /\ StronglySorted (fun a b => endOffset a <= Token.position b) toks
    /\ Forall (fun tok => endOffset tok <= 19) toks.
Proof.
  eexists. split; [run_eq | split; [reflexivity |]].
  apply (tokens_in_order_without_overlap "{{ a -> 'b', 1.5 }}"). run_eq.
Defined.

(** X4. The end token is only returned at the end of the input.  It has no
    text, its offset is the length of what was passed, and its line and
    column are those of the end of the input; asked again, the tokenizer
    returns the same end token, from the same state. *)
Theorem end_token_repeats st tok st' :
  emitToken st = Ok (tok, st') ->
  Token.type tok = ELToken.Eof ->
  cur st' = EmptyString
  /\ tok = Token.mk ELToken.Eof EmptyString (consumed st') (line st') (column st')
  /\ nextToken st' = Ok (tok, st')
  /\ peekToken st' = Ok (tok, st').
Proof.
  intros H Heof.
  apply emitToken_inv in H as (skipped & s0 & _ & [(Hend & -> & ->) | Hat]);
    [| now apply tokenAt_not_eof in Hat].
  assert (Hcur : cur s0 = EmptyString)
    by (unfold eof in Hend; destruct (cur s0); [reflexivity | discriminate]).
  assert (Hnext : emitToken s0
                  = Ok (Token.mk ELToken.Eof EmptyString
                                 (consumed s0) (line s0) (column s0), s0)).
  { unfold emitToken. rewrite Hcur. cbn [String.length emitTokenLoop].
    now rewrite Hend. }
  repeat split; try assumption.
  unfold peekToken. now rewrite Hnext.
Qed.

Lemma end_token_repeats_witness :
  nextToken (mkState "" 6 1 7 false)
  = Ok (Token.mk ELToken.Eof "" 6 1 7, mkState "" 6 1 7 false).
Proof.
  apply (end_token_repeats (mkState "  // x" 0 1 1 false)
                           (Token.mk ELToken.Eof "" 6 1 7)
                           (mkState "" 6 1 7 false));
    reflexivity.
Defined.


(* ================================================================== *)
(** ** The errors of the tokenizer *)

Lemma bind_throw_inv {A B} (m : M A) (k : A -> M B) st e :
  bind m k st = Throw e ->
  m st = Throw e \/ exists a st', m st = Ok (a, st') /\ k a st' = Throw e.
Proof.
  unfold bind. destruct (m st) as [[a s] | e' |]; [eauto | | discriminate].
  intros [= ->]. now left.
Qed.

Lemma advance_throws st e :
  advance st = Throw e -> eof st = true /\ e = UnexpectedEndOfFile.
Proof.
  unfold advance, eof. destruct (cur st); [| discriminate].
  intros [= <-]. now split.
Qed.

Lemma eof_curChar st : eof st = true -> curChar st = zero.
Proof. unfold eof, curChar. destruct (cur st); [reflexivity | discriminate]. Qed.

Lemma advanceN_throws n :
  forall st e, advanceN n st = Throw e -> e = UnexpectedEndOfFile.
Proof.
  induction n as [| n IH]; intros st e H; [discriminate H |].
  cbn [advanceN] in H. apply bind_throw_inv in H as [H | (u & s & _ & H)].
  - now apply advance_throws in H.
  - exact (IH _ _ H).
Qed.

Lemma advanceWhile_no_throw p n :
  forall st e, advanceWhile p n st <> Throw e.
Proof.
  induction n as [| n IH]; intros st e H; [discriminate H |].
  rewrite advanceWhile_S in H.
  destruct (negb (eof st) && p st) eqn:E; [| discriminate H].
  apply andb_prop in E as [E _]. apply negb_true_iff in E.
  apply bind_throw_inv in H as [H | (u & s & _ & H)].
  - apply advance_throws in H as [H _]. congruence.
  - exact (IH _ _ H).
Qed.

(** Where the current character is one that a scan has asked for, there is
    a character, and [advance] does not throw. *)
Lemma advance_on_char st e :
  advance st = Throw e -> curChar st <> zero -> False.
Proof.
  intros H Hc. apply advance_throws in H as [H _]. now apply eof_curChar in H.
Qed.

Lemma advance_then_digits_no_throw st e :
  (advance ;;; readDigits) st = Throw e -> curChar st <> zero -> False.
Proof.
  intros H Hc. apply bind_throw_inv in H as [H | (u & s & _ & H)].
  - exact (advance_on_char _ _ H Hc).
  - exact (advanceWhile_no_throw _ _ _ _ H).
Qed.

Lemma eqb_not_zero c d : (c =? d) = true -> d <> zero -> c <> zero.
Proof. intros H Hd. apply Ascii.eqb_eq in H. congruence. Qed.

Lemma readDecimal_no_throw delims st e : readDecimal delims st <> Throw e.
Proof.
  unfold readDecimal.
  destruct (negb (curChar st =? "+") && negb (curChar st =? "-")
            && negb (curChar st =? ".") && negb (isDigit (curChar st))) eqn:G;
    [discriminate |].
  assert (Hc : curChar st <> zero) by (intro Hz; rewrite Hz in G; discriminate G).
  intro H.
  apply bind_throw_inv in H as [H | (u1 & s1 & _ & H)].
  { destruct (negb (curChar st =? ".")); [| discriminate H].
    exact (advance_then_digits_no_throw _ _ H Hc). }
  rewrite bind_get in H.
  apply bind_throw_inv in H as [H | (u2 & s2 & _ & H)].
  { destruct (curChar s1 =? ".") eqn:E; [| discriminate H].
    apply (advance_then_digits_no_throw _ _ H).
    apply (eqb_not_zero _ _ E). discriminate. }
  rewrite bind_get in H.
  apply bind_throw_inv in H as [H | (u3 & s3 & _ & H)].
  { destruct (curChar s2 =? "e") eqn:E; [| discriminate H].
    apply bind_throw_inv in H as [H | (u & s & _ & H)].
    - apply (advance_on_char _ _ H). apply (eqb_not_zero _ _ E). discriminate.
    - rewrite bind_get in H.
      destruct ((curChar s =? "+") || (curChar s =? "-") || isDigit (curChar s)) eqn:E';
        [| discriminate H].
      apply (advance_then_digits_no_throw _ _ H).
      intro Hz. rewrite Hz in E'. discriminate E'. }
  rewrite bind_get in H.
  destruct (eof s3 || isAnyOf (curChar s3) delims); [discriminate H |].
  apply bind_throw_inv in H as [H | (u4 & s4 & _ & H)]; discriminate H.
Qed.

Lemma readInteger_no_throw delims st e : readInteger delims st <> Throw e.
Proof.
  unfold readInteger.
  destruct (negb (curChar st =? "+") && negb (curChar st =? "-")
            && negb (isDigit (curChar st))) eqn:G;
    [discriminate |].
  assert (Hc : curChar st <> zero) by (intro Hz; rewrite Hz in G; discriminate G).
  intro H.
  apply bind_throw_inv in H as [H | (u1 & s1 & _ & H)].
  { destruct ((curChar st =? "+") || (curChar st =? "-")); [| discriminate H].
    exact (advance_on_char _ _ H Hc). }
  apply bind_throw_inv in H as [H | (u2 & s2 & _ & H)].
  { exact (advanceWhile_no_throw _ _ _ _ H). }
  rewrite bind_get in H.
  destruct (eof s2 || isAnyOf (curChar s2) delims); [discriminate H |].
  apply bind_throw_inv in H as [H | (u4 & s4 & _ & H)]; discriminate H.
Qed.

(** Where the input starts with [str], as many characters as [str] has
    can be passed. *)
Lemma advanceN_startsWith str :
  forall st e, startsWith str (cur st) = true ->
               advanceN (String.length str) st <> Throw e.
Proof.
  induction str as [| a str IH]; intros st e Hs H; [discriminate H |].
  cbn [String.length advanceN] in H.
  destruct (cur st) as [| b rest] eqn:Hcur; [discriminate Hs |].
  cbn [startsWith] in Hs. apply andb_prop in Hs as [_ Hs].
  destruct (advance_char st b rest Hcur) as (s & Hadv & Hcur' & _).
  rewrite (bind_Ok _ _ _ _ _ Hadv) in H.
  apply (IH s e); [now rewrite Hcur' | exact H].
Qed.

Lemma discard_no_throw str st e : discard str st <> Throw e.
Proof.
  unfold discard. destruct (startsWith str (cur st)) eqn:E; [| discriminate].
  intro H. apply bind_throw_inv in H as [H | (u & s & _ & H)].
  - exact (advanceN_startsWith _ _ _ E H).
  - discriminate H.
Qed.

(** The only error of the end of the [default:] branch is the unexpected
    character: the character at which the token starts, with the line and
    column of that start. *)
Lemma emitNumberOrWord_throws c line column st e :
  emitNumberOrWord c line column st = Throw e ->
  e = UnexpectedCharacter (mkLocation line column) (curChar st).
Proof.
  unfold emitNumberOrWord. intro H.
  apply bind_throw_inv in H as [H | (e1 & s1 & H1 & H)];
    [now apply readDecimal_no_throw in H |].
  destruct e1 as [e1 |].
  { rewrite bind_get in H.
    destruct (negb (eof s1) && (curChar s1 =? ".") && negb (lookAhead s1 =? "."));
      [now injection H as <- | discriminate H]. }
  apply readDecimal_inv in H1 as [[_ ->] | [H1 _]]; [| discriminate H1].
  apply bind_throw_inv in H as [H | (e2 & s2 & H2 & H)];
    [now apply readInteger_no_throw in H |].
  destruct e2 as [e2 |]; [discriminate H |].
  apply readInteger_inv in H2 as [[_ ->] | [H2 _]]; [| discriminate H2].
  apply bind_throw_inv in H as [H | (e3 & s3 & H3 & H)];
    [now apply discard_no_throw in H |].
  destruct e3 as [e3 |]; [discriminate H |].
  apply discard_inv in H3 as [[_ ->] | [H3 _]]; [| discriminate H3].
  apply bind_throw_inv in H as [H | (e4 & s4 & H4 & H)];
    [now apply discard_no_throw in H |].
  destruct e4 as [e4 |]; [discriminate H |].
  apply discard_inv in H4 as [[_ ->] | [H4 _]]; [| discriminate H4].
  apply bind_throw_inv in H as [H | (e5 & s5 & H5 & H)];
    [now apply discard_no_throw in H |].
  destruct e5 as [e5 |]; [discriminate H |].
  apply discard_inv in H5 as [[_ ->] | [H5 _]]; [| discriminate H5].
  destruct (isLetter (curChar st) || (curChar st =? "_")) eqn:E;
    [| now injection H as <-].
  exfalso.
  apply bind_throw_inv in H as [H | (u & s & _ & H)].
  - apply (advance_on_char _ _ H). intro Hz. rewrite Hz in E. discriminate E.
  - rewrite bind_get in H.
    apply bind_throw_inv in H as [H | (u' & s' & _ & H)];
      [exact (advanceWhile_no_throw _ _ _ _ H) | discriminate H].
Qed.

Lemma readQuotedString_throws delim st e :
  readQuotedString delim st = Throw e -> e = UnexpectedEndOfFile.
Proof.
  unfold readQuotedString. intro H.
  apply bind_throw_inv in H as [H | (u & s & _ & H)];
    [now apply advanceWhile_no_throw in H |].
  rewrite bind_get in H. destruct (eof s) eqn:E; [now injection H as <- |].
  apply bind_throw_inv in H as [H | (u' & s' & _ & H)]; [| discriminate H].
  apply advance_throws in H as [H _]. congruence.
Qed.

Lemma bind_ret {A B} (a : A) (k : A -> M B) st : bind (ret a) k st = k a st.
Proof. reflexivity. Qed.

Lemma advanceN_2_no_throw st e :
  advanceN 2 st = Throw e -> curChar st <> zero -> lookAhead st <> zero -> False.
Proof.
  intros H Hc Hl. unfold curChar in Hc. unfold lookAhead in Hl.
  destruct (cur st) as [| c [| d rest]] eqn:Hcur; try congruence.
  cbn [advanceN] in H.
  destruct (advance_char st c _ Hcur) as (s & Hadv & Hcur' & _).
  rewrite (bind_Ok _ _ _ _ _ Hadv) in H.
  destruct (advance_char s d _ Hcur') as (s' & Hadv' & _).
  rewrite (bind_Ok _ _ _ _ _ Hadv') in H. discriminate H.
Qed.

Ltac not_zero Hc :=
  first
    [ rewrite Hc; discriminate
    | match goal with
      | E : (?c =? _) = true |- ?c <> zero =>
          apply (eqb_not_zero _ _ E); discriminate
      end ].

(** One step of taking apart a turn of [emitToken] that throws. *)
Ltac throw_step H Hc :=
  match type of H with
  | bind advance _ _ = Throw _ =>
      apply bind_throw_inv in H as [H | (? & ? & _ & H)];
      [ exfalso; apply (advance_on_char _ _ H); not_zero Hc | ]
  | bind (advanceN 2) _ _ = Throw _ =>
      apply bind_throw_inv in H as [H | (? & ? & _ & H)];
      [ first [ exfalso; apply (advanceN_2_no_throw _ _ H); not_zero Hc
              | apply advanceN_throws in H ]
      | ]
  | bind (discardUntil _) _ _ = Throw _ =>
      apply bind_throw_inv in H as [H | (? & ? & _ & H)];
      [ now apply advanceWhile_no_throw in H | ]
  | bind (discardWhile _) _ _ = Throw _ =>
      apply bind_throw_inv in H as [H | (? & ? & _ & H)];
      [ now apply advanceWhile_no_throw in H | ]
  | bind (readQuotedString _) _ _ = Throw _ =>
      apply bind_throw_inv in H as [H | (? & ? & _ & H)];
      [ apply readQuotedString_throws in H | ]
  | bind get _ _ = _ => rewrite bind_get in H
  | bind (ret _) _ _ = _ => rewrite bind_ret in H; cbv beta iota in H
  | bind (bind _ _) _ _ = _ => rewrite bind_assoc in H
  | bind (if ?b then _ else _) _ _ = _ => destruct b eqn:?
  | (if ?b then _ else _) _ = _ => destruct b eqn:?
  | ret _ _ = Throw _ => discriminate H
  end.

(* ================================================================== *)
(** ** Kinds and texts of tokens *)

Lemma token_make_data ty st text st' n :
  Span st text st' -> String.length text = n ->
  Token.make ty (curPos st) (plusChars (curPos st) n)
             (offset (curPos st)) (line st) (column st)
  = Token.mk ty text (consumed st) (line st) (column st).
Proof.
  intros Hspan <-. unfold Token.make. now rewrite (between_plus _ _ _ Hspan).
Qed.

Lemma token_string_data st s text s1 :
  Span s text s1 ->
  Token.make ELToken.String (curPos s) (curPos s1)
             (offset (curPos s)) (line st) (column st)
  = Token.mk ELToken.String text (consumed s) (line st) (column st).
Proof. intro H. unfold Token.make. now rewrite (between_span _ _ _ H). Qed.

Lemma span_lookAhead st a b text st' :
  Span st (String a (String b text)) st' -> lookAhead st = b.
Proof. intros [H _]. unfold lookAhead. now rewrite H. Qed.

Ltac made_token :=
  match goal with
  | H0 : Span ?s ?a ?s1, H2 : Span ?s1 ?b ?s2
    |- context [Token.make _ (curPos ?s) (plusChars (curPos ?s) 2)] =>
      rewrite (token_make_data _ _ _ _ 2 (span_trans _ _ _ _ _ H0 H2) eq_refl)
  | H0 : Span ?s ?a ?s1, H1 : String.length ?a = 2
    |- context [Token.make _ (curPos ?s) (plusChars (curPos ?s) 2)] =>
      rewrite (token_make_data _ _ _ _ 2 H0 H1)
  | H0 : Span ?s ?a ?s1
    |- context [Token.make _ (curPos ?s) (plusChars (curPos ?s) 1)] =>
      rewrite (token_make_data _ _ _ _ 1 H0 eq_refl)
  end.

Ltac known_chars Hc :=
  repeat match goal with
         | E : (_ =? _) = true |- _ => apply Ascii.eqb_eq in E
         end;
  repeat match goal with
         | E : curChar ?s = ?x |- _ => is_var x; subst x
         end;
  rewrite ?Hc;
  repeat match goal with
         | E : curChar _ = _ |- _ => rewrite E
         end.

(** The text of the token that a turn of [emitToken] returns goes with its
    kind. *)
Lemma emitTokenTurn_text st r st' :
  emitTokenTurn st = Ok (r, st') ->
  match r with Some tok => TextOfKind tok | None => True end.
Proof.
  unfold emitTokenTurn.
  destruct (curChar st) as [[] [] [] [] [] [] [] []] eqn:Hc;
    cbv beta iota zeta; intro H.
  all: repeat turn_step H Hc.
  all: try exact I.
  all: try (apply emitNumberOrWord_inv in H as (ty & text & -> & Hspan & Hty);
            unfold TextOfKind; cbn [Token.type Token.data]; rewrite Hc in Hty |- *;
            destruct Hty as [[-> Hn] | [[-> Hb] | [[-> Hb] | (-> & Hl & Hall)]]];
            [ first [ discriminate Hn | do 2 eexists; split; reflexivity ]
            | exact Hb | exact Hb
            | do 2 eexists; split; [reflexivity | split; assumption] ]).
  all: try (unfold TextOfKind, Token.make; exact I).
  all: try (made_token; unfold TextOfKind; cbn [Token.type Token.data]).
  all: try (known_chars Hc; reflexivity).
  all: match goal with
       | H0 : Span _ ?x _, H1 : String.length ?x = 2 |- _ =>
           destruct x as [| a [| b [|]]]; try discriminate H1;
           pose proof (span_first _ _ _ _ H0) as Ha;
           pose proof (span_lookAhead _ _ _ _ _ H0) as Hb;
           rewrite Hc in Ha; subst a
       end.
  - now exists b.
  - apply Ascii.eqb_eq in Heqb. rewrite Heqb in Hb. now subst b.
Qed.

Lemma emitTokenLoop_text n :
  forall st tok st', emitTokenLoop n st = Ok (tok, st') -> TextOfKind tok.
Proof.
  induction n as [| n IH]; intros st tok st' H.
  - cbn [emitTokenLoop] in H. destruct (eof st); [| discriminate H].
    now injection H as <- <-.
  - rewrite emitTokenLoop_S in H. destruct (eof st); [now injection H as <- <- |].
    apply bind_inv in H as (r & s & Hturn & H).
    apply emitTokenTurn_text in Hturn. destruct r as [t |].
    + now injection H as <- <-.
    + exact (IH _ _ _ H).
Qed.

(** X6. Every name token is an identifier: its text starts with a letter
    or an underscore, and goes on with letters, digits and underscores
    only. *)
Theorem name_token_is_identifier st tok st' :
  nextToken st = Ok (tok, st') ->
  Token.type tok = ELToken.Name ->
  exists c text,
    Token.data tok = String c text
    /\ isLetter c || (c =? "_") = true
    /\ allChars isNameChar text = true.
Proof.
  intros H Hty. apply emitTokenLoop_text in H.
  unfold TextOfKind in H. now rewrite Hty in H.
Qed.

Lemma name_token_is_identifier_witness :
  exists c text,
    "_tb_2x"%string = String c text
    /\ isLetter c || (c =? "_") = true
    /\ allChars isNameChar text = true.
Proof.
  apply (name_token_is_identifier
           (ELTokenizer " _tb_2x-1")
           (Token.mk ELToken.Name "_tb_2x" 1 1 2)
           (mkState "-1" 7 1 8 false));
    reflexivity.
Defined.

(** X7. No number token starts with a sign.  The scans for decimals and
    integers accept a sign, but the characters [+] and [-] have cases of
    their own in the switch and are never the start of a number: the text
    of every number token starts with a digit or with a point. *)
Theorem number_token_has_no_sign st tok st' :
  nextToken st = Ok (tok, st') ->
  Token.type tok = ELToken.Number ->
  exists c text,
    Token.data tok = String c text /\ isDigit c || (c =? ".") = true.
Proof.
  intros H Hty. apply emitTokenLoop_text in H.
  unfold TextOfKind in H. now rewrite Hty in H.
Qed.

Lemma number_token_has_no_sign_witness :
  lexemes (tokenize "-5")
  = Ok [(ELToken.Subtraction, "-"%string); (ELToken.Number, "5"%string);
        (ELToken.Eof, EmptyString)]
  /\ exists c text,
       "5"%string = String c text /\ isDigit c || (c =? ".") = true.
Proof.
  split; [reflexivity |].
  apply (number_token_has_no_sign
           (mkState "5" 1 1 2 false)
           (Token.mk ELToken.Number "5" 1 1 2)
           (mkState "" 2 1 3 false));
    reflexivity.
Defined.

(** X8. For the delimiters, the operators other than the comparison [==],
    and [null], the name that [tokenNames] lists for the kind of a token is
    the text of the token in single quotes: the two tables, of the
    characters that [emitToken] reads and of the names that errors show,
    agree. *)
Theorem token_names_quote_token_text st tok st' name :
  nextToken st = Ok (tok, st') ->
  Token.hasType tok [ELToken.Name; ELToken.String; ELToken.Number;
                     ELToken.Boolean; ELToken.Eof; ELToken.Equal] = false ->
  tokenNameOf (Token.type tok) = Some name ->
  name = inQuotes (Token.data tok).
Proof.
  intros H Hty Hname. apply emitTokenLoop_text in H.
  unfold TextOfKind in H. unfold Token.hasType in Hty.
  destruct (Token.type tok); try discriminate Hty;
    try (rewrite H in Hname; now injection Hname as <-).
  - cbv in Hname. discriminate Hname.
  - rewrite H. now injection Hname as <-.
Qed.

Lemma token_names_quote_token_text_witness :
  "'>>'"%string = inQuotes ">>".
Proof.
  apply (token_names_quote_token_text
           (ELTokenizer ">>= 1")
           (Token.mk ELToken.BitwiseShiftRight ">>" 0 1 1)
           (mkState "= 1" 2 1 3 false));
    reflexivity.
Defined.

(** X9. The map of [tokenNames] has one entry for each kind of token but
    one: no kind is listed twice, no two kinds share a name, and the only
    kind without a name is the token of [^]. *)
Theorem token_names_cover_all_but_xor :
  NoDup (map fst tokenNames)
  /\ NoDup (map snd tokenNames)
  /\ (forall ty, tokenNameOf ty = None <-> ty = ELToken.BitwiseXOr)
  /\ (forall rest consumed line column escaped,
         exists tok st',
           nextToken (mkState (String "^" rest) consumed line column escaped)
           = Ok (tok, st')
           /\ tokenNameOf (Token.type tok) = None).
Proof.
  split; [| split; [| split]].
  - apply (NoDup_count_occ' ELToken.eq_dec). intros ty Hin.
    simpl in Hin. decompose [or] Hin; try contradiction; subst; reflexivity.
  - apply (NoDup_count_occ' string_dec). intros name Hin.
    simpl in Hin. decompose [or] Hin; try contradiction; subst; reflexivity.
  - intro ty. split.
    + destruct ty; try discriminate; reflexivity.
    + now intros ->.
  - intros. do 2 eexists. split; [reflexivity | reflexivity].
Qed.


(* ================================================================== *)
(** ** Induction over the member functions of the parser *)

Section ParserInduction.

Variable P : forall A : Type, M A -> Prop.

Hypothesis P_ret : forall A (a : A), P A (ret a).
Hypothesis P_outOfFuel : forall A, P A outOfFuel.
Hypothesis P_bind :
  forall A B (m : M A) (k : A -> M B),
    P A m -> (forall a, P B (k a)) -> P B (bind m k).
Hypothesis P_expect :
  forall B mask tok (k : Token.t -> M B),
    (Token.hasType tok mask = true -> P B (k tok)) ->
    P B (bind (expect mask tok) k).
Hypothesis P_nextToken : P _ nextToken.
Hypothesis P_peekToken : P _ peekToken.

Ltac parsers_tac :=
  repeat first
    [ assumption
    | apply P_ret | apply P_nextToken | apply P_peekToken
    | match goal with H : forall _, P _ _ |- _ => apply H end
    | apply P_expect; intro
    | apply P_bind; [ | intro ]
    | match goal with
      | |- P _ (if ?b then _ else _) => destruct b eqn:?
      | |- P _ (match ?x with _ => _ end) => destruct x eqn:?
      end
    | match goal with
      | H : Token.hasType ?tok _ = true |- P _ (throw _) =>
          exfalso; unfold Token.hasType in H;
          destruct (Token.type tok); discriminate
      end ].

(** A property of computations that the operations of the parser keep
    holds of all member functions, at every fuel. *)
Lemma all_parsers : forall n, AllParsers P n.
Proof.
  induction n as [| n IH].
  - unfold AllParsers; repeat split; intros; apply P_outOfFuel.
  - destruct IH as (H1 & H2 & H3 & H4 & H5 & H6 & H7 & H8 & H9 & H10 & H11
                    & H12 & H13 & H14 & H15 & H16 & H17 & H18 & H19 & H20).
    unfold AllParsers; repeat split; intros.
    + rewrite parseExpression_S. unfold parseExpressionBody. parsers_tac.
    + rewrite parseGroupedTerm_S. unfold parseGroupedTermBody. parsers_tac.
    + rewrite parseTerm_S. unfold parseTermBody. parsers_tac.
    + rewrite parseSimpleTermOrSwitch_S. unfold parseSimpleTermOrSwitchBody. parsers_tac.
    + rewrite parseSimpleTermOrSubscript_S. unfold parseSimpleTermOrSubscriptBody. parsers_tac.
    + rewrite subscriptLoop_S. unfold subscriptLoopBody. parsers_tac.
    + rewrite parseSimpleTerm_S. unfold parseSimpleTermBody, parseVariable. parsers_tac.
    + rewrite parseSubscript_S. unfold parseSubscriptBody. parsers_tac.
    + rewrite subscriptElements_S. unfold subscriptElementsBody. parsers_tac.
    + rewrite parseLiteral_S. unfold parseLiteralBody. parsers_tac.
    + rewrite parseArray_S. unfold parseArrayBody. parsers_tac.
    + rewrite arrayElements_S. unfold arrayElementsBody. parsers_tac.
    + rewrite parseExpressionOrBoundedRange_S. unfold parseExpressionOrBoundedRangeBody. parsers_tac.
    + rewrite parseExpressionOrAnyRange_S. unfold parseExpressionOrAnyRangeBody. parsers_tac.
    + rewrite parseMap_S. unfold parseMapBody. parsers_tac.
    + rewrite mapElements_S. unfold mapElementsBody. parsers_tac.
    + rewrite parseUnaryOperator_S. unfold parseUnaryOperatorBody. parsers_tac.
    + rewrite parseSwitch_S. unfold parseSwitchBody. parsers_tac.
    + rewrite switchElements_S. unfold switchElementsBody. parsers_tac.
    + rewrite parseCompoundTerm_S. unfold parseCompoundTermBody. parsers_tac.
Qed.

End ParserInduction.

(* ================================================================== *)
(** ** The parser moves forward *)

Lemma forward_bind A B (m : M A) (k : A -> M B) :
  Forward A m -> (forall a, Forward B (k a)) -> Forward B (bind m k).
Proof.
  intros Hm Hk st b st' H. apply bind_inv in H as (a & s & H1 & H2).
  destruct (Hm _ _ _ H1) as (t1 & Ht1). destruct (Hk _ _ _ _ H2) as (t2 & Ht2).
  exists (t1 ++ t2)%string. exact (span_trans _ _ _ _ _ Ht1 Ht2).
Qed.

Lemma forward_expect B mask tok (k : Token.t -> M B) :
  (Token.hasType tok mask = true -> Forward B (k tok)) ->
  Forward B (bind (expect mask tok) k).
Proof.
  intros Hk st b st' H. apply expect_inv in H as [Hty H].
  exact (Hk Hty _ _ _ H).
Qed.

Lemma forward_nextToken : Forward _ nextToken.
Proof.
  intros st tok st' H.
  apply emitToken_inv in H as (skipped & s0 & Hskip & [(_ & -> & _) | Hat]).
  - now exists skipped.
  - apply tokenAt_span in Hat as (c & text & Hspan).
    eexists. exact (span_trans _ _ _ _ _ Hskip Hspan).
Qed.

Lemma forward_peekToken : Forward _ peekToken.
Proof.
  intros st tok st' H. apply peek_keeps_state in H as ->.
  exists EmptyString. apply span_refl.
Qed.

(** X11. The parser only moves forward through its input.  Where [parse]
    returns, in either mode, the state of the tokenizer that
    [tokenizerState] hands out stands inside the input: what is still
    unread is the end of the input, and the offset is the number of
    characters before it. *)
Theorem parser_stays_within_input mode fuel str e st' :
  parse mode fuel (ELTokenizer str) = Ok (e, st') ->
  exists passed,
    str = (passed ++ cur st')%string /\ consumed st' = String.length passed.
Proof.
  intro H.
  assert (Hall : AllParsers Forward fuel).
  { apply all_parsers.
    - intros A a s0 x s [= _ <-]. exists EmptyString. apply span_refl.
    - intros A s0 x s H'. discriminate H'.
    - exact forward_bind.
    - exact forward_expect.
    - exact forward_nextToken.
    - exact forward_peekToken. }
  destruct Hall as (Hexpr & _).
  assert (Hparse : Forward _ (parse mode fuel)).
  { unfold parse. apply forward_bind; [exact Hexpr |].
    intro result. destruct mode.
    - apply forward_bind; [exact forward_peekToken |].
      intro tok. apply forward_expect.
      intros _ s0 x s [= _ <-]. exists EmptyString. apply span_refl.
    - intros s0 x s [= _ <-]. exists EmptyString. apply span_refl. }
  destruct (Hparse _ _ _ H) as (text & Hspan).
  exact (within_span _ _ _ _ (within_start str) Hspan).
Qed.

Lemma parser_stays_within_input_witness :
  exists passed,
    "x[1] tail"%string = (passed ++ " tail")%string
    /\ 4 = String.length passed.
Proof.
  apply (parser_stays_within_input
           Lenient 20 "x[1] tail"
           (EL.SubscriptExpression
              (EL.VariableExpression "x" (mkLocation 1 1))
              (EL.LiteralExpression (EL.Number "1") (mkLocation 1 3))
              (mkLocation 1 2))
           (mkState " tail" 4 1 5 false)).
  reflexivity.
Defined.

(* ================================================================== *)
(** ** More fuel, for the other member functions *)

Lemma parseExpressionOrBoundedRange_monotone :
  Monotone parseExpressionOrBoundedRange.
Proof. intro n. apply (step_refines n). Qed.

Lemma parseArray_monotone : Monotone parseArray.
Proof. intro n. apply (step_refines n). Qed.

Lemma parseSwitch_monotone : Monotone parseSwitch.
Proof. intro n. apply (step_refines n). Qed.

Lemma parseUnaryOperator_monotone : Monotone parseUnaryOperator.
Proof. intro n. apply (step_refines n). Qed.

Lemma parseLiteral_monotone : Monotone parseLiteral.
Proof. intro n. apply (step_refines n). Qed.

Lemma mapElements_monotone l : Monotone (fun n => mapElements n l).
Proof. intro n. apply (step_refines n). Qed.

(* ================================================================== *)
(** ** Groups *)

(** X12. A term in parentheses takes the binary operators that follow the
    closing parenthesis into a chain of its own: [parseGroupedTerm] returns
    the group with all that chain, nested to the left.  So a group that
    stands after an operator, with more operators after it, is the right
    operand together with everything after it: [1 + (2) * 3] is the sum of
    [1] and [(2) * 3], where [1 + 2 * 3] is the product of [1 + 2] and
    [3]. *)
Theorem group_takes_the_chain_after_it
        st opening st1 e st2 closing st3 tail st4 tokEnd :
  nextToken st = Ok (opening, st1) ->
  Token.type opening = ELToken.OParen ->
  Yields parseTerm st1 (Ok (e, st2)) ->
  nextToken st2 = Ok (closing, st3) ->
  Token.type closing = ELToken.CParen ->
  CompoundTail st3 tail st4 ->
  peekToken st4 = Ok (tokEnd, st4) ->
  Token.hasType tokEnd ELToken.CompoundTerm = false ->
  Yields parseGroupedTerm st
         (Ok (leftChain (EL.UnaryExpression EL.Group e (Token.location opening))
                        tail, st4))
  /\ Yields parseSimpleTerm st
            (Ok (leftChain (EL.UnaryExpression EL.Group e (Token.location opening))
                           tail, st4)).
Proof.
  intros Hopen Hoty [n1 Hn1] Hclose Hcty Htail Hpeek Hend.
  destruct (compound_tail_yields _ _ _ _ Htail Hpeek Hend
              (EL.UnaryExpression EL.Group e (Token.location opening)))
    as [n2 Hn2].
  assert (Hgroup : forall m, S (Nat.max n1 n2) <= m ->
             parseGroupedTerm m st
             = Ok (leftChain (EL.UnaryExpression EL.Group e
                                (Token.location opening)) tail, st4)).
  { intros [| m] Hm; [lia |].
    rewrite parseGroupedTerm_S. unfold parseGroupedTermBody.
    step_with Hopen. expect_ok.
    step_with (Hn1 m ltac:(lia)).
    step_with Hclose. expect_ok.
    inversion Htail
      as [s E1 E2 E3
         | s token s1 op rhs s2 rest s3 Hnext Hty Hop Hrhs Hrest E1 E2 E3];
      subst.
    - step_with Hpeek. now rewrite Hend.
    - step_with (peek_of_next _ _ _ Hnext). rewrite Hty. apply Hn2. lia. }
  split.
  - exists (S (Nat.max n1 n2)). exact Hgroup.
  - exists (S (S (Nat.max n1 n2))). intros [| m] Hm; [lia |].
    rewrite parseSimpleTerm_S. unfold parseSimpleTermBody.
    step_with (peek_of_next _ _ _ Hopen).
    assert (Hsimple : Token.hasType opening ELToken.SimpleTerm = true)
      by (unfold Token.hasType; now rewrite Hoty).
    step_with (expect_Ok _ _ st Hsimple).
    assert (Token.hasType opening ELToken.UnaryOperator = false) as ->
        by (unfold Token.hasType; now rewrite Hoty).
    rewrite (proj2 (hasType_single _ _) Hoty).
    apply Hgroup. lia.
Qed.

Lemma group_takes_the_chain_after_it_witness :
  Yields parseSimpleTerm (mkState "(2) * 3" 4 1 5 false)
         (Ok (EL.BinaryExpression EL.Multiplication
                (EL.UnaryExpression EL.Group
                   (EL.LiteralExpression (EL.Number "2") (mkLocation 1 6))
                   (mkLocation 1 5))
                (EL.LiteralExpression (EL.Number "3") (mkLocation 1 11))
                (mkLocation 1 9),
              mkState "" 11 1 12 false))
  /\ parseStrict 20 "1 + (2) * 3" = Ok one_plus_group_two_times_three
  /\ evaluate one_plus_group_two_times_three = Some 7%Z
  /\ parseStrict 20 "1 + 2 * 3" = Ok one_plus_two_times_three
  /\ evaluate one_plus_two_times_three = Some 9%Z.
Proof.
  split; [| repeat split; reflexivity].
  refine (proj2 (group_takes_the_chain_after_it
                   (mkState "(2) * 3" 4 1 5 false)
                   (Token.mk ELToken.OParen "(" 4 1 5)
                   (mkState "2) * 3" 5 1 6 false)
                   (EL.LiteralExpression (EL.Number "2") (mkLocation 1 6))
                   (mkState ") * 3" 6 1 7 false)
                   (Token.mk ELToken.CParen ")" 6 1 7)
                   (mkState " * 3" 7 1 8 false)
                   [(Token.mk ELToken.Multiplication "*" 8 1 9, EL.Multiplication,
                     EL.LiteralExpression (EL.Number "3") (mkLocation 1 11))]
                   (mkState "" 11 1 12 false)
                   (Token.mk ELToken.Eof "" 11 1 12)
                   _ _ _ _ _ _ _ _)).
  - run_eq.
  - reflexivity.
  - yields_by 12 parseTerm_monotone.
  - run_eq.
  - reflexivity.
  - eapply tail_step;
      [ run_eq | reflexivity | reflexivity
      | yields_by 12 parseSimpleTermOrSwitch_monotone | ].
    apply tail_end.
  - run_eq.
  - reflexivity.
Defined.

(* ================================================================== *)
(** ** Lists of elements: arrays and switches *)

(** A loop that reads elements and commas up to the closing token returns
    the elements in the order in which they are written, after the ones it
    was given. *)
Lemma listed_yields (element : nat -> M EL.ExpressionNode)
      (loop : nat -> list EL.ExpressionNode -> M (list EL.ExpressionNode))
      closing :
  closing <> ELToken.Comma ->
  (forall n acc,
      loop (S n) acc
      = (e <- element n ;;
         next <- nextToken ;;
         next <- expect [ELToken.Comma; closing] next ;;
         if Token.hasType next [ELToken.Comma] then loop n (acc ++ [e])%list
         else ret (acc ++ [e])%list)) ->
  forall st es st',
    Listed element closing st es st' ->
    forall acc, Yields (fun n => loop n acc) st (Ok ((acc ++ es)%list, st')).
Proof.
  intros Hclosing Hloop st es st'.
  induction 1 as [st e st1 tok st2 [n Hn] Hnext Hty
                 | st e st1 comma st2 es st3 [n Hn] Hnext Hty _ IH];
    intro acc.
  - exists (S n). intros [| m] Hm; [lia |].
    rewrite Hloop. step_with (Hn m ltac:(lia)). step_with Hnext.
    assert (Hmask : Token.hasType tok [ELToken.Comma; closing] = true).
    { unfold Token.hasType, ELToken.member. cbn [existsb].
      rewrite Hty. unfold ELToken.eqb at 2.
      destruct (ELToken.eq_dec closing closing); [| congruence].
      now rewrite orb_true_r. }
    step_with (expect_Ok _ _ st2 Hmask).
    assert (Token.hasType tok [ELToken.Comma] = false) as ->
        by (apply hasType_single_false; congruence).
    reflexivity.
  - destruct (IH (acc ++ [e])%list) as [n' Hn'].
    exists (S (Nat.max n n')). intros [| m] Hm; [lia |].
    rewrite Hloop. step_with (Hn m ltac:(lia)). step_with Hnext.
    assert (Hmask : Token.hasType comma [ELToken.Comma; closing] = true)
      by (unfold Token.hasType; now rewrite Hty).
    step_with (expect_Ok _ _ st2 Hmask).
    rewrite (proj2 (hasType_single _ _) Hty).
    rewrite Hn' by lia. now rewrite <- app_assoc.
Qed.

Lemma bounded_range_first n st r :
  parseExpressionOrBoundedRange n st = Ok r ->
  exists tok,
    peekToken st = Ok (tok, st)
    /\ Token.hasType tok ([ELToken.OParen] ++ ELToken.SimpleTerm
                          ++ [ELToken.DoubleOBrace])%list = true.
Proof.
  destruct n as [| n]; [discriminate |].
  rewrite parseExpressionOrBoundedRange_S. unfold parseExpressionOrBoundedRangeBody.
  intro H. apply bind_inv in H as (a & s & Ha & _).
  exact (expression_first _ _ _ Ha).
Qed.

(** X13. An array literal is the array of its elements, in the order in
    which they are written, at the location of the opening bracket; the
    brackets with nothing between them are the array without elements.  An
    array with one element is an array still: other than the index of a
    subscript, a single element is not taken out of its brackets. *)
Theorem array_literal_elements st opening st1 :
  nextToken st = Ok (opening, st1) ->
  Token.type opening = ELToken.OBracket ->
  (forall es st2,
      Listed parseExpressionOrBoundedRange ELToken.CBracket st1 es st2 ->
      Yields parseArray st
             (Ok (EL.ArrayExpression es (Token.location opening), st2)))
  /\ (forall closing st2,
         nextToken st1 = Ok (closing, st2) ->
         Token.type closing = ELToken.CBracket ->
         Yields parseArray st
                (Ok (EL.ArrayExpression [] (Token.location opening), st2))).
Proof.
  intros Hnext Hopen. split.
  - intros es st2 Hlisted.
    assert (Hfirst : exists tok, peekToken st1 = Ok (tok, st1)
                                 /\ Token.hasType tok [ELToken.CBracket] = false).
    { assert (H : exists e s, Yields parseExpressionOrBoundedRange st1 (Ok (e, s)))
        by (inversion Hlisted; subst; eauto).
      destruct H as (e & s & [n Hn]).
      destruct (bounded_range_first _ _ _ (Hn n (Nat.le_refl n)))
        as (tok & Hpeek & Hty).
      exists tok. split; [exact Hpeek |].
      unfold Token.hasType in *.
      destruct (Token.type tok); try discriminate; reflexivity. }
    destruct Hfirst as (tok & Hpeek & Hnot).
    destruct (listed_yields parseExpressionOrBoundedRange arrayElements
                ELToken.CBracket ltac:(discriminate)
                ltac:(intros; reflexivity) _ _ _ Hlisted [])
      as [n Hn].
    exists (S n). intros [| m] Hm; [lia |].
    rewrite parseArray_S. unfold parseArrayBody.
    step_with Hnext. expect_ok. step_with Hpeek. rewrite Hnot. cbn [negb].
    now step_with (Hn m ltac:(lia)).
  - intros closing st2 Hclose Hcty.
    exists 1. intros [| m] Hm; [lia |].
    rewrite parseArray_S. unfold parseArrayBody.
    step_with Hnext. expect_ok.
    step_with (peek_of_next _ _ _ Hclose).
    rewrite (proj2 (hasType_single _ _) Hcty). cbn [negb].
    rewrite bind_assoc. now step_with Hclose.
Qed.

Lemma array_literal_elements_witness :
  Yields parseArray (ELTokenizer "[7]")
         (Ok (EL.ArrayExpression
                [EL.LiteralExpression (EL.Number "7") (mkLocation 1 2)]
                (mkLocation 1 1),
              mkState "" 3 1 4 false))
  /\ Yields parseArray (ELTokenizer "[ ]")
            (Ok (EL.ArrayExpression [] (mkLocation 1 1),
                 mkState "" 3 1 4 false)).
Proof.
  destruct (array_literal_elements
              (ELTokenizer "[7]") (Token.mk ELToken.OBracket "[" 0 1 1)
              (mkState "7]" 1 1 2 false)) as [Hsome _]; [run_eq | reflexivity |].
  destruct (array_literal_elements
              (ELTokenizer "[ ]") (Token.mk ELToken.OBracket "[" 0 1 1)
              (mkState " ]" 1 1 2 false)) as [_ Hnone]; [run_eq | reflexivity |].
  split.
  - apply Hsome.
    eapply listed_last with (st1 := mkState "]" 2 1 3 false);
      [ yields_by 12 parseExpressionOrBoundedRange_monotone | run_eq | reflexivity ].
  - apply (Hnone (Token.mk ELToken.CBracket "]" 2 1 3)); [run_eq | reflexivity].
Defined.

(** Where the next token starts no expression, [parseExpression] throws
    the error of that token. *)
Lemma expression_not_started st tok :
  peekToken st = Ok (tok, st) ->
  Token.hasType tok ([ELToken.OParen] ++ ELToken.SimpleTerm
                     ++ [ELToken.DoubleOBrace])%list = false ->
  forall m, 2 <= m ->
    parseExpression m st
    = Throw (ExpectedToken (Token.location tok)
                           (ELToken.SimpleTerm ++ [ELToken.DoubleOBrace])%list tok).
Proof.
  intros Hpeek Hty [| [| m]] Hm; try lia.
  assert (Hparen : Token.hasType tok [ELToken.OParen] = false)
    by (unfold Token.hasType in *; destruct (Token.type tok);
        try discriminate; reflexivity).
  assert (Hterm : Token.hasType tok (ELToken.SimpleTerm ++ [ELToken.DoubleOBrace])%list
                  = false)
    by (unfold Token.hasType in *; destruct (Token.type tok);
        try discriminate; reflexivity).
  rewrite parseExpression_S. unfold parseExpressionBody.
  step_with Hpeek. rewrite Hparen.
  rewrite parseTerm_S. unfold parseTermBody.
  step_with Hpeek.
  now rewrite (bind_Throw _ _ _ _ (expect_Throw _ _ _ Hterm)).
Qed.

(** X14. An element of an array literal is an expression or a range with
    both bounds.  An expression [a], a range token and an expression [b]
    are the bounded range of [a] and [b], at the location of the range
    token.  The open ranges that a subscript takes are errors here: after
    [a] and a range token the upper bound is asked for, and a range token
    first is not the start of an element. *)
Theorem array_elements_take_bounded_ranges_only :
  (forall st a st1 range st2 b st3,
      Yields parseExpression st (Ok (a, st1)) ->
      nextToken st1 = Ok (range, st2) ->
      Token.type range = ELToken.Range ->
      Yields parseExpression st2 (Ok (b, st3)) ->
      Yields parseExpressionOrBoundedRange st
             (Ok (EL.BinaryExpression EL.BoundedRange a b (Token.location range),
                  st3)))
  /\ (forall st a st1 range st2 tok,
         Yields parseExpression st (Ok (a, st1)) ->
         nextToken st1 = Ok (range, st2) ->
         Token.type range = ELToken.Range ->
         peekToken st2 = Ok (tok, st2) ->
         Token.hasType tok ([ELToken.OParen] ++ ELToken.SimpleTerm
                            ++ [ELToken.DoubleOBrace])%list = false ->
         Yields parseExpressionOrBoundedRange st
                (Throw (ExpectedToken
                          (Token.location tok)
                          (ELToken.SimpleTerm ++ [ELToken.DoubleOBrace])%list
                          tok)))
  /\ (forall st range st1,
         nextToken st = Ok (range, st1) ->
         Token.type range = ELToken.Range ->
         Yields parseExpressionOrBoundedRange st
                (Throw (ExpectedToken
                          (Token.location range)
                          (ELToken.SimpleTerm ++ [ELToken.DoubleOBrace])%list
                          range))).
Proof.
  split; [| split].
  - intros st a st1 range st2 b st3 [n1 Hn1] Hnext Hty [n2 Hn2].
    exists (S (Nat.max n1 n2)). intros [| m] Hm; [lia |].
    rewrite parseExpressionOrBoundedRange_S. unfold parseExpressionOrBoundedRangeBody.
    step_with (Hn1 m ltac:(lia)).
    step_with (peek_of_next _ _ _ Hnext).
    rewrite (proj2 (hasType_single _ _) Hty).
    step_with Hnext. now step_with (Hn2 m ltac:(lia)).
  - intros st a st1 range st2 tok [n1 Hn1] Hnext Hty Hpeek Hnot.
    exists (S (Nat.max n1 2)). intros [| m] Hm; [lia |].
    rewrite parseExpressionOrBoundedRange_S. unfold parseExpressionOrBoundedRangeBody.
    step_with (Hn1 m ltac:(lia)).
    step_with (peek_of_next _ _ _ Hnext).
    rewrite (proj2 (hasType_single _ _) Hty).
    step_with Hnext.
    now rewrite (bind_Throw _ _ _ _
                   (expression_not_started _ _ Hpeek Hnot m ltac:(lia))).
  - intros st range st1 Hnext Hty.
    exists 3. intros [| m] Hm; [lia |].
    rewrite parseExpressionOrBoundedRange_S. unfold parseExpressionOrBoundedRangeBody.
    apply bind_Throw.
    apply (expression_not_started _ _ (peek_of_next _ _ _ Hnext)); [| lia].
    unfold Token.hasType. now rewrite Hty.
Qed.

Lemma array_elements_take_bounded_ranges_only_witness :
  Yields parseExpressionOrBoundedRange (mkState "1..3]" 1 1 2 false)
         (Ok (EL.BinaryExpression EL.BoundedRange
                (EL.LiteralExpression (EL.Number "1") (mkLocation 1 2))
                (EL.LiteralExpression (EL.Number "3") (mkLocation 1 5))
                (mkLocation 1 3),
              mkState "]" 5 1 6 false))
  /\ Yields parseExpressionOrBoundedRange (mkState "1..]" 1 1 2 false)
            (Throw (ExpectedToken
                      (mkLocation 1 5)
                      (ELToken.SimpleTerm ++ [ELToken.DoubleOBrace])%list
                      (Token.mk ELToken.CBracket "]" 4 1 5)))
  /\ Yields parseExpressionOrBoundedRange (mkState "..3]" 1 1 2 false)
            (Throw (ExpectedToken
                      (mkLocation 1 2)
                      (ELToken.SimpleTerm ++ [ELToken.DoubleOBrace])%list
                      (Token.mk ELToken.Range ".." 1 1 2))).
Proof.
  destruct array_elements_take_bounded_ranges_only as (Hboth & Hleft & Hright).
  split; [| split].
  - apply (Hboth _ _ (mkState "..3]" 2 1 3 false)
                 (Token.mk ELToken.Range ".." 2 1 3)
                 (mkState "3]" 4 1 5 false));
      [ yields_by 12 parseExpression_monotone | run_eq | reflexivity
      | yields_by 12 parseExpression_monotone ].
  - apply (Hleft _ (EL.LiteralExpression (EL.Number "1") (mkLocation 1 2))
                 (mkState "..]" 2 1 3 false)
                 (Token.mk ELToken.Range ".." 2 1 3)
                 (mkState "]" 4 1 5 false)
                 (Token.mk ELToken.CBracket "]" 4 1 5));
      [ yields_by 12 parseExpression_monotone | run_eq | reflexivity
      | run_eq | reflexivity ].
  - apply (Hright _ (Token.mk ELToken.Range ".." 1 1 2)
                  (mkState "3]" 3 1 4 false)); [run_eq | reflexivity].
Defined.

(** X15. A switch is the list of its cases, in the order in which they are
    written, at the location of the opening braces, and the braces with
    nothing between them are the switch without cases.  The first case
    has to start with the first token of a simple term: anything else
    after the opening braces, also the opening braces of a switch inside
    the switch, is an error, although such a switch is an expression
    elsewhere. *)
Theorem switch_cases st opening st1 :
  nextToken st = Ok (opening, st1) ->
  Token.type opening = ELToken.DoubleOBrace ->
  (forall first es st2,
      peekToken st1 = Ok (first, st1) ->
      Token.hasType first ELToken.SimpleTerm = true ->
      Listed parseExpression ELToken.DoubleCBrace st1 es st2 ->
      Yields parseSwitch st
             (Ok (EL.SwitchExpression es (Token.location opening), st2)))
  /\ (forall closing st2,
         nextToken st1 = Ok (closing, st2) ->
         Token.type closing = ELToken.DoubleCBrace ->
         Yields parseSwitch st
                (Ok (EL.SwitchExpression [] (Token.location opening), st2)))
  /\ (forall first,
         peekToken st1 = Ok (first, st1) ->
         Token.hasType first (ELToken.SimpleTerm ++ [ELToken.DoubleCBrace])%list
         = false ->
         Yields parseSwitch st
                (Throw (ExpectedToken
                          (Token.location first)
                          (ELToken.SimpleTerm ++ [ELToken.DoubleCBrace])%list
                          first))).
Proof.
  intros Hnext Hopen. split; [| split].
  - intros first es st2 Hpeek Hfirst Hlisted.
    destruct (listed_yields parseExpression switchElements
                ELToken.DoubleCBrace ltac:(discriminate)
                ltac:(intros; reflexivity) _ _ _ Hlisted [])
      as [n Hn].
    exists (S n). intros [| m] Hm; [lia |].
    rewrite parseSwitch_S. unfold parseSwitchBody.
    step_with Hnext. expect_ok. step_with Hpeek.
    assert (Hmask : Token.hasType first
                      (ELToken.SimpleTerm ++ [ELToken.DoubleCBrace])%list = true)
      by (unfold Token.hasType in *; destruct (Token.type first);
          try discriminate; reflexivity).
    step_with (expect_Ok _ _ st1 Hmask). rewrite Hfirst.
    now step_with (Hn m ltac:(lia)).
  - intros closing st2 Hclose Hcty.
    exists 1. intros [| m] Hm; [lia |].
    rewrite parseSwitch_S. unfold parseSwitchBody.
    step_with Hnext. expect_ok.
    step_with (peek_of_next _ _ _ Hclose).
    assert (Hmask : Token.hasType closing
                      (ELToken.SimpleTerm ++ [ELToken.DoubleCBrace])%list = true)
      by (unfold Token.hasType; now rewrite Hcty).
    step_with (expect_Ok _ _ st1 Hmask).
    assert (Token.hasType closing ELToken.SimpleTerm = false) as ->
        by (unfold Token.hasType; now rewrite Hcty).
    rewrite (proj2 (hasType_single _ _) Hcty).
    rewrite bind_assoc. now step_with Hclose.
  - intros first Hpeek Hnot.
    exists 1. intros [| m] Hm; [lia |].
    rewrite parseSwitch_S. unfold parseSwitchBody.
    step_with Hnext. expect_ok. step_with Hpeek.
    now rewrite (bind_Throw _ _ _ _ (expect_Throw _ _ _ Hnot)).
Qed.

Lemma switch_cases_witness :
  Yields parseSwitch (ELTokenizer "{{x, 2}}")
         (Ok (EL.SwitchExpression
                [EL.VariableExpression "x" (mkLocation 1 3);
                 EL.LiteralExpression (EL.Number "2") (mkLocation 1 6)]
                (mkLocation 1 1),
              mkState "" 8 1 9 false))
  /\ Yields parseSwitch (ELTokenizer "{{ }}")
            (Ok (EL.SwitchExpression [] (mkLocation 1 1),
                 mkState "" 5 1 6 false))
  /\ Yields parseSwitch (ELTokenizer "{{{{1}}}}")
            (Throw (ExpectedToken
                      (mkLocation 1 3)
                      (ELToken.SimpleTerm ++ [ELToken.DoubleCBrace])%list
                      (Token.mk ELToken.DoubleOBrace "{{" 2 1 3))).
Proof.
  split; [| split].
  - refine (proj1 (switch_cases
                     (ELTokenizer "{{x, 2}}")
                     (Token.mk ELToken.DoubleOBrace "{{" 0 1 1)
                     (mkState "x, 2}}" 2 1 3 false) _ _)
                  (Token.mk ELToken.Name "x" 2 1 3) _ _ _ _ _);
      [ run_eq | reflexivity | run_eq | reflexivity | ].
    eapply listed_more with (st1 := mkState ", 2}}" 3 1 4 false)
                            (st2 := mkState " 2}}" 4 1 5 false);
      [ yields_by 12 parseExpression_monotone | run_eq | reflexivity | ].
    eapply listed_last with (st1 := mkState "}}" 6 1 7 false);
      [ yields_by 12 parseExpression_monotone | run_eq | reflexivity ].
  - refine (proj1 (proj2 (switch_cases
                            (ELTokenizer "{{ }}")
                            (Token.mk ELToken.DoubleOBrace "{{" 0 1 1)
                            (mkState " }}" 2 1 3 false) _ _))
                  (Token.mk ELToken.DoubleCBrace "}}" 3 1 4) _ _ _);
      [ run_eq | reflexivity | run_eq | reflexivity ].
  - refine (proj2 (proj2 (switch_cases
                            (ELTokenizer "{{{{1}}}}")
                            (Token.mk ELToken.DoubleOBrace "{{" 0 1 1)
                            (mkState "{{1}}}}" 2 1 3 false) _ _))
                  (Token.mk ELToken.DoubleOBrace "{{" 2 1 3) _ _);
      [ run_eq | reflexivity | run_eq | reflexivity ].
Defined.

(* ================================================================== *)
(** ** Unary operators and subscripts *)

(** What [parseSimpleTermOrSwitch] returns for a simple term that no
    opening bracket follows. *)
Lemma simple_term_without_subscript st first t st1 next :
  peekToken st = Ok (first, st) ->
  Token.hasType first ELToken.SimpleTerm = true ->
  Yields parseSimpleTerm st (Ok (t, st1)) ->
  peekToken st1 = Ok (next, st1) ->
  Token.type next <> ELToken.OBracket ->
  Yields parseSimpleTermOrSwitch st (Ok (t, st1)).
Proof.
  intros Hpeek Hfirst [n Hn] Hnext Hnot.
  exists (S (S (S n))). intros [| [| [| m]]] Hm; try lia.
  rewrite parseSimpleTermOrSwitch_S. unfold parseSimpleTermOrSwitchBody.
  step_with Hpeek.
  assert (Hmask : Token.hasType first
                    (ELToken.SimpleTerm ++ [ELToken.DoubleOBrace])%list = true)
    by (unfold Token.hasType in *; destruct (Token.type first);
        try discriminate; reflexivity).
  step_with (expect_Ok _ _ st Hmask). rewrite Hfirst.
  rewrite parseSimpleTermOrSubscript_S. unfold parseSimpleTermOrSubscriptBody.
  rewrite (bind_Ok _ _ _ _ _ (Hn (S m) ltac:(lia))).
  rewrite subscriptLoop_S. unfold subscriptLoopBody.
  step_with Hnext. now rewrite (proj2 (hasType_single_false _ _) Hnot).
Qed.



Lemma subscripts_yield st subs st' tokEnd :
  Subscripts st subs st' ->
  peekToken st' = Ok (tokEnd, st') ->
  Token.type tokEnd <> ELToken.OBracket ->
  forall term,
    Yields (fun n => subscriptLoop n term) st (Ok (subscripted term subs, st')).
Proof.
  induction 1 as [st | st opening index st1 rest st2 Hpeek Hty Hsub _ IH];
    intros Hend Hnot term.
  - exists 1. intros [| m] Hm; [lia |].
    rewrite subscriptLoop_S. unfold subscriptLoopBody.
    step_with Hend. now rewrite (proj2 (hasType_single_false _ _) Hnot).
  - destruct (Hsub term) as [n1 Hn1].
    destruct (IH Hend Hnot
                 (EL.SubscriptExpression term index (Token.location opening)))
      as [n2 Hn2].
    exists (S (Nat.max n1 n2)). intros [| m] Hm; [lia |].
    rewrite subscriptLoop_S. unfold subscriptLoopBody.
    step_with Hpeek. rewrite (proj2 (hasType_single _ _) Hty).
    rewrite (bind_Ok _ _ _ _ _ (Hn1 m ltac:(lia))).
    apply Hn2. lia.
Qed.

(** X17. Subscripts after a simple term nest to the left: each subscript
    applies to the term with all the subscripts before it, so [a[i][j]] is
    the subscript [j] of the subscript [i] of [a]. *)
Theorem subscripts_nest_left st t st1 subs st2 tokEnd :
  Yields parseSimpleTerm st (Ok (t, st1)) ->
  Subscripts st1 subs st2 ->
  peekToken st2 = Ok (tokEnd, st2) ->
  Token.type tokEnd <> ELToken.OBracket ->
  Yields parseSimpleTermOrSubscript st (Ok (subscripted t subs, st2))
  /\ (forall i li j lj,
         subs = [(i, li); (j, lj)] ->
         subscripted t subs
         = EL.SubscriptExpression (EL.SubscriptExpression t i li) j lj).
Proof.
  intros [n1 Hn1] Hsubs Hend Hnot.
  destruct (subscripts_yield _ _ _ _ Hsubs Hend Hnot t) as [n2 Hn2].
  split.
  - exists (S (Nat.max n1 n2)). intros [| m] Hm; [lia |].
    rewrite parseSimpleTermOrSubscript_S. unfold parseSimpleTermOrSubscriptBody.
    rewrite (bind_Ok _ _ _ _ _ (Hn1 m ltac:(lia))).
    apply Hn2. lia.
  - now intros i li j lj ->.
Qed.

Lemma subscripts_nest_left_witness :
  Yields parseSimpleTermOrSubscript (ELTokenizer "a[1][2]")
         (Ok (EL.SubscriptExpression
                (EL.SubscriptExpression
                   (EL.VariableExpression "a" (mkLocation 1 1))
                   (EL.LiteralExpression (EL.Number "1") (mkLocation 1 3))
                   (mkLocation 1 2))
                (EL.LiteralExpression (EL.Number "2") (mkLocation 1 6))
                (mkLocation 1 5),
              mkState "" 7 1 8 false)).
Proof.
  refine (proj1 (subscripts_nest_left
                   (ELTokenizer "a[1][2]")
                   (EL.VariableExpression "a" (mkLocation 1 1))
                   (mkState "[1][2]" 1 1 2 false)
                   [(EL.LiteralExpression (EL.Number "1") (mkLocation 1 3),
                     mkLocation 1 2);
                    (EL.LiteralExpression (EL.Number "2") (mkLocation 1 6),
                     mkLocation 1 5)]
                   (mkState "" 7 1 8 false)
                   (Token.mk ELToken.Eof "" 7 1 8)
                   _ _ _ _)).
  - yields_by 12 parseSimpleTerm_monotone.
  - apply (subscripts_step _ (Token.mk ELToken.OBracket "[" 1 1 2) _
                           (mkState "[2]" 4 1 5 false));
      [ run_eq | reflexivity
      | intro lhs; yields_by 20 (parseSubscript_monotone lhs) | ].
    apply (subscripts_step _ (Token.mk ELToken.OBracket "[" 4 1 5) _
                           (mkState "" 7 1 8 false));
      [ run_eq | reflexivity
      | intro lhs; yields_by 20 (parseSubscript_monotone lhs) | ].
    apply subscripts_end.
  - run_eq.
  - discriminate.
Defined.

(* ================================================================== *)
(** ** Two closing braces *)

(** X18. Two closing braces in a row are always read as one token, the
    closing of a switch.  So a map literal cannot end right after a value
    that ends with a closing brace of its own: where the value of an entry
    is followed by two closing braces, the loop of [parseMap] gets the
    closing of a switch where it expects a comma or a closing brace, and
    throws.  A map in a map has to be closed with white space between the
    braces. *)
Theorem double_brace_closes_no_map
        st key st1 colon st2 value st3 rest elements :
  nextToken st = Ok (key, st1) ->
  Token.hasType key [ELToken.String; ELToken.Name] = true ->
  nextToken st1 = Ok (colon, st2) ->
  Token.type colon = ELToken.Colon ->
  Yields parseExpression st2 (Ok (value, st3)) ->
  cur st3 = String "}" (String "}" rest) ->
  Yields (fun n => mapElements n elements) st
         (Throw (ExpectedToken
                   (mkLocation (line st3) (column st3))
                   [ELToken.Comma; ELToken.CBrace]
                   (Token.mk ELToken.DoubleCBrace "}}"
                             (consumed st3) (line st3) (column st3)))).
Proof.
  intros Hkey Hkty Hcolon Hcty [n Hn] Hcur.
  assert (Hclose : exists s,
             nextToken st3
             = Ok (Token.mk ELToken.DoubleCBrace "}}"
                            (consumed st3) (line st3) (column st3), s)).
  { destruct st3 as [input offset l c esc]. cbn [cur] in Hcur. subst input.
    eexists. cbn [consumed line column].
    unfold nextToken, emitToken. cbn [cur String.length].
    rewrite emitTokenLoop_S. cbv -[Nat.add Nat.sub takeChars].
    replace (offset + 2 - offset) with 2 by lia. reflexivity. }
  destruct Hclose as (s & Hclose).
  exists (S n). intros [| m] Hm; [lia |].
  rewrite mapElements_S. unfold mapElementsBody.
  step_with Hkey. step_with (expect_Ok _ _ st1 Hkty).
  step_with Hcolon. expect_ok.
  step_with (Hn m ltac:(lia)).
  step_with Hclose.
  now rewrite (bind_Throw _ _ _ _
                 (expect_Throw [ELToken.Comma; ELToken.CBrace]
                               (Token.mk ELToken.DoubleCBrace "}}"
                                         (consumed st3) (line st3) (column st3))
                               s eq_refl)).
Qed.

Lemma double_brace_closes_no_map_witness :
  Yields (fun n => mapElements n []) (mkState "b: 1}}" 5 1 6 false)
         (Throw (ExpectedToken
                   (mkLocation 1 10)
                   [ELToken.Comma; ELToken.CBrace]
                   (Token.mk ELToken.DoubleCBrace "}}" 9 1 10)))
  /\ parseStrict 30 "{a: {b: 1}}"
     = Throw (ExpectedToken
                (mkLocation 1 10)
                [ELToken.Comma; ELToken.CBrace]
                (Token.mk ELToken.DoubleCBrace "}}" 9 1 10))
  /\ parseStrict 30 "{a: {b: 1} }"
     = Ok (EL.MapExpression
             [("a"%string,
               EL.MapExpression
                 [("b"%string,
                   EL.LiteralExpression (EL.Number "1") (mkLocation 1 9))]
                 (mkLocation 1 5))]
             (mkLocation 1 1)).
Proof.
  split; [| split; reflexivity].
  apply (double_brace_closes_no_map
           (mkState "b: 1}}" 5 1 6 false)
           (Token.mk ELToken.Name "b" 5 1 6)
           (mkState ": 1}}" 6 1 7 false)
           (Token.mk ELToken.Colon ":" 6 1 7)
           (mkState " 1}}" 7 1 8 false)
           (EL.LiteralExpression (EL.Number "1") (mkLocation 1 9))
           (mkState "}}" 9 1 10 false)
           EmptyString []).
  - run_eq.
  - reflexivity.
  - run_eq.
  - reflexivity.
  - yields_by 30 parseExpression_monotone.
  - reflexivity.
Defined.

(* ================================================================== *)
(** ** Inputs without an expression *)

(** X19. An input that does not start with an expression is an error in
    both modes: where the first token is not an opening parenthesis, the
    first token of a simple term or the opening of a switch, [parse] throws
    the error of that token, whatever the mode.  An input that is empty, or
    has white space and comments only, is such an input: Lenient mode does
    not return a tree for it.  Where [parse] returns, the first token is of
    one of these kinds. *)
Theorem input_without_expression_is_error st tok :
  peekToken st = Ok (tok, st) ->
  (Token.hasType tok ([ELToken.OParen] ++ ELToken.SimpleTerm
                      ++ [ELToken.DoubleOBrace])%list = false ->
   forall mode fuel,
     2 <= fuel ->
     parse mode fuel st
     = Throw (ExpectedToken (Token.location tok)
                            (ELToken.SimpleTerm ++ [ELToken.DoubleOBrace])%list
                            tok))
  /\ (Token.type tok = ELToken.Eof ->
      forall mode fuel,
        2 <= fuel ->
        parse mode fuel st
        = Throw (ExpectedToken (Token.location tok)
                               (ELToken.SimpleTerm ++ [ELToken.DoubleOBrace])%list
                               tok))
  /\ (forall mode fuel r,
         parse mode fuel st = Ok r ->
         Token.hasType tok ([ELToken.OParen] ++ ELToken.SimpleTerm
                            ++ [ELToken.DoubleOBrace])%list = true).
Proof.
  intro Hpeek.
  assert (Hthrow : Token.hasType tok ([ELToken.OParen] ++ ELToken.SimpleTerm
                                      ++ [ELToken.DoubleOBrace])%list = false ->
                   forall mode fuel,
                     2 <= fuel ->
                     parse mode fuel st
                     = Throw (ExpectedToken
                                (Token.location tok)
                                (ELToken.SimpleTerm ++ [ELToken.DoubleOBrace])%list
                                tok)).
  { intros Hnot mode fuel Hfuel. unfold parse.
    apply bind_Throw. exact (expression_not_started _ _ Hpeek Hnot fuel Hfuel). }
  split; [exact Hthrow | split].
  - intro Heof. apply Hthrow. unfold Token.hasType. now rewrite Heof.
  - intros mode fuel r H. unfold parse in H.
    apply bind_inv in H as (e & s & He & _).
    destruct (expression_first _ _ _ He) as (tok' & Hpeek' & Hty).
    congruence.
Qed.

Lemma input_without_expression_is_error_witness :
  parseLenient 2 "  // nothing here" 
  = Throw (ExpectedToken (mkLocation 1 18)
                         (ELToken.SimpleTerm ++ [ELToken.DoubleOBrace])%list
                         (Token.mk ELToken.Eof "" 17 1 18))
  /\ parseStrict 2 ""
     = Throw (ExpectedToken (mkLocation 1 1)
                            (ELToken.SimpleTerm ++ [ELToken.DoubleOBrace])%list
                            (Token.mk ELToken.Eof "" 0 1 1)).
Proof.
  split; unfold parseLenient, parseStrict, run.
  - rewrite (proj1 (proj2 (input_without_expression_is_error
                             (ELTokenizer "  // nothing here")
                             (Token.mk ELToken.Eof "" 17 1 18)
                             eq_refl))
                   eq_refl Lenient 2 (Nat.le_refl 2)).
    reflexivity.
  - rewrite (proj1 (proj2 (input_without_expression_is_error
                             (ELTokenizer "")
                             (Token.mk ELToken.Eof "" 0 1 1)
                             eq_refl))
                   eq_refl Strict 2 (Nat.le_refl 2)).
    reflexivity.
Defined.

(* ================================================================== *)
(** ** Where a number ends *)

Lemma isAnyOf_app c a b : isAnyOf c (a ++ b) = isAnyOf c a || isAnyOf c b.
Proof.
  induction a as [| x a IH]; [reflexivity |].
  cbn [append isAnyOf]. now rewrite IH, orb_assoc.
Qed.

Lemma readInteger_stops_at_delimiter delims st e s :
  readInteger delims st = Ok (Some e, s) ->
  eof s = true \/ isAnyOf (curChar s) delims = true.
Proof.
  unfold readInteger.
  destruct (negb (curChar st =? "+") && negb (curChar st =? "-")
            && negb (isDigit (curChar st)));
    [discriminate |].
  intro H.
  apply bind_inv in H as (u1 & s1 & _ & H).
  apply bind_inv in H as (u2 & s2 & _ & H).
  rewrite bind_get in H.
  destruct (eof s2 || isAnyOf (curChar s2) delims) eqn:E.
  - unfold ret in H. injection H as _ <-. now apply orb_prop in E.
  - apply bind_inv in H as (u3 & s3 & _ & H). discriminate H.
Qed.

Lemma emitNumberOrWord_number_end c l col st tok st' :
  emitNumberOrWord c l col st = Ok (Some tok, st') ->
  Token.type tok = ELToken.Number ->
  eof st' = true \/ isAnyOf (curChar st') IntegerDelim = true.
Proof.
  unfold emitNumberOrWord. intros H Hty.
  apply bind_inv in H as (e1 & s1 & H1 & H). destruct e1 as [e1 |].
  { apply readDecimal_stops_at_delimiter in H1 as [E | E].
    - rewrite bind_get in H. rewrite E in H. cbn [negb andb] in H.
      injection H as _ <-. now left.
    - rewrite bind_get in H.
      destruct (negb (eof s1) && (curChar s1 =? ".") && negb (lookAhead s1 =? "."));
        [discriminate H |].
      injection H as _ <-. right. unfold IntegerDelim.
      now rewrite isAnyOf_app, E. }
  apply bind_inv in H as (e2 & s2 & H2 & H). destruct e2 as [e2 |].
  { apply readInteger_stops_at_delimiter in H2. now injection H as _ <-. }
  apply bind_inv in H as (e3 & s3 & _ & H). destruct e3 as [e3 |];
    [injection H as <- _; discriminate Hty |].
  apply bind_inv in H as (e4 & s4 & _ & H). destruct e4 as [e4 |];
    [injection H as <- _; discriminate Hty |].
  apply bind_inv in H as (e5 & s5 & _ & H). destruct e5 as [e5 |];
    [injection H as <- _; discriminate Hty |].
  destruct (isLetter (curChar st) || (curChar st =? "_")); [| discriminate H].
  apply bind_inv in H as (u & s & _ & H). rewrite bind_get in H.
  apply bind_inv in H as (u' & s' & _ & H). rewrite bind_get in H.
  injection H as <- _. discriminate Hty.
Qed.

(** A number token comes from the end of the [default:] branch. *)
Lemma emitTokenTurn_number st r st' :
  emitTokenTurn st = Ok (r, st') ->
  match r with
  | Some tok =>
      Token.type tok = ELToken.Number ->
      emitNumberOrWord (curPos st) (line st) (column st) st = Ok (r, st')
  | None => True
  end.
Proof.
  unfold emitTokenTurn.
  destruct (curChar st) as [[] [] [] [] [] [] [] []] eqn:Hc;
    cbv beta iota zeta; intro H.
  all: repeat turn_step H Hc.
  all: try exact I.
  all: try (intro Hty; discriminate Hty).
  all: destruct r as [tok |]; [intros _; exact H | exact I].
Qed.

Lemma readDecimal_digits_then_other d ds c rest consumed line column escaped :
  isDigit d = true ->
  allDigits ds = true ->
  isDigit c = false ->
  (c =? ".") = false ->
  (c =? "e") = false ->
  isAnyOf c NumberDelim = false ->
  readDecimal NumberDelim
              (mkState (String d (ds ++ String c rest)) consumed line column escaped)
  = Ok (None, mkState (String d (ds ++ String c rest)) consumed line column escaped).
Proof.
  intros Hd Hds Hc Hpoint' He Hdelim.
  destruct (digit_not_sign d Hd) as (Hplus & Hminus & Hpoint).
  unfold readDecimal. cbn [curChar cur].
  rewrite Hplus, Hminus, Hpoint, Hd. cbn [negb andb].
  rewrite (bind_Ok _ _ _ tt
             (mkState (String c rest) (S consumed + String.length ds) line
                      (S column + String.length ds) false)).
  2:{ rewrite (bind_Ok _ _ _ _ _ (advance_digit d _ consumed line column escaped Hd)).
      rewrite readDigits_digits by auto. now destruct ds. }
  rewrite bind_get. cbn [curChar cur]. rewrite Hpoint'. cbv iota.
  rewrite (bind_Ok _ _ _ tt _ (eq_refl : ret tt _ = _)).
  rewrite bind_get. cbn [curChar cur]. rewrite He. cbv iota.
  rewrite (bind_Ok _ _ _ tt _ (eq_refl : ret tt _ = _)).
  rewrite bind_get. unfold eof. cbn [curChar cur]. rewrite Hdelim. reflexivity.
Qed.

Lemma readInteger_digits_then_other d ds c rest consumed line column escaped :
  isDigit d = true ->
  allDigits ds = true ->
  isDigit c = false ->
  isAnyOf c IntegerDelim = false ->
  readInteger IntegerDelim
              (mkState (String d (ds ++ String c rest)) consumed line column escaped)
  = Ok (None, mkState (String d (ds ++ String c rest)) consumed line column escaped).
Proof.
  intros Hd Hds Hc Hdelim.
  destruct (digit_not_sign d Hd) as (Hplus & Hminus & _).
  unfold readInteger. cbn [curChar cur].
  rewrite Hplus, Hminus, Hd. cbn [negb andb orb].
  rewrite (bind_Ok _ _ _ tt _ (eq_refl : ret tt _ = _)).
  rewrite (bind_Ok _ _ _ tt _
             (readDigits_digits (String d ds) (String c rest) consumed line column
                                escaped
                                ltac:(simpl; now rewrite Hd, Hds) Hc)).
  rewrite bind_get. unfold eof. cbn [curChar cur]. rewrite Hdelim. reflexivity.
Qed.

(** X20. A number ends at a delimiter.  After every number token the input
    has ended or goes on with white space, with one of the characters of
    [NumberDelim], or with a point; and digits that are followed at once by
    any other character, a letter other than [e] or the first character of
    a comparison, are no token at all: the tokenizer throws, and reports the
    first digit.  So [1<2] is a lexical error, and [1 <2] is not. *)
Theorem number_ends_at_delimiter :
  (forall st tok st',
      nextToken st = Ok (tok, st') ->
      Token.type tok = ELToken.Number ->
      eof st' = true \/ isAnyOf (curChar st') IntegerDelim = true)
  /\ (forall d ds c rest consumed line column escaped,
         isDigit d = true ->
         allDigits ds = true ->
         isDigit c = false ->
         (c =? "e") = false ->
         isAnyOf c IntegerDelim = false ->
         nextToken (mkState (String d (ds ++ String c rest))
                            consumed line column escaped)
         = Throw (UnexpectedCharacter (mkLocation line column) d)).
Proof.
  split.
  - intros st tok st'. unfold nextToken, emitToken.
    generalize (String.length (cur st)) as n. intro n. revert st.
    induction n as [| n IH]; intros st H Hty.
    + cbn [emitTokenLoop] in H. destruct (eof st); [| discriminate H].
      injection H as <- _. discriminate Hty.
    + rewrite emitTokenLoop_S in H.
      destruct (eof st); [injection H as <- _; discriminate Hty |].
      apply bind_inv in H as (r & s & Hturn & H).
      apply emitTokenTurn_number in Hturn. destruct r as [t |].
      * injection H as <- <-.
        exact (emitNumberOrWord_number_end _ _ _ _ _ _ (Hturn Hty) Hty).
      * exact (IH _ H Hty).
  - intros d ds c rest consumed line column escaped Hd Hds Hc He Hdelim.
    assert (Hparts : (c =? ".") = false /\ isAnyOf c NumberDelim = false).
    { unfold IntegerDelim in Hdelim. rewrite isAnyOf_app in Hdelim.
      apply orb_false_iff in Hdelim as [Hn Hp]. split; [| exact Hn].
      cbn [isAnyOf] in Hp. now apply orb_false_iff in Hp as [Hp _]. }
    destruct Hparts as [Hpoint Hnumber].
    unfold nextToken, emitToken. cbn [cur String.length]. rewrite emitTokenLoop_S.
    unfold eof at 1. cbn [cur]. cbv iota.
    apply bind_Throw.
    rewrite (emitTokenTurn_digit d _ consumed line column escaped Hd).
    unfold emitNumberOrWord.
    rewrite (bind_Ok _ _ _ _ _
               (readDecimal_digits_then_other d ds c rest consumed line column
                                              escaped Hd Hds Hc Hpoint He Hnumber)).
    cbv beta iota.
    rewrite (bind_Ok _ _ _ _ _
               (readInteger_digits_then_other d ds c rest consumed line column
                                              escaped Hd Hds Hc Hdelim)).
    cbv beta iota.
    digit_case Hd; reflexivity.
Qed.

Lemma number_ends_at_delimiter_witness :
  tokenize "1<2" = Throw (UnexpectedCharacter (mkLocation 1 1) "1")
  /\ lexemes (tokenize "1 <2")
     = Ok [(ELToken.Number, "1"%string); (ELToken.Less, "<"%string);
           (ELToken.Number, "2"%string); (ELToken.Eof, EmptyString)]
  /\ (eof (mkState " <2" 1 1 2 false) = true
      \/ isAnyOf (curChar (mkState " <2" 1 1 2 false)) IntegerDelim = true).
Proof.
  destruct number_ends_at_delimiter as [Hend Herror].
  split; [| split].
  - unfold tokenize. cbn [String.length tokenizeLoop].
    change (emitToken (ELTokenizer "1<2"))
      with (nextToken (mkState (String "1" (EmptyString ++ String "<" "2"%string))
                               0 1 1 false)).
    now rewrite (Herror "1" EmptyString "<" "2"%string 0 1 1 false
                        eq_refl eq_refl eq_refl eq_refl eq_refl).
  - reflexivity.
  - apply (Hend (ELTokenizer "1 <2") (Token.mk ELToken.Number "1" 0 1 1));
      reflexivity.
Defined.

(* ================================================================== *)
(** ** The parser always returns *)

Lemma bounded_ret b A (a : A) : Bounded b (ret a).
Proof. intros st Hb. split; [discriminate |]. now intros x s [= _ <-]. Qed.

Lemma bounded_throw b A e : Bounded b (@throw A e).
Proof. intros st Hb. split; [discriminate |]. intros x s H. discriminate H. Qed.

Lemma bounded_bind b A B (m : M A) (k : A -> M B) :
  Bounded b m -> (forall a, Bounded b (k a)) -> Bounded b (bind m k).
Proof.
  intros Hm Hk st Hb. destruct (Hm st Hb) as [Hret Hpost]. unfold bind.
  destruct (m st) as [[a s] | e |]; [| split; [discriminate | intros ? ? [=]] | congruence].
  exact (Hk a s (Hpost a s eq_refl)).
Qed.

Lemma bounded_expect b mask tok : Bounded b (expect mask tok).
Proof.
  intros st Hb. unfold expect.
  destruct (Token.hasType tok mask); [apply bounded_ret | apply bounded_throw];
    exact Hb.
Qed.

Lemma bounded_peekToken b : Bounded b peekToken.
Proof.
  intros st Hb. split.
  - unfold peekToken. pose proof (emitToken_returns st).
    destruct (emitToken st) as [[tok s] | e |]; [discriminate | discriminate | congruence].
  - intros tok s H. now apply peek_keeps_state in H as ->.
Qed.

Lemma nextToken_remaining st tok st' :
  nextToken st = Ok (tok, st') ->
  remaining st' <= remaining st
  /\ (Token.type tok <> ELToken.Eof -> S (remaining st') <= remaining st).
Proof.
  intro H. unfold remaining.
  apply emitToken_inv in H as (skipped & s0 & Hskip & [(_ & -> & ->) | Hat]).
  - apply span_length in Hskip. split; [lia | intro E; now elim E].
  - apply tokenAt_span in Hat as (c & text & Hspan).
    apply span_length in Hskip. apply span_length in Hspan. simpl in Hspan.
    split; [lia | intros _; lia].
Qed.

Lemma bounded_nextToken b : Bounded b nextToken.
Proof.
  intros st Hb. split; [apply emitToken_returns |].
  intros tok s H. apply nextToken_remaining in H as [H _]. lia.
Qed.

(** A token that is consumed and then expected with a mask that does not
    hold the end token takes at least one character away. *)
Lemma consuming_expected b B mask (k : Token.t -> Token.t -> M B) :
  ELToken.member ELToken.Eof mask = false ->
  (forall b', b = S b' -> forall tok tok', Bounded b' (k tok tok')) ->
  Consuming b (bind nextToken (fun tok => bind (expect mask tok) (k tok))).
Proof.
  intros Hmask Hk st Hb.
  destruct (nextToken st) as [[tok s] | e |] eqn:E.
  - rewrite (bind_Ok _ _ _ _ _ E).
    destruct (Token.hasType tok mask) eqn:Hty.
    + rewrite (bind_Ok _ _ _ _ _ (expect_Ok _ _ s Hty)).
      assert (Hne : Token.type tok <> ELToken.Eof).
      { intro Heof. unfold Token.hasType in Hty. rewrite Heof in Hty. congruence. }
      destruct (nextToken_remaining _ _ _ E) as [_ Hlt]. specialize (Hlt Hne).
      destruct b as [| b']; [lia |].
      destruct (Hk b' eq_refl tok tok s ltac:(lia)) as [Hret' Hpost].
      split; [exact Hret' |].
      intros a s' H. specialize (Hpost a s' H). lia.
    + rewrite (bind_Throw _ _ _ _ (expect_Throw _ _ s Hty)).
      split; [discriminate | intros ? ? [=]].
  - rewrite (bind_Throw _ _ _ _ E). split; [discriminate | intros ? ? [=]].
  - exfalso. exact (emitToken_returns st E).
Qed.

Lemma consuming_bounded b A (m : M A) : Consuming b m -> Bounded b m.
Proof.
  intros Hm st Hb. destruct (Hm st Hb) as [Hret Hpost].
  split; [exact Hret |]. intros a s H. specialize (Hpost a s H). lia.
Qed.

Lemma bounded_after_consuming b A B (m : M A) (k : A -> M B) :
  Consuming b m ->
  (forall b', b = S b' -> forall a, Bounded b' (k a)) ->
  Bounded b (bind m k).
Proof.
  intros Hm Hk st Hb. destruct (Hm st Hb) as [Hret Hpost]. unfold bind.
  destruct (m st) as [[a s] | e |]; [| split; [discriminate | intros ? ? [=]] | congruence].
  specialize (Hpost a s eq_refl).
  destruct b as [| b']; [lia |].
  destruct (Hk b' eq_refl a s ltac:(lia)) as [Hret' Hpost'].
  split; [exact Hret' |]. intros x s' H. specialize (Hpost' x s' H). lia.
Qed.

Ltac bounded_tac :=
  repeat first
    [ apply bounded_ret | apply bounded_throw | apply bounded_expect
    | apply bounded_peekToken
    | match goal with
      | H : Terminates _ _ ?m |- Bounded _ ?m => apply H; lia
      | H : forall x, Terminates _ _ (?f x) |- Bounded _ (?f _) => apply H; lia
      end
    | apply consuming_bounded; apply consuming_expected;
      [ reflexivity | intros ? ? ? ? ]
    | match goal with
      | H : forall l b, _ -> Consuming b (?f l)
        |- Bounded _ (bind (?f _) _) =>
          apply bounded_after_consuming; [ apply H; lia | intros ? ? ? ]
      end
    | apply bounded_nextToken
    | apply bounded_bind; [ | intro ]
    | match goal with
      | |- Bounded _ (if ?c then _ else _) => destruct c
      | |- Bounded _ (match ?x with _ => _ end) => destruct x
      end ].

Lemma all_terminate : forall n, AllTerminate n.
Proof.
  induction n as [| n IH].
  - unfold AllTerminate, Terminates;
      repeat match goal with |- _ /\ _ => split end; intros; lia.
  - destruct IH as (H1 & H2 & H3 & H4 & H5 & H6 & H7 & H8 & H9 & H10 & H11
                    & H12 & H13 & H14 & H15 & H16 & H17 & H18 & H19 & H20).
    unfold AllTerminate;
      repeat match goal with |- _ /\ _ => split end;
      match goal with
      | |- Terminates _ _ _ => intros b Hb
      | |- _ => intros l b Hb
      end.
    + rewrite parseExpression_S. unfold parseExpressionBody. bounded_tac.
    + rewrite parseGroupedTerm_S. unfold parseGroupedTermBody. bounded_tac.
    + rewrite parseTerm_S. unfold parseTermBody. bounded_tac.
    + rewrite parseSimpleTermOrSwitch_S. unfold parseSimpleTermOrSwitchBody. bounded_tac.
    + rewrite parseSimpleTermOrSubscript_S. unfold parseSimpleTermOrSubscriptBody. bounded_tac.
    + rewrite subscriptLoop_S. unfold subscriptLoopBody. bounded_tac.
    + rewrite parseSimpleTerm_S. unfold parseSimpleTermBody, parseVariable. bounded_tac.
    + rewrite parseSubscript_S. unfold parseSubscriptBody.
      apply consuming_expected; [reflexivity | intros ? ? ? ?]. bounded_tac.
    + rewrite subscriptElements_S. unfold subscriptElementsBody. bounded_tac.
    + rewrite parseLiteral_S. unfold parseLiteralBody. bounded_tac.
    + rewrite parseArray_S. unfold parseArrayBody. bounded_tac.
    + rewrite arrayElements_S. unfold arrayElementsBody. bounded_tac.
    + rewrite parseExpressionOrBoundedRange_S. unfold parseExpressionOrBoundedRangeBody. bounded_tac.
    + rewrite parseExpressionOrAnyRange_S. unfold parseExpressionOrAnyRangeBody. bounded_tac.
    + rewrite parseMap_S. unfold parseMapBody. bounded_tac.
    + rewrite mapElements_S. unfold mapElementsBody. bounded_tac.
    + rewrite parseUnaryOperator_S. unfold parseUnaryOperatorBody. bounded_tac.
    + rewrite parseSwitch_S. unfold parseSwitchBody. bounded_tac.
    + rewrite switchElements_S. unfold switchElementsBody. bounded_tac.
    + rewrite parseCompoundTerm_S. unfold parseCompoundTermBody. bounded_tac.
Qed.

(** X21. The parser returns on every input.  A depth of calls of nine for
    every character of the input, and seven more, is enough for [parse] in
    either mode, whatever the input: every loop and every recursive call of
    the parser consumes a token before it comes round again, or goes down
    one of a fixed number of steps.  So for every input there is the one
    result, a tree or an error, that [parse] has at every greater depth. *)
Theorem parser_always_returns mode st :
  (forall fuel,
      9 * String.length (cur st) + 7 <= fuel ->
      parse mode fuel st <> OutOfFuel)
  /\ exists r, r <> OutOfFuel /\ Yields (parse mode) st r.
Proof.
  assert (Hfuel : forall fuel,
             9 * String.length (cur st) + 7 <= fuel ->
             parse mode fuel st <> OutOfFuel).
  { intros fuel Hfuel.
    destruct (all_terminate fuel) as (Hexpr & _).
    assert (Hparse : Bounded (remaining st) (parse mode fuel)).
    { unfold parse. apply bounded_bind.
      - apply Hexpr. unfold remaining. lia.
      - intro result. destruct mode.
        + apply bounded_bind; [apply bounded_peekToken |].
          intro tok. apply bounded_bind; [apply bounded_expect |].
          intro. apply bounded_ret.
        + apply bounded_ret. }
    exact (proj1 (Hparse st (Nat.le_refl _))). }
  split; [exact Hfuel |].
  exists (parse mode (9 * String.length (cur st) + 7) st). split.
  - apply Hfuel. apply Nat.le_refl.
  - apply (yields_intro _ (9 * String.length (cur st) + 7));
      [apply parse_monotone | reflexivity |].
    apply Hfuel. apply Nat.le_refl.
Qed.

Lemma parser_always_returns_witness :
  parse Strict 34 (ELTokenizer "[1") <> OutOfFuel
  /\ parseStrict 34 "[1"
     = Throw (ExpectedToken (mkLocation 1 3) [ELToken.Comma; ELToken.CBracket]
                            (Token.mk ELToken.Eof "" 2 1 3))
  /\ parseStrict 34 "['a" = Throw UnexpectedEndOfFile.
Proof.
  split; [| split; reflexivity].
  apply (proj1 (parser_always_returns Strict (ELTokenizer "[1")) 34).
  simpl. lia.
Defined.

(* ================================================================== *)
(** ** Map literals as ordered maps *)

Lemma firstWritten_none key entries :
  firstWritten key entries = None <-> ~ In key (map fst entries).
Proof.
  induction entries as [| [k v] entries IH]; simpl.
  - split; [intros _ [] | reflexivity].
  - destruct (String.eqb key k) eqn:E.
    + apply String.eqb_eq in E. subst k. split; [discriminate | intro H].
      elim H. now left.
    + apply String.eqb_neq in E. rewrite IH. split.
      * intros H [Hk | Hin]; [congruence | contradiction].
      * intros H Hin. apply H. now right.
Qed.

Lemma firstWritten_in key v entries :
  NoDup (map fst entries) ->
  firstWritten key entries = Some v <-> In (key, v) entries.
Proof.
  induction entries as [| [k w] entries IH]; simpl; intro Hnodup.
  - split; [discriminate | intros []].
  - inversion Hnodup as [| x l Hnotin Hrest]; subst.
    destruct (String.eqb key k) eqn:E.
    + apply String.eqb_eq in E. subst k. split.
      * intros [= ->]. now left.
      * intros [[= ->] | Hin]; [reflexivity |].
        elim Hnotin. change key with (fst (key, v)). now apply in_map.
    + apply String.eqb_neq in E. rewrite (IH Hrest). split.
      * intro H. now right.
      * intros [[= -> ->] | Hin]; [congruence | exact Hin].
Qed.

Lemma find_head k v m : EL.find k ((k, v) :: m) = Some v.
Proof. simpl. now rewrite String.eqb_refl. Qed.

(** Two ordered maps in which every key finds the same are the same. *)
Lemma ordered_ext m1 :
  forall m2,
    Ordered m1 -> Ordered m2 ->
    (forall key, EL.find key m1 = EL.find key m2) ->
    m1 = m2.
Proof.
  induction m1 as [| [k1 v1] r1 IH]; intros [| [k2 v2] r2] H1 H2 Hfind.
  - reflexivity.
  - specialize (Hfind k2). rewrite find_head in Hfind. discriminate Hfind.
  - specialize (Hfind k1). rewrite find_head in Hfind. discriminate Hfind.
  - apply StronglySorted_inv in H1 as [H1 Ha1].
    apply StronglySorted_inv in H2 as [H2 Ha2].
    unfold keyBelow in Ha1, Ha2. cbn [fst] in Ha1, Ha2.
    destruct (String.compare k1 k2) eqn:E.
    + apply String.compare_eq_iff in E. subst k2.
      pose proof (Hfind k1) as Hk. rewrite !find_head in Hk.
      injection Hk as <-. f_equal.
      apply IH; try assumption.
      intro key. specialize (Hfind key). simpl in Hfind.
      destruct (String.eqb key k1) eqn:Ek; [| exact Hfind].
      apply String.eqb_eq in Ek. subst key.
      now rewrite (find_above _ _ Ha1), (find_above _ _ Ha2).
    + exfalso. specialize (Hfind k1). rewrite find_head in Hfind.
      simpl in Hfind. rewrite (compare_Lt_neq _ _ E) in Hfind.
      rewrite find_above in Hfind; [discriminate Hfind |].
      eapply Forall_impl; [| exact Ha2].
      intros e He. exact (compare_Lt_trans _ _ _ E He).
    + exfalso. apply compare_Gt_Lt in E.
      specialize (Hfind k2). rewrite find_head in Hfind.
      simpl in Hfind. rewrite (compare_Lt_neq _ _ E) in Hfind.
      rewrite find_above in Hfind; [discriminate Hfind |].
      eapply Forall_impl; [| exact Ha1].
      intros e He. exact (compare_Lt_trans _ _ _ E He).
Qed.

(** X22. The entries of the map node of a map literal are kept as an
    ordered map: in strictly ascending order of their keys, each key once.
    A key is found in it exactly when it is written in the literal, and
    literals that hold the same entries, with keys that differ from one
    another, build the same map in whatever order the entries are written.
    The braces with nothing between them are the map without entries. *)
Theorem map_literal_is_ordered_map st opening st1 :
  nextToken st = Ok (opening, st1) ->
  Token.type opening = ELToken.OBrace ->
  (forall entries st2,
      MapEntries st1 entries st2 ->
      exists elements,
        Yields parseMap st
               (Ok (EL.MapExpression elements (Token.location opening), st2))
        /\ Ordered elements
        /\ (forall key,
               EL.find key elements = None <-> ~ In key (map fst entries))
        /\ (forall entries',
               NoDup (map fst entries) ->
               NoDup (map fst entries') ->
               (forall entry, In entry entries <-> In entry entries') ->
               emplaceAll entries' [] = elements))
  /\ (forall closing st2,
         nextToken st1 = Ok (closing, st2) ->
         Token.type closing = ELToken.CBrace ->
         Yields parseMap st
                (Ok (EL.MapExpression [] (Token.location opening), st2))).
Proof.
  intros Hopen Hoty. split.
  - intros entries st2 Hentries.
    destruct (map_entries_first _ _ _ Hentries) as (tok & Hpeek & Hnot).
    destruct (map_entries_yields _ _ _ Hentries []) as [n Hn].
    assert (Hempty : Ordered []) by constructor.
    exists (emplaceAll entries []). split; [| split; [| split]].
    + exists (S n). intros [| m] Hm; [lia |].
      rewrite parseMap_S. unfold parseMapBody.
      step_with Hopen. expect_ok. step_with Hpeek. rewrite Hnot. cbn [negb].
      now step_with (Hn m ltac:(lia)).
    + now apply emplaceAll_ordered.
    + intro key. rewrite (find_emplaceAll key entries [] Hempty).
      cbn [EL.find]. apply firstWritten_none.
    + intros entries' Hnodup Hnodup' Hsame.
      apply ordered_ext; try now apply emplaceAll_ordered.
      intro key. rewrite !(find_emplaceAll key _ [] Hempty). cbn [EL.find].
      destruct (firstWritten key entries) as [v |] eqn:E.
      * apply (firstWritten_in _ _ _ Hnodup) in E. apply Hsame in E.
        now apply (firstWritten_in _ _ _ Hnodup').
      * apply firstWritten_none. apply firstWritten_none in E.
        intro Hin. apply E. apply in_map_iff in Hin as ([k v] & Hk & Hin).
        apply Hsame in Hin. apply in_map_iff. now exists (k, v).
  - intros closing st2 Hclose Hcty.
    exists 1. intros [| m] Hm; [lia |].
    rewrite parseMap_S. unfold parseMapBody.
    step_with Hopen. expect_ok.
    step_with (peek_of_next _ _ _ Hclose).
    rewrite (proj2 (hasType_single _ _) Hcty). cbn [negb].
    rewrite bind_assoc. now step_with Hclose.
Qed.

Lemma map_literal_is_ordered_map_witness :
  exists elements,
    Yields parseMap (ELTokenizer "{b: 1, a: 2}")
           (Ok (EL.MapExpression elements (mkLocation 1 1), mkState "" 12 1 13 false))
    /\ map fst elements = ["a"%string; "b"%string]
    /\ EL.find "c" elements = None.
Proof.
  destruct (map_literal_is_ordered_map
              (ELTokenizer "{b: 1, a: 2}") (Token.mk ELToken.OBrace "{" 0 1 1)
              (mkState "b: 1, a: 2}" 1 1 2 false) eq_refl eq_refl)
    as [Hentries _].
  destruct (Hentries
              [("b"%string, EL.LiteralExpression (EL.Number "1") (mkLocation 1 5));
               ("a"%string, EL.LiteralExpression (EL.Number "2") (mkLocation 1 11))]
              (mkState "" 12 1 13 false))
    as (elements & Hy & _ & Hfind & Hsame).
  - apply (entries_more _ (Token.mk ELToken.Name "b" 1 1 2)
                        (mkState ": 1, a: 2}" 2 1 3 false)
                        (Token.mk ELToken.Colon ":" 2 1 3)
                        (mkState " 1, a: 2}" 3 1 4 false) _
                        (mkState ", a: 2}" 5 1 6 false)
                        (Token.mk ELToken.Comma "," 5 1 6)
                        (mkState " a: 2}" 6 1 7 false));
      [ run_eq | reflexivity | run_eq | reflexivity
      | yields_by 12 parseExpression_monotone | run_eq | reflexivity | ].
    apply (entries_last _ (Token.mk ELToken.Name "a" 7 1 8)
                        (mkState ": 2}" 8 1 9 false)
                        (Token.mk ELToken.Colon ":" 8 1 9)
                        (mkState " 2}" 9 1 10 false) _
                        (mkState "}" 11 1 12 false)
                        (Token.mk ELToken.CBrace "}" 11 1 12));
      [ run_eq | reflexivity | run_eq | reflexivity
      | yields_by 12 parseExpression_monotone | run_eq | reflexivity ].
  - exists elements. split; [exact Hy | split].
    + rewrite <- (Hsame
                    [("a"%string,
                      EL.LiteralExpression (EL.Number "2") (mkLocation 1 11));
                     ("b"%string,
                      EL.LiteralExpression (EL.Number "1") (mkLocation 1 5))]).
      * reflexivity.
      * repeat constructor; simpl; intuition discriminate.
      * repeat constructor; simpl; intuition discriminate.
      * intro entry. simpl. tauto.
    + apply Hfind. simpl. intuition discriminate.
Defined.

(* ================================================================== *)
(** ** White space and comments are passed over *)

(** The loop of [emitToken] does the same with any number of turns that
    is at least the number of characters left. *)
Lemma emitTokenLoop_enough n :
  forall m st,
    remaining st <= n -> remaining st <= m ->
    emitTokenLoop n st = emitTokenLoop m st.
Proof.
  assert (Hend : forall k st, remaining st = 0 ->
             emitTokenLoop k st
             = Ok (Token.mk ELToken.Eof EmptyString
                            (consumed st) (line st) (column st), st)).
  { intros k st H. unfold remaining in H.
    assert (Heof : eof st = true) by (unfold eof; destruct (cur st); [reflexivity | discriminate]).
    destruct k; [cbn [emitTokenLoop] | rewrite emitTokenLoop_S]; now rewrite Heof. }
  induction n as [| n IH]; intros m st Hn Hm.
  - rewrite !Hend by lia. reflexivity.
  - destruct m as [| m]; [rewrite !Hend by lia; reflexivity |].
    rewrite !emitTokenLoop_S. destruct (eof st); [reflexivity |].
    unfold bind. destruct (emitTokenTurn st) as [[[tok |] s] | e |] eqn:E;
      try reflexivity.
    apply emitTokenTurn_inv in E as (c & text & Hspan).
    apply span_length in Hspan. simpl in Hspan. unfold remaining in *.
    apply IH; lia.
Qed.

(** After a turn that returns no token, the token is the one that is read
    from where the turn has come to. *)
Lemma emitToken_after_turn st s :
  emitTokenTurn st = Ok (None, s) -> emitToken st = emitToken s.
Proof.
  intro H. pose proof H as Hturn.
  apply emitTokenTurn_inv in H as (c & text & Hspan).
  pose proof (span_not_eof _ _ _ _ Hspan) as Heof.
  apply span_length in Hspan. simpl in Hspan.
  unfold emitToken. destruct (String.length (cur st)) as [| k] eqn:Hlen; [lia |].
  rewrite emitTokenLoop_S, Heof. rewrite (bind_Ok _ _ _ _ _ Hturn).
  apply emitTokenLoop_enough; unfold remaining; lia.
Qed.

Lemma advanceWhile_ok p n : forall st, exists s, advanceWhile p n st = Ok (tt, s).
Proof.
  induction n as [| n IH]; intro st; [now exists st |].
  rewrite advanceWhile_S. destruct (negb (eof st) && p st) eqn:E; [| now exists st].
  apply andb_prop in E as [E _]. apply negb_true_iff in E.
  destruct (cur st) as [| c rest] eqn:Hcur;
    [unfold eof in E; rewrite Hcur in E; discriminate |].
  destruct (advance_char st c rest Hcur) as (s1 & Hadv & _).
  rewrite (bind_Ok _ _ _ _ _ Hadv). apply IH.
Qed.

Lemma emitTokenTurn_whitespace st :
  isWhitespace (curChar st) = true ->
  emitTokenTurn st = (discardWhile Whitespace ;;; ret None) st.
Proof.
  intro H. unfold isWhitespace, Whitespace in H. cbn [isAnyOf] in H.
  unfold emitTokenTurn.
  destruct (curChar st =? " ") eqn:E1;
    [apply Ascii.eqb_eq in E1; now rewrite E1 |].
  destruct (curChar st =? "009") eqn:E2;
    [apply Ascii.eqb_eq in E2; now rewrite E2 |].
  destruct (curChar st =? "010") eqn:E3;
    [apply Ascii.eqb_eq in E3; now rewrite E3 |].
  destruct (curChar st =? "013") eqn:E4;
    [apply Ascii.eqb_eq in E4; now rewrite E4 | discriminate H].
Qed.

(** One character of white space before a token makes no difference to
    the token. *)
Lemma emitToken_skips_whitespace st c rest s :
  cur st = String c rest ->
  isWhitespace c = true ->
  advance st = Ok (tt, s) ->
  emitToken st = emitToken s.
Proof.
  intros Hcur Hc Hadv.
  destruct (advance_char st c rest Hcur) as (s' & Hadv' & Hcur' & _).
  assert (s' = s) by congruence. subst s'.
  destruct (advanceWhile_ok (fun s => isAnyOf (curChar s) Whitespace)
                            (String.length rest) s) as (sw & Hsw).
  assert (Hturn : emitTokenTurn st = Ok (None, sw)).
  { rewrite emitTokenTurn_whitespace
      by now rewrite (curChar_cur _ _ _ Hcur).
    rewrite (bind_Ok _ _ _ tt sw); [reflexivity |].
    unfold discardWhile. rewrite Hcur. cbn [String.length].
    rewrite advanceWhile_S, (eof_cur _ _ _ Hcur), (curChar_cur _ _ _ Hcur).
    unfold isWhitespace in Hc. rewrite Hc. cbn [negb andb].
    now rewrite (bind_Ok _ _ _ _ _ Hadv). }
  rewrite (emitToken_after_turn _ _ Hturn).
  destruct (negb (eof s) && isWhitespace (curChar s)) eqn:E.
  - apply andb_prop in E as [_ E]. symmetry. apply emitToken_after_turn.
    rewrite (emitTokenTurn_whitespace _ E).
    rewrite (bind_Ok _ _ _ tt sw); [reflexivity |].
    unfold discardWhile. now rewrite Hcur'.
  - destruct (String.length rest) as [| k] eqn:Hlen.
    + now injection Hsw as <-.
    + rewrite advanceWhile_S in Hsw. unfold isWhitespace in E. rewrite E in Hsw.
      now injection Hsw as <-.
Qed.

(** A scan by a test of the current character passes exactly a text
    whose characters pass the test, when what follows does not. *)
Lemma advanceWhile_run (q : ascii -> bool) text :
  forall st rest n,
    cur st = (text ++ rest)%string ->
    allChars q text = true ->
    match rest with EmptyString => true | String c _ => negb (q c) end = true ->
    String.length (cur st) <= n ->
    exists s,
      advanceN (String.length text) st = Ok (tt, s)
      /\ advanceWhile (fun s => q (curChar s)) n st = Ok (tt, s).
Proof.
  induction text as [| c text IH]; intros st rest n Hcur Hall Hrest Hn.
  - exists st. split; [reflexivity |]. cbn [append] in Hcur.
    destruct n as [| n]; [reflexivity |].
    rewrite advanceWhile_S. unfold eof, curChar. rewrite Hcur.
    destruct rest as [| d rest]; [reflexivity |].
    apply negb_true_iff in Hrest. now rewrite Hrest.
  - cbn [append] in Hcur. cbn [allChars] in Hall. apply andb_prop in Hall as [Hc Hall].
    destruct (advance_char st c _ Hcur) as (s1 & Hadv & Hcur1 & _).
    rewrite Hcur in Hn. cbn [String.length] in Hn.
    destruct n as [| n]; [lia |].
    destruct (IH s1 rest n Hcur1 Hall Hrest ltac:(rewrite Hcur1; lia))
      as (s & HadvN & Hwhile).
    exists s. split.
    + cbn [String.length advanceN]. now rewrite (bind_Ok _ _ _ _ _ Hadv).
    + rewrite advanceWhile_S, (eof_cur _ _ _ Hcur), (curChar_cur _ _ _ Hcur), Hc.
      cbn [negb andb]. now rewrite (bind_Ok _ _ _ _ _ Hadv).
Qed.

(** X24. White space and comments are passed over.  White space before a
    token makes no difference to the token that is read, other than to its
    place: the token read from a state is the token read from the state
    after the white space.  And a comment runs from its two slashes to the
    end of the line: the token read from a state at a comment is the token
    read from the state at the end of that line, or at the end of the
    input. *)
Theorem white_space_and_comments_are_skipped :
  (forall ws st rest,
      cur st = (ws ++ rest)%string ->
      allChars isWhitespace ws = true ->
      exists s,
        advanceN (String.length ws) st = Ok (tt, s)
        /\ nextToken st = nextToken s)
  /\ (forall st text rest,
         cur st = String "/" (String "/" (text ++ rest)) ->
         allChars inLine text = true ->
         endsLine rest = true ->
         exists s,
           advanceN (2 + String.length text) st = Ok (tt, s)
           /\ nextToken st = nextToken s).
Proof.
  split.
  - induction ws as [| c ws IH]; intros st rest Hcur Hall.
    + exists st. now split.
    + cbn [append] in Hcur. cbn [allChars] in Hall.
      apply andb_prop in Hall as [Hc Hall].
      destruct (advance_char st c _ Hcur) as (s1 & Hadv & Hcur1 & _).
      destruct (IH s1 rest Hcur1 Hall) as (s & HadvN & Hnext).
      exists s. split.
      * cbn [String.length advanceN]. now rewrite (bind_Ok _ _ _ _ _ Hadv).
      * unfold nextToken in *.
        now rewrite (emitToken_skips_whitespace _ _ _ _ Hcur Hc Hadv).
  - intros st text rest Hcur Hall Hrest.
    destruct (advance_char st "/" _ Hcur) as (s1 & Hadv & Hcur1 & _).
    destruct (advanceWhile_run inLine (String "/" text) s1 rest
                               (String.length (cur s1)) Hcur1)
      as (s & HadvN & Hwhile).
    + cbn [allChars]. now rewrite Hall.
    + unfold endsLine in Hrest. destruct rest as [| c rest]; [reflexivity |].
      unfold inLine. now rewrite negb_involutive.
    + apply Nat.le_refl.
    + exists s. split.
      * change (2 + String.length text) with (S (String.length (String "/" text))).
        cbn [advanceN]. now rewrite (bind_Ok _ _ _ _ _ Hadv).
      * unfold nextToken. apply emitToken_after_turn.
        unfold emitTokenTurn. rewrite (curChar_cur _ _ _ Hcur). cbv beta iota zeta.
        rewrite (bind_Ok _ _ _ _ _ Hadv). rewrite bind_get.
        rewrite (curChar_cur _ _ _ Hcur1). change ("/" =? "/") with true. cbv iota.
        rewrite (bind_Ok _ _ _ tt s); [reflexivity |].
        exact Hwhile.
Qed.

Lemma white_space_and_comments_are_skipped_witness :
  (exists s,
      advanceN 3 (ELTokenizer "   x") = Ok (tt, s)
      /\ nextToken (ELTokenizer "   x") = nextToken s)
  /\ (exists s,
         advanceN 6 (mkState comment_then_sum 2 1 3 false) = Ok (tt, s)
         /\ nextToken (mkState comment_then_sum 2 1 3 false) = nextToken s)
  /\ nextToken (mkState comment_then_sum 2 1 3 false)
     = Ok (Token.mk ELToken.Addition "+" 9 2 1, mkState " 1" 10 2 2 false).
Proof.
  destruct white_space_and_comments_are_skipped as [Hspace Hcomment].
  split; [| split].
  - apply (Hspace "   "%string (ELTokenizer "   x") "x"%string); reflexivity.
  - apply (Hcomment (mkState comment_then_sum 2 1 3 false) " sum"%string
                    (String "010" "+ 1")); reflexivity.
  - reflexivity.
Defined.


(* ================================================================== *)
(** ** Identifiers and variables *)

Lemma advance_name_char c rest consumed line column escaped :
  isNameChar c = true ->
  advance (mkState (String c rest) consumed line column escaped)
  = Ok (tt, mkState rest (S consumed) line (S column) false).
Proof.
  destruct c as [[] [] [] [] [] [] [] []]; intro H;
    first [discriminate H | reflexivity].
Qed.

Lemma first_name_char c :
  isLetter c || (c =? "_") = true ->
  isNameChar c = true
  /\ negb (c =? "+") && negb (c =? "-") && negb (c =? ".") && negb (isDigit c)
     = true
  /\ negb (c =? "+") && negb (c =? "-") && negb (isDigit c) = true.
Proof.
  destruct c as [[] [] [] [] [] [] [] []]; intro H;
    first [discriminate H | repeat split; reflexivity].
Qed.

Lemma emitTokenTurn_letter c s consumed line column escaped :
  isLetter c || (c =? "_") = true ->
  emitTokenTurn (mkState (String c s) consumed line column escaped)
  = emitNumberOrWord (consumed, String c s) line column
                     (mkState (String c s) consumed line column escaped).
Proof.
  destruct c as [[] [] [] [] [] [] [] []]; intro H;
    first [discriminate H | reflexivity].
Qed.

Lemma advanceWhile_name_chars text :
  forall rest turns consumed line column escaped,
    allChars isNameChar text = true ->
    startsWithNameChar rest = false ->
    String.length text <= turns ->
    advanceWhile (fun s => isLetter (curChar s) || isDigit (curChar s)
                           || (curChar s =? "_"))
                 turns (mkState (text ++ rest) consumed line column escaped)
    = Ok (tt, mkState rest (consumed + String.length text) line
                      (column + String.length text)
                      (match text with EmptyString => escaped | _ => false end)).
Proof.
  induction text as [| c text IH];
    intros rest turns consumed line column escaped Hall Hrest Hturns.
  - simpl. rewrite !Nat.add_0_r.
    destruct turns as [| n]; [reflexivity |].
    rewrite advanceWhile_S. unfold eof, curChar. cbn [cur].
    destruct rest as [| d rest]; [reflexivity |].
    cbn [startsWithNameChar] in Hrest. unfold isNameChar in Hrest.
    now rewrite Hrest.
  - cbn [allChars] in Hall. apply andb_prop in Hall as [Hc Hall].
    destruct turns as [| n]; [simpl in Hturns; lia |].
    simpl in Hturns.
    rewrite advanceWhile_S. cbn [append]. unfold eof at 1, curChar at 1 2 3. cbn [cur].
    pose proof Hc as Hc'. unfold isNameChar in Hc'. rewrite Hc'.
    cbn [negb andb].
    rewrite (bind_Ok _ _ _ _ _ (advance_name_char c _ consumed line column escaped Hc)).
    rewrite IH by (auto; lia).
    cbn [String.length]. rewrite <- !Nat.add_succ_comm.
    now destruct text.
Qed.

Lemma discard_none str st :
  startsWith str (cur st) = false -> discard str st = Ok (None, st).
Proof. unfold discard. now intros ->. Qed.

(** X25. Every identifier that does not start like a keyword is read as
    one name token, whose text is the whole identifier up to the first
    character that cannot be part of a name; and an input that is such an
    identifier is the variable of that name, in both modes. *)
Theorem identifier_is_read_as_variable :
  (forall name rest consumed line column escaped,
      isIdentifier name = true ->
      startsWithNameChar rest = false ->
      startsWithKeyword (name ++ rest) = false ->
      nextToken (mkState (name ++ rest) consumed line column escaped)
      = Ok (Token.mk ELToken.Name name consumed line column,
            mkState rest (consumed + String.length name) line
                    (column + String.length name) false))
  /\ (forall name mode,
         isIdentifier name = true ->
         startsWithKeyword name = false ->
         Yields (parse mode) (ELTokenizer name)
                (Ok (EL.VariableExpression name (mkLocation 1 1),
                     mkState EmptyString (String.length name) 1
                             (1 + String.length name) false))).
Proof.
  assert (Htoken : forall name rest consumed line column escaped,
             isIdentifier name = true ->
             startsWithNameChar rest = false ->
             startsWithKeyword (name ++ rest) = false ->
             nextToken (mkState (name ++ rest) consumed line column escaped)
             = Ok (Token.mk ELToken.Name name consumed line column,
                   mkState rest (consumed + String.length name) line
                           (column + String.length name) false)).
  { intros [| c text] rest start ln col esc Hname Hrest Hkeyword;
      [discriminate Hname |].
    cbn [isIdentifier] in Hname. apply andb_prop in Hname as [Hfirst Hall].
    destruct (first_name_char c Hfirst) as (Hc & Hdecimal & Hinteger).
    unfold startsWithKeyword in Hkeyword.
    apply orb_false_iff in Hkeyword as [Hkeyword Hnull].
    apply orb_false_iff in Hkeyword as [Htrue Hfalse].
    unfold nextToken, emitToken. cbn [cur append String.length].
    rewrite emitTokenLoop_S. unfold eof at 1. cbn [cur]. cbv iota.
    rewrite (bind_Ok _ _ _
               (Some (Token.mk ELToken.Name (String c text) start ln col))
               (mkState rest (start + String.length (String c text)) ln
                        (col + String.length (String c text)) false));
      [reflexivity |].
    rewrite (emitTokenTurn_letter c _ _ _ _ _ Hfirst).
    set (st := mkState (String c (text ++ rest)) start ln col esc).
    unfold emitNumberOrWord.
    rewrite (bind_Ok _ _ _ None st);
      [| unfold readDecimal, st; cbn [curChar cur append]; now rewrite Hdecimal].
    cbv beta iota.
    rewrite (bind_Ok _ _ _ None st);
      [| unfold readInteger, st; cbn [curChar cur append]; now rewrite Hinteger].
    cbv beta iota.
    rewrite (bind_Ok _ _ _ _ _ (discard_none "true" st Htrue)). cbv beta iota.
    rewrite (bind_Ok _ _ _ _ _ (discard_none "false" st Hfalse)). cbv beta iota.
    rewrite (bind_Ok _ _ _ _ _ (discard_none "null" st Hnull)). cbv beta iota.
    unfold st at 1 2. cbn [curChar cur append]. rewrite Hfirst.
    unfold st. cbn [append].
    rewrite (bind_Ok _ _ _ _ _ (advance_name_char c _ start ln col esc Hc)).
    rewrite bind_get. cbn [cur].
    rewrite (bind_Ok _ _ _ _ _
               (advanceWhile_name_chars text rest (String.length (text ++ rest))
                                        (S start) ln (S col)
                                        false Hall Hrest
                                        ltac:(rewrite length_app; lia))).
    rewrite bind_get. unfold ret, Token.make, offset, curPos. cbn [fst cur consumed].
    cbn [String.length].
    replace (S start + String.length text)
      with (start + S (String.length text)) by lia.
    replace (S col + String.length text)
      with (col + S (String.length text)) by lia.
    change (String c (text ++ rest)) with (String c text ++ rest)%string.
    change (S (String.length text)) with (String.length (String c text)).
    rewrite between_prefix. now destruct text. }
  split; [exact Htoken |].
  intros name mode Hname Hkeyword.
  pose (tok := Token.mk ELToken.Name name 0 1 1).
  pose (st' := mkState EmptyString (String.length name) 1
                       (1 + String.length name) false).
  assert (Hnext : nextToken (ELTokenizer name) = Ok (tok, st')).
  { unfold ELTokenizer. rewrite <- (append_empty_r name) at 1.
    rewrite (Htoken name EmptyString 0 1 1 false Hname eq_refl);
      [reflexivity | now rewrite append_empty_r]. }
  assert (Hend : peekToken st'
                 = Ok (Token.mk ELToken.Eof EmptyString (String.length name) 1
                                (1 + String.length name), st'))
    by reflexivity.
  assert (Hsimple : Token.hasType tok ELToken.SimpleTerm = true) by reflexivity.
  assert (Hterm : Yields parseTerm (ELTokenizer name)
                         (Ok (EL.VariableExpression name (mkLocation 1 1), st'))).
  { apply (term_yields _ tok _ st' [] st'
                        (Token.mk ELToken.Eof EmptyString (String.length name) 1
                                  (1 + String.length name))
                        (peek_of_next _ _ _ Hnext));
      [| apply tail_end | exact Hend | reflexivity].
    apply (simple_term_without_subscript
             _ tok _ st'
             (Token.mk ELToken.Eof EmptyString (String.length name) 1
                       (1 + String.length name))
             (peek_of_next _ _ _ Hnext) Hsimple);
      [| exact Hend | discriminate].
    exists 1. intros [| m] Hm; [lia |].
    rewrite parseSimpleTerm_S. unfold parseSimpleTermBody, parseVariable.
    step_with (peek_of_next _ _ _ Hnext).
    step_with (expect_Ok _ _ (ELTokenizer name) Hsimple).
    change (Token.hasType tok ELToken.UnaryOperator) with false.
    change (Token.hasType tok [ELToken.OParen]) with false.
    change (Token.hasType tok [ELToken.Name]) with true. cbv iota.
    step_with Hnext. now expect_ok. }
  destruct Hterm as [n Hn].
  exists (S n). intros [| m] Hm; [lia |].
  unfold parse. rewrite parseExpression_S. unfold parseExpressionBody.
  rewrite bind_assoc. step_with (peek_of_next _ _ _ Hnext).
  change (Token.hasType tok [ELToken.OParen]) with false. cbv iota.
  step_with (Hn m ltac:(lia)).
  destruct mode; [| reflexivity].
  step_with Hend. now expect_ok.
Qed.

Lemma identifier_is_read_as_variable_witness :
  Yields (parse Strict) (ELTokenizer "trunk_2")
         (Ok (EL.VariableExpression "trunk_2" (mkLocation 1 1),
              mkState EmptyString 7 1 8 false))
  /\ nextToken (mkState "n_1 < 2" 4 1 5 false)
     = Ok (Token.mk ELToken.Name "n_1" 4 1 5, mkState " < 2" 7 1 8 false).
Proof.
  destruct identifier_is_read_as_variable as [Htoken Hparse].
  split.
  - apply (Hparse "trunk_2"%string Strict); reflexivity.
  - apply (Htoken "n_1"%string " < 2"%string 4 1 5 false); reflexivity.
Defined.

Lemma keyword_token word type value rest start ln col esc :
  In (word, type, value) keywords ->
  nextToken (mkState (word ++ rest) start ln col esc)
  = Ok (Token.mk type word start ln col,
        mkState rest (start + String.length word) ln
                (col + String.length word) false).
Proof.
  intros [[= <- <- <-] | [[= <- <- <-] | [[= <- <- <-] | []]]];
    cbv -[Nat.add Nat.sub takeChars].
  - replace (S (S (S (S start))) - start) with 4 by lia.
    replace (start + 4) with (S (S (S (S start)))) by lia.
    replace (col + 4) with (S (S (S (S col)))) by lia.
    reflexivity.
  - replace (S (S (S (S (S start)))) - start) with 5 by lia.
    replace (start + 5) with (S (S (S (S (S start))))) by lia.
    replace (col + 5) with (S (S (S (S (S col))))) by lia.
    reflexivity.
  - replace (S (S (S (S start))) - start) with 4 by lia.
    replace (start + 4) with (S (S (S (S start)))) by lia.
    replace (col + 4) with (S (S (S (S col)))) by lia.
    reflexivity.
Qed.

Lemma keyword_literal word type value rest :
  In (word, type, value) keywords ->
  Yields parseSimpleTerm (ELTokenizer (word ++ rest))
         (Ok (EL.LiteralExpression value (mkLocation 1 1),
              mkState rest (String.length word) 1 (1 + String.length word) false)).
Proof.
  intro Hin.
  pose proof (keyword_token _ _ _ rest 0 1 1 false Hin) as Hnext.
  fold (ELTokenizer (word ++ rest)) in Hnext.
  exists 2. intros [| [| m]] Hm; try lia.
  rewrite parseSimpleTerm_S. unfold parseSimpleTermBody.
  step_with (peek_of_next _ _ _ Hnext).
  destruct Hin as [[= <- <- <-] | [[= <- <- <-] | [[= <- <- <-] | []]]];
    expect_ok;
    match goal with
    | |- context [Token.hasType ?tok ELToken.UnaryOperator] =>
        change (Token.hasType tok ELToken.UnaryOperator) with false;
        change (Token.hasType tok [ELToken.OParen]) with false;
        change (Token.hasType tok [ELToken.Name]) with false
    end;
    cbv iota; rewrite parseLiteral_S; unfold parseLiteralBody;
    step_with (peek_of_next _ _ _ Hnext); expect_ok;
    match goal with
    | |- context [Token.hasType ?tok [ELToken.String]] =>
        change (Token.hasType tok [ELToken.String]) with false;
        change (Token.hasType tok [ELToken.Number]) with false
    end;
    cbv iota.
  - change (Token.hasType _ [ELToken.Boolean]) with true. cbv iota.
    step_with Hnext. reflexivity.
  - change (Token.hasType _ [ELToken.Boolean]) with true. cbv iota.
    step_with Hnext. reflexivity.
  - change (Token.hasType _ [ELToken.Boolean]) with false.
    change (Token.hasType _ [ELToken.Null]) with true. cbv iota.
    step_with Hnext. reflexivity.
Qed.

(** X26. The words [true], [false] and [null] are cut from the front of
    the input with no look at the character after them.  So a word that
    starts with one of them is not a name: it is the token of the keyword,
    and the rest of the word is read as the next token.  Where that next
    token is no binary operator and no opening bracket (as the name that
    the rest of an identifier is), the input is the literal of the keyword
    in Lenient mode, with the rest of the word left unread, and an error in
    Strict mode, which expects the end of the input there. *)
Theorem keyword_is_cut_from_word word type value :
  In (word, type, value) keywords ->
  (forall rest start ln col esc,
      nextToken (mkState (word ++ rest) start ln col esc)
      = Ok (Token.mk type word start ln col,
            mkState rest (start + String.length word) ln
                    (col + String.length word) false))
  /\ (forall rest tok,
         let st1 := mkState rest (String.length word) 1
                            (1 + String.length word) false in
         peekToken st1 = Ok (tok, st1) ->
         Token.hasType tok ELToken.CompoundTerm = false ->
         Token.type tok <> ELToken.OBracket ->
         Yields (parse Lenient) (ELTokenizer (word ++ rest))
                (Ok (EL.LiteralExpression value (mkLocation 1 1), st1))
         /\ (Token.type tok <> ELToken.Eof ->
             Yields (parse Strict) (ELTokenizer (word ++ rest))
                    (Throw (ExpectedToken (Token.location tok) [ELToken.Eof] tok)))).
Proof.
  intro Hin.
  split; [intros; now apply (keyword_token _ _ value) |].
  intros rest tok st1 Hpeek Hcompound Hbracket.
  pose proof (keyword_token _ _ _ rest 0 1 1 false Hin) as Hnext.
  fold (ELTokenizer (word ++ rest)) in Hnext.
  assert (Hsimple : Token.hasType (Token.mk type word 0 1 1) ELToken.SimpleTerm = true)
    by (destruct Hin as [[= <- <- <-] | [[= <- <- <-] | [[= <- <- <-] | []]]];
        reflexivity).
  assert (Hparen : Token.hasType (Token.mk type word 0 1 1) [ELToken.OParen] = false)
    by (destruct Hin as [[= <- <- <-] | [[= <- <- <-] | [[= <- <- <-] | []]]];
        reflexivity).
  assert (Hterm : Yields parseTerm (ELTokenizer (word ++ rest))
                         (Ok (EL.LiteralExpression value (mkLocation 1 1), st1))).
  { apply (term_yields _ _ _ st1 [] st1 tok (peek_of_next _ _ _ Hnext));
      [| apply tail_end | exact Hpeek | exact Hcompound].
    apply (simple_term_without_subscript _ _ _ st1 tok
                                         (peek_of_next _ _ _ Hnext) Hsimple);
      [| exact Hpeek | exact Hbracket].
    now apply (keyword_literal _ type). }
  destruct Hterm as [n Hn].
  assert (Hexpression : forall m, S n <= m ->
             parseExpression m (ELTokenizer (word ++ rest))
             = Ok (EL.LiteralExpression value (mkLocation 1 1), st1)).
  { intros [| m] Hm; [lia |].
    rewrite parseExpression_S. unfold parseExpressionBody.
    step_with (peek_of_next _ _ _ Hnext). rewrite Hparen. cbv iota.
    apply Hn. lia. }
  split.
  - exists (S n). intros m Hm. unfold parse.
    now step_with (Hexpression m Hm).
  - intro Heof. exists (S n). intros m Hm. unfold parse.
    step_with (Hexpression m Hm). step_with Hpeek.
    apply bind_Throw, expect_Throw.
    unfold Token.hasType, ELToken.member. cbn [existsb].
    rewrite orb_false_r. unfold ELToken.eqb.
    destruct (ELToken.eq_dec (Token.type tok) ELToken.Eof); [contradiction | reflexivity].
Qed.

Lemma keyword_is_cut_from_word_witness :
  nextToken (mkState "nullable" 3 1 4 false)
  = Ok (Token.mk ELToken.Null "null" 3 1 4, mkState "able" 7 1 8 false)
  /\ Yields (parse Lenient) (ELTokenizer "trueish")
            (Ok (EL.LiteralExpression (EL.Boolean true) (mkLocation 1 1),
                 mkState "ish" 4 1 5 false))
  /\ Yields (parse Strict) (ELTokenizer "trueish")
            (Throw (ExpectedToken (mkLocation 1 5) [ELToken.Eof]
                                  (Token.mk ELToken.Name "ish" 4 1 5))).
Proof.
  split.
  - apply (keyword_is_cut_from_word "null" ELToken.Null EL.Null
             ltac:(simpl; tauto)).
  - destruct (keyword_is_cut_from_word "true" ELToken.Boolean (EL.Boolean true)
                ltac:(simpl; tauto)) as [_ Hparse].
    destruct (Hparse "ish"%string (Token.mk ELToken.Name "ish" 4 1 5)
                     eq_refl eq_refl ltac:(discriminate)) as [Hlenient Hstrict].
    split; [exact Hlenient | apply Hstrict; discriminate].
Defined.
(* ================================================================== *)
(** ** A number with a fraction or an exponent before a point *)
















(** A scan by a test of the current character, step by step: it passes a
    text whose characters pass the test, and with enough turns it stops at
    the end of the input or at a character that does not pass. *)
Lemma advanceWhile_steps (q : ascii -> bool) n :
  forall st u st',
    advanceWhile (fun s => q (curChar s)) n st = Ok (u, st') ->
    exists text,
      cur st = (text ++ cur st')%string
      /\ advanceN (String.length text) st = Ok (tt, st')
      /\ allChars q text = true
      /\ (String.length (cur st) <= n ->
          eof st' = true \/ q (curChar st') = false).
Proof.
  induction n as [| n IH]; intros st u st' H.
  - injection H as _ <-. exists EmptyString.
    repeat match goal with |- _ /\ _ => split end; try reflexivity.
    intro Hlen. left. unfold eof. destruct (cur st); [reflexivity | simpl in Hlen; lia].
  - rewrite advanceWhile_S in H.
    destruct (negb (eof st) && q (curChar st)) eqn:E.
    + apply andb_prop in E as [Eeof Eq]. apply negb_true_iff in Eeof.
      destruct (cur st) as [| c rest] eqn:Hcur;
        [unfold eof in Eeof; rewrite Hcur in Eeof; discriminate |].
      destruct (advance_char st c rest Hcur) as (s1 & Hadv & Hcur1 & _).
      rewrite (bind_Ok _ _ _ _ _ Hadv) in H.
      apply IH in H as (text & Htext & HadvN & Hall & Hstop).
      exists (String c text).
      repeat match goal with |- _ /\ _ => split end.
      * cbn [append]. now rewrite <- Htext, Hcur1.
      * cbn [String.length advanceN]. now rewrite (bind_Ok _ _ _ _ _ Hadv).
      * cbn [allChars]. rewrite (curChar_cur _ _ _ Hcur) in Eq. now rewrite Eq.
      * intro Hlen. apply Hstop. rewrite Hcur1. simpl in Hlen. lia.
    + injection H as _ <-. exists EmptyString.
      repeat match goal with |- _ /\ _ => split end; try reflexivity.
      intros _. apply andb_false_iff in E as [E | E]; [left | now right].
      now apply negb_false_iff in E.
Qed.

Lemma advanceN_add a :
  forall b st s1 s2,
    advanceN a st = Ok (tt, s1) -> advanceN b s1 = Ok (tt, s2) ->
    advanceN (a + b) st = Ok (tt, s2).
Proof.
  induction a as [| a IH]; intros b st s1 s2 H1 H2.
  - injection H1 as <-. exact H2.
  - cbn [advanceN Nat.add] in *.
    apply bind_inv in H1 as ([] & s & Hadv & H1).
    rewrite (bind_Ok _ _ _ _ _ Hadv). exact (IH _ _ _ _ H1 H2).
Qed.

Lemma isBlank_whitespace ws rest :
  allChars isWhitespace ws = true ->
  isBlank BetweenTokens (ws ++ rest) = isBlank BetweenTokens rest.
Proof.
  induction ws as [| c ws IH]; [reflexivity |].
  cbn [allChars append isBlank]. intro H. apply andb_prop in H as [Hc Hws].
  rewrite Hc. now apply IH.
Qed.

Lemma isBlank_comment body rest :
  allChars inLine body = true ->
  isBlank InComment (body ++ rest) = isBlank InComment rest.
Proof.
  induction body as [| c body IH]; [reflexivity |].
  cbn [allChars append isBlank]. intro H. apply andb_prop in H as [Hc Hbody].
  rewrite Hc. now apply IH.
Qed.

(** A turn of [emitToken] that throws starts at the character of a token:
    no white space and no slash.  Its error is the end of the input where
    the token starts with a quote or an equals sign, and the unexpected
    character otherwise: the character at which the token starts, with the
    line and the column of the start. *)
Lemma emitTokenTurn_error st e :
  emitTokenTurn st = Throw e ->
  isWhitespace (curChar st) = false
  /\ curChar st <> "/"
  /\ e = if opensToken (curChar st) then UnexpectedEndOfFile
         else UnexpectedCharacter (mkLocation (line st) (column st)) (curChar st).
Proof.
  unfold emitTokenTurn.
  destruct (curChar st) as [[] [] [] [] [] [] [] []] eqn:Hc;
    cbv beta iota zeta; intro H.
  all: repeat throw_step H Hc.
  all: try match goal with
           | Hb : (?a =? ?b) = false |- _ => is_var e; now vm_compute in Hb
           end.
  all: try (apply emitNumberOrWord_throws in H; rewrite Hc in H).
  all: split; [reflexivity | split; [discriminate | exact H]].
Qed.

Lemma advance_cur st u s :
  advance st = Ok (u, s) -> cur st = String (curChar st) (cur s).
Proof.
  intro H. destruct (cur st) as [| c rest] eqn:Hcur;
    [unfold advance in H; rewrite Hcur in H; discriminate H |].
  destruct (advance_char st c rest Hcur) as (s' & Hadv & Hcur' & _).
  rewrite (curChar_cur _ _ _ Hcur).
  assert (s' = s) by congruence. subst s'. now rewrite Hcur'.
Qed.

(** A turn of [emitToken] that returns no token has passed white space, up
    to the first character that is none, or a comment, from its two
    slashes up to the end of the line. *)
Lemma emitTokenTurn_none st st' :
  emitTokenTurn st = Ok (None, st') ->
  exists text,
    cur st = (text ++ cur st')%string
    /\ advanceN (String.length text) st = Ok (tt, st')
    /\ ((text <> EmptyString
         /\ allChars isWhitespace text = true
         /\ (eof st' = true \/ isWhitespace (curChar st') = false))
        \/ (exists body,
               text = String "/" (String "/" body)
               /\ allChars inLine body = true
               /\ (eof st' = true \/ inLine (curChar st') = false))).
Proof.
  unfold emitTokenTurn.
  destruct (curChar st) as [[] [] [] [] [] [] [] []] eqn:Hc;
    cbv beta iota zeta; intro H.
  all: try (exfalso; repeat turn_step H Hc;
            first [ discriminate H
                  | apply emitNumberOrWord_inv in H as (? & ? & Hr & _);
                    discriminate Hr ]).
  all: try (apply bind_inv in H as ([] & s & Hscan & H); injection H as <-;
            unfold discardWhile in Hscan;
            apply (advanceWhile_steps isWhitespace) in Hscan
              as (text & Htext & HadvN & Hall & Hstop);
            exists text; split; [exact Htext | split; [exact HadvN |]]; left;
            specialize (Hstop (Nat.le_refl _));
            split; [| split; [exact Hall | exact Hstop]];
            intros ->; injection HadvN as <-;
            destruct Hstop as [E | E];
            [ apply eof_curChar in E; rewrite Hc in E; discriminate E
            | rewrite Hc in E; discriminate E ]).
  apply bind_inv in H as ([] & s1 & Hadv & H). rewrite bind_get in H.
  destruct (curChar s1 =? "/") eqn:Eslash; [| discriminate H].
  apply Ascii.eqb_eq in Eslash.
  apply bind_inv in H as ([] & s & Hscan & H). injection H as <-.
  unfold discardUntil in Hscan.
  apply (advanceWhile_steps inLine) in Hscan as (text & Htext & HadvN & Hall & Hstop).
  specialize (Hstop (Nat.le_refl _)).
  pose proof (advance_cur _ _ _ Hadv) as Hcur. rewrite Hc in Hcur.
  destruct text as [| c body].
  { exfalso. injection HadvN as <-. destruct Hstop as [E | E].
    - apply eof_curChar in E. rewrite Eslash in E. discriminate E.
    - rewrite Eslash in E. discriminate E. }
  assert (c = "/") by (rewrite <- Eslash; unfold curChar; now rewrite Htext).
  subst c. cbn [allChars] in Hall. apply andb_prop in Hall as [_ Hall].
  exists (String "/" (String "/" body)). split; [| split].
  - rewrite Hcur, Htext. reflexivity.
  - cbn [String.length advanceN] in *. now rewrite (bind_Ok _ _ _ _ _ Hadv).
  - right. exists body. auto.
Qed.

(** X5. The tokenizer throws two errors only, and which one is decided by
    the character at which the failed token starts.  [emitToken] passes
    the white space and the comments before that character; there, no
    white space and no slash, the input ends inside a token that starts
    with a quote or an equals sign, or no token can be read, and the error
    reports that first character of the failed token with the line and the
    column at which the token starts, also where the scan failed further
    on. *)
Theorem tokenizer_errors st e :
  emitToken st = Throw e ->
  exists skipped s0,
    cur st = (skipped ++ cur s0)%string
    /\ advanceN (String.length skipped) st = Ok (tt, s0)
    /\ isBlank BetweenTokens skipped = true
    /\ isWhitespace (curChar s0) = false
    /\ curChar s0 <> "/"
    /\ e = if opensToken (curChar s0) then UnexpectedEndOfFile
           else UnexpectedCharacter (mkLocation (line s0) (column s0))
                                    (curChar s0).
Proof.
  unfold emitToken. generalize (String.length (cur st)) as n. intro n.
  revert st e.
  induction n as [| n IH]; intros st e H.
  - cbn [emitTokenLoop] in H. destruct (eof st); discriminate H.
  - rewrite emitTokenLoop_S in H. destruct (eof st); [discriminate H |].
    apply bind_throw_inv in H as [H | (r & s & Hturn & H)].
    + exists EmptyString, st.
      split; [reflexivity | split; [reflexivity | split; [reflexivity |]]].
      exact (emitTokenTurn_error _ _ H).
    + destruct r as [tok |]; [discriminate H |].
      assert (Hmore : eof s = false).
      { destruct (eof s) eqn:Heof; [| reflexivity].
        destruct n; [cbn [emitTokenLoop] in H | rewrite emitTokenLoop_S in H];
          rewrite Heof in H; discriminate H. }
      apply IH in H as (skipped & s0 & Hcur & Hadv & Hblank & Hws & Hslash & He).
      apply emitTokenTurn_none in Hturn
        as (text & Htext & HadvN & [(_ & Hall & _) | (body & -> & Hall & Hstop)]).
      * exists (text ++ skipped)%string, s0.
        split; [now rewrite Htext, Hcur, append_assoc |].
        split; [rewrite length_app; exact (advanceN_add _ _ _ _ _ HadvN Hadv) |].
        split; [now rewrite isBlank_whitespace |].
        auto.
      * exists (String "/" (String "/" body) ++ skipped)%string, s0.
        split; [now rewrite Htext, Hcur, append_assoc |].
        split; [rewrite length_app; exact (advanceN_add _ _ _ _ _ HadvN Hadv) |].
        split; [| auto].
        destruct Hstop as [Hstop | Hstop]; [congruence |].
        cbn [append isBlank]. change ("/" =? "/") with true.
        change (isWhitespace "/") with false. cbv iota.
        rewrite (isBlank_comment _ _ Hall).
        destruct skipped as [| c t].
        { injection Hadv as <-. unfold inLine in Hstop.
          apply negb_false_iff in Hstop.
          assert (Hw : isWhitespace (curChar s) = true).
          { unfold isWhitespace, Whitespace, lineEnd in *. cbn [isAnyOf] in *.
            destruct (curChar s =? "010"), (curChar s =? "013");
              try discriminate Hstop; now rewrite ?orb_true_r. }
          congruence. }
        assert (Hc : curChar s = c) by (unfold curChar; now rewrite Hcur).
        rewrite Hc in Hstop. cbn [isBlank] in Hblank |- *. rewrite Hstop.
        unfold inLine in Hstop. apply negb_false_iff in Hstop.
        assert (Hw : isWhitespace c = true).
        { unfold isWhitespace, Whitespace, lineEnd in *. cbn [isAnyOf] in *.
          destruct (c =? "010"), (c =? "013");
            try discriminate Hstop; now rewrite ?orb_true_r. }
        now rewrite Hw in Hblank.
Qed.

Lemma tokenizer_errors_witness :
  emitToken (ELTokenizer ("  // no" ++ String "010" " 12ab + 1"))
  = Throw (UnexpectedCharacter (mkLocation 2 2) "1")
  /\ exists skipped s0,
       ("  // no" ++ String "010" " 12ab + 1")%string = (skipped ++ cur s0)%string
       /\ advanceN (String.length skipped)
                   (ELTokenizer ("  // no" ++ String "010" " 12ab + 1"))
          = Ok (tt, s0)
       /\ isBlank BetweenTokens skipped = true
       /\ isWhitespace (curChar s0) = false
       /\ curChar s0 <> "/"
       /\ UnexpectedCharacter (mkLocation 2 2) "1"
          = if opensToken (curChar s0) then UnexpectedEndOfFile
            else UnexpectedCharacter (mkLocation (line s0) (column s0))
                                     (curChar s0).
Proof.
  assert (H : emitToken (ELTokenizer ("  // no" ++ String "010" " 12ab + 1"))
              = Throw (UnexpectedCharacter (mkLocation 2 2) "1"))
    by reflexivity.
  split; [exact H |].
  exact (tokenizer_errors _ _ H).
Defined.
